(** * Vision board: layout, texture masking, migration and export

    A shallow embedding of the rendering and export pipeline of the vision
    board editor, with the properties of its specification stated and proved
    against it.

    Conventions of the embedding.
    - A JavaScript [number] that carries a measurement (a coordinate, a
      scale, an opacity) is a real number of [R]: arithmetic is exact, so
      IEEE rounding, [NaN] and the infinities are outside this model. Where
      a property depends on them, the code is modelled a second time: on
      the binary64 numbers of the kernel ([Binary64]), or with every
      operation followed by a rounding ([Rounded]), of which rounding to
      the nearest binary64 number ([Nearest]) is an instance.
    - A number that is only compared with an integer constant or used as an
      array index ([zIndex], a pixel byte, a buffer offset) is a [Z] or a
      [nat], which keeps the code that uses it executable.
    - A typed array is a [list Z] read with [!!] and written with
      [<[i:=v]>]; a write outside the array does nothing, as in JavaScript.
    - A JavaScript object used as a record with optional keys is a
      [gmap string _]. *)

From Stdlib Require Import Reals Lra Lia ZArith Psatz.
From Stdlib Require Floats.
From stdpp Require Import gmap strings list fin_maps.

#[local] Open Scope R_scope.
#[local] Set Warnings "-register-all".

(** ** The [Math] object *)

Module JsMath.

Definition Math_floor (x : R) : R := IZR (Int_part x).

Definition Math_sin (x : R) : R := sin x.

Definition Math_sqrt (x : R) : R := sqrt x.

Definition Math_min (a b : R) : R := Rmin a b.

Definition Math_min4 (a b c d : R) : R := Rmin (Rmin (Rmin a b) c) d.

Definition Math_PI : R := PI.

(** [a < b] and [a > b] as the booleans a JavaScript condition tests. *)
Definition ltb (a b : R) : bool := if Rlt_dec a b then true else false.
Definition gtb (a b : R) : bool := if Rgt_dec a b then true else false.

(** [x || d] on numbers: the left operand unless it is falsy, that is 0. *)
Definition or_default (x d : R) : R := if Req_dec_T x 0 then d else x.

Lemma Math_floor_bounds x : Math_floor x <= x < Math_floor x + 1.
Proof.
  unfold Math_floor. destruct (base_Int_part x) as [Hle Hgt]. lra.
Qed.

Lemma Math_floor_IZR z : Math_floor (IZR z) = IZR z.
Proof.
  unfold Math_floor. f_equal. symmetry. apply Int_part_spec. lra.
Qed.

Lemma Math_floor_mono x y : x <= y -> Math_floor x <= Math_floor y.
Proof.
  intros Hxy. unfold Math_floor. apply IZR_le.
  destruct (base_Int_part x) as [Hx _]. destruct (base_Int_part y) as [_ Hy].
  assert (IZR (Int_part x) < IZR (Int_part y) + 1) as Hlt by lra.
  rewrite <- plus_IZR in Hlt. apply lt_IZR in Hlt. lia.
Qed.

Lemma ltb_true a b : ltb a b = true <-> a < b.
Proof. unfold ltb. destruct (Rlt_dec a b); split; (lra || discriminate || auto). Qed.

Lemma ltb_false a b : ltb a b = false <-> b <= a.
Proof. unfold ltb. destruct (Rlt_dec a b); split; (lra || discriminate || auto). Qed.

Lemma gtb_true a b : gtb a b = true <-> b < a.
Proof. unfold gtb. destruct (Rgt_dec a b); split; (lra || discriminate || auto). Qed.

Lemma gtb_false a b : gtb a b = false <-> a <= b.
Proof. unfold gtb. destruct (Rgt_dec a b); split; (lra || discriminate || auto). Qed.

Lemma or_default_0 x : or_default x 0 = x.
Proof. unfold or_default. destruct (Req_dec_T x 0); congruence. Qed.

Lemma or_default_ne x d : x <> 0 -> or_default x d = x.
Proof. unfold or_default. destruct (Req_dec_T x 0); congruence. Qed.

End JsMath.

(** ** [vision-board/constants.ts] *)

Module Constants.
Import JsMath.

Definition POSTER_WIDTH : R := 1800.
Definition POSTER_HEIGHT : R := 2400.
Definition MIN_DIM : R := Math_min POSTER_WIDTH POSTER_HEIGHT.
Definition DREAM_BASE_SIZE : R := MIN_DIM * 0.38.
Definition CORE_BASE_SIZE : R := MIN_DIM * 0.48.

Record Preset := mkPreset { pos_x : R; pos_y : R; pos_size : R }.

Definition DREAM_POSITIONS : list Preset :=
  [ mkPreset (-0.32) (-0.38) 1.15;
    mkPreset 0.0 (-0.40) 1.1;
    mkPreset 0.32 (-0.38) 1.15;
    mkPreset (-0.38) (-0.18) 1.1;
    mkPreset 0.38 (-0.16) 1.05;
    mkPreset (-0.40) 0.08 1.15;
    mkPreset 0.40 0.06 1.1;
    mkPreset (-0.38) 0.30 1.05;
    mkPreset 0.38 0.28 1.1;
    mkPreset (-0.32) 0.42 1.15;
    mkPreset 0.0 0.44 1.1;
    mkPreset 0.32 0.42 1.15;
    mkPreset (-0.22) (-0.28) 0.95;
    mkPreset 0.22 0.28 0.95 ].

Definition seededRandom (seed : R) : R :=
  let x := Math_sin (seed * 9999) * 10000 in
  x - Math_floor x.

(** The reference algorithm of the specification, in its own words:
    [frac (sin (seed * K) * M)] with [K = 9999] and [M = 10000], where
    [frac] is the fractional part of the Standard Library. *)
Definition reference_seeded (seed : R) : R :=
  frac_part (sin (seed * 9999) * 10000).

Lemma MIN_DIM_eq : MIN_DIM = 1800.
Proof.
  unfold MIN_DIM, Math_min, POSTER_WIDTH, POSTER_HEIGHT.
  apply Rmin_left. lra.
Qed.

Lemma seededRandom_range seed : 0 <= seededRandom seed < 1.
Proof.
  unfold seededRandom.
  pose proof (Math_floor_bounds (Math_sin (seed * 9999) * 10000)). lra.
Qed.

Lemma seededRandom_0 : seededRandom 0 = 0.
Proof.
  unfold seededRandom, Math_sin. rewrite Rmult_0_l, sin_0, Rmult_0_l.
  change 0 with (IZR 0) at 2. rewrite Math_floor_IZR. lra.
Qed.

(** The seeds the program passes to [seededRandom]: [index * 17],
    [index * 7], [index * 13] and [index * 23] for the index of a dream slot
    that has a preset (0 to 13), [i * 3], [i * 5], [i * 7] and [i * 11] for
    a star ([i] below 500), and [i * 17 + 100], [i * 19 + 100] and
    [i * 23 + 100] for a nebula ([i] below 6). *)
Definition dream_seeds : list Z :=
  index ← seqZ 0 14; [index * 17; index * 7; index * 13; index * 23]%Z.

Definition star_seeds : list Z :=
  i ← seqZ 0 500; [i * 3; i * 5; i * 7; i * 11]%Z.

Definition nebula_seeds : list Z :=
  i ← seqZ 0 6; [i * 17 + 100; i * 19 + 100; i * 23 + 100]%Z.

Definition seeds_in_use : list Z := dream_seeds ++ star_seeds ++ nebula_seeds.

Lemma seeds_in_use_range (seed : Z) :
  seed ∈ seeds_in_use -> (0 <= seed <= 5489)%Z.
Proof.
  unfold seeds_in_use, dream_seeds, star_seeds, nebula_seeds.
  rewrite !elem_of_app, !list_elem_of_bind.
  intros [(i & Hin & Hi)|[(i & Hin & Hi)|(i & Hin & Hi)]];
    apply elem_of_seqZ in Hi;
    rewrite !elem_of_cons, elem_of_nil in Hin;
    intuition lia.
Qed.

(** C4, amended. For every seed the program passes, an integer between 0
    and 5489, [seededRandom seed] is the reference algorithm
    [frac (sin (seed * 9999) * 10000)], that is [x - floor x] for
    [x = sin (seed * 9999) * 10000]; it lies in the half-open interval
    [[0, 1)]; and it is deterministic: calls with equal seeds return equal
    values. Stated in exact arithmetic. *)
Theorem seededRandom_reference (seed : Z) :
  seed ∈ seeds_in_use ->
  (0 <= seed <= 5489)%Z /\
  seededRandom (IZR seed) = reference_seeded (IZR seed) /\
  seededRandom (IZR seed) =
    sin (IZR seed * 9999) * 10000
    - IZR (Int_part (sin (IZR seed * 9999) * 10000)) /\
  0 <= seededRandom (IZR seed) < 1 /\
  (forall seed' : Z,
     seed' = seed -> seededRandom (IZR seed') = seededRandom (IZR seed)).
Proof.
  intros Hin. split; [by apply seeds_in_use_range|].
  split; [reflexivity|]. split; [reflexivity|].
  split; [apply seededRandom_range|].
  intros seed' ->. reflexivity.
Qed.

Lemma seededRandom_reference_witness :
  (0 <= 91 <= 5489)%Z /\
  seededRandom 91 = reference_seeded 91 /\ 0 <= seededRandom 91 < 1.
Proof.
  assert (91%Z ∈ seeds_in_use) as Hin.
  { unfold seeds_in_use, dream_seeds. apply elem_of_app. left.
    apply list_elem_of_bind. exists 13%Z. split.
    - rewrite !elem_of_cons. right. left. reflexivity.
    - apply elem_of_seqZ. lia. }
  destruct (seededRandom_reference 91 Hin) as (Hseed & Href & _ & Hrange & _).
  split; [exact Hseed|]. split; [exact Href | exact Hrange].
Defined.

End Constants.

(** ** [seededRandom] on binary64 numbers

    The numbers of the kernel are the binary64 numbers of JavaScript, with
    their rounding, their infinities and a single [NaN]. [Math.floor] is
    exact on them. [Math.sin] is fixed by the language only at [NaN] and at
    the infinities, where it is [NaN], and at the zeros, which it returns;
    elsewhere an engine approximates the sine, so the model takes the
    function an engine uses there as a parameter. *)

Module Binary64.
Import PrimFloat.
#[local] Open Scope float_scope.

(** [Math.floor] returns [NaN], the infinities and the zeros as they are.
    From [2^52] on, every binary64 number is an integer. Below, adding and
    subtracting [2^52] rounds to a nearest integer, which is the floor or
    the integer above it. *)
Definition Math_floor (x : float) : float :=
  if is_nan x || is_infinity x || is_zero x then x
  else if 0x1p52 <=? abs x then x
  else
    let nearest :=
      if 0 <=? x then (x + 0x1p52) - 0x1p52 else (x - 0x1p52) + 0x1p52 in
    if x <? nearest then nearest - 1 else nearest.

Section sine.

Variable sin_finite : float -> float.

Definition Math_sin (x : float) : float :=
  if is_nan x || is_infinity x then nan
  else if is_zero x then x
  else sin_finite x.

Definition seededRandom (seed : float) : float :=
  let x := Math_sin (seed * 9999) * 10000 in
  x - Math_floor x.

End sine.

(** [0 <= r && r < 1] *)
Definition in_unit_interval (r : float) : bool := (0 <=? r) && (r <? 1).

(** The range of the claim, as the specification states it: for every
    numeric seed. *)
Definition stated_range (sin_finite : float -> float) : Prop :=
  forall seed : float, in_unit_interval (seededRandom sin_finite seed) = true.

Example Math_floor_values :
  Math_floor 2.5 = 2 /\ Math_floor (-2.5) = -3 /\ Math_floor 7 = 7 /\
  Math_floor (-7) = -7 /\ Math_floor 0.5 = 0 /\ Math_floor (-0x1p-80) = -1 /\
  Math_floor 0x1.fffffffffffffp-1 = 0 /\
  Math_floor 0x1.fffffffffffffp51 = 0x1.ffffffffffffep51 /\
  Math_floor (-0x1.fffffffffffffp51) = -0x1p52 /\
  Math_floor 0x1p60 = 0x1p60 /\ Math_floor nan = nan /\
  Math_floor infinity = infinity.
Proof. repeat split; reflexivity. Qed.

(** C4, as stated, fails on binary64 numbers, whatever the engine's sine.
    For the seed [2^1020] (about [1.1e307]) the product [seed * 9999]
    overflows to infinity, whose sine is [NaN], and so is the result; the
    same holds for an infinite seed and for [NaN]. For the seed [-2^-100]
    (about [-7.9e-31]) the sine of [seed * 9999], correctly rounded, is its
    argument; then [x] is about [-7.9e-23], its floor is [-1], and
    [x - floor x] rounds to exactly 1, which is outside [[0, 1)]. *)
Lemma seededRandom_as_stated_fails :
  (forall sin_finite, ¬ stated_range sin_finite) /\
  (forall sin_finite,
     seededRandom sin_finite 0x1p1020 = nan /\
     seededRandom sin_finite infinity = nan /\
     seededRandom sin_finite nan = nan) /\
  (forall sin_finite,
     sin_finite (-0x1p-100 * 9999) = -0x1p-100 * 9999 ->
     seededRandom sin_finite (-0x1p-100) = 1 /\
     in_unit_interval (seededRandom sin_finite (-0x1p-100)) = false).
Proof.
  split; [|split].
  - intros sin_finite Hrange. specialize (Hrange 0x1p1020). discriminate.
  - intros sin_finite. repeat split; reflexivity.
  - intros sin_finite Hsin.
    assert (seededRandom sin_finite (-0x1p-100) = 1) as Hone.
    { unfold seededRandom, Math_sin.
      change (is_nan (-0x1p-100 * 9999) || is_infinity (-0x1p-100 * 9999))
        with false.
      change (is_zero (-0x1p-100 * 9999)) with false.
      cbv iota. rewrite Hsin. reflexivity. }
    split; [exact Hone|]. rewrite Hone. reflexivity.
Qed.

(** *** The mask of a pixel on binary64 numbers

    The computation of [createFadedTexture] for one pixel, operation by
    operation, to evaluate it. [x ** 2] is taken as [x * x], and the
    numbers are the ones the literals of the source denote. *)

Definition Math_min (a b : float) : float :=
  if is_nan a || is_nan b then nan
  else if a <? b then a
  else if b <? a then b
  else if get_sign a then a else b.

Definition Math_min4 (a b c d : float) : float :=
  Math_min (Math_min (Math_min a b) c) d.

#[local] Set Warnings "-inexact-float".

Section createFadedTexture.

Variables (img_width img_height size zoom : float).

Definition baseScale : float := size / Math_min img_width img_height.
Definition scale : float := baseScale * zoom.
Definition w : float := img_width * scale.
Definition h : float := img_height * scale.
Definition x : float := (size - w) / 2.
Definition y : float := (size - h) / 2.

Definition centerX : float := size / 2.
Definition centerY : float := size / 2.
Definition maxRadius : float := size / 2.

Definition imgLeft : float := x.
Definition imgRight : float := x + w.
Definition imgTop : float := y.
Definition imgBottom : float := y + h.
Definition featherSize : float := size * 0.08.

Definition dist (px py : float) : float :=
  sqrt ((px - centerX) * (px - centerX) + (py - centerY) * (py - centerY)).

Definition ratio (px py : float) : float := dist px py / maxRadius.

Definition circularAlpha (ratio : float) : float :=
  if ratio <? 0.4 then 1
  else if 1 <? ratio then 0
  else
    let t := (ratio - 0.4) / 0.6 in
    1 - t * t * (3 - 2 * t).

Definition minEdgeDist (px py : float) : float :=
  let fromLeft := px - imgLeft in
  let fromRight := imgRight - px in
  let fromTop := py - imgTop in
  let fromBottom := imgBottom - py in
  Math_min4 fromLeft fromRight fromTop fromBottom.

Definition edgeAlpha (px py : float) : float :=
  if 0 <? featherSize then
    let minEdgeDist := minEdgeDist px py in
    if minEdgeDist <? 0 then 0
    else if minEdgeDist <? featherSize then
      let t := minEdgeDist / featherSize in
      t * t * (3 - 2 * t)
    else 1
  else 1.

Definition finalAlpha (px py : float) : float :=
  circularAlpha (ratio px py) * edgeAlpha px py.

(** [Math.floor((data[idx + 3] ?? 0) * finalAlpha)] *)
Definition written_alpha (src px py : float) : float :=
  Math_floor (src * finalAlpha px py).

End createFadedTexture.

(** For an image of 100 by 100 pixels on a canvas of size 100, the pixel
    (18, 50) is at ratio 0.64 from the centre; with source alpha 250 the
    code writes 161. *)
Example written_alpha_18_50 : written_alpha 100 100 100 1 250 18 50 = 161.
Proof. reflexivity. Qed.

End Binary64.

(** ** Typed arrays updated in place

    A loop whose body reads one cell of a typed array and writes the same
    cell, [data[g k] = v k (data[g k] ?? 0)], as a left fold over the
    iteration space. *)

Module TypedArray.

Section in_place.
Context {K : Type} (g : K -> nat) (v : K -> Z -> Z).

Definition update_at (d : list Z) (k : K) : list Z :=
  <[g k := v k (default 0%Z (d !! g k))]> d.

Lemma foldl_update_length (ks : list K) (d : list Z) :
  length (foldl update_at d ks) = length d.
Proof.
  revert d. induction ks as [|k ks IH]; intros d; simpl; [done|].
  rewrite IH. apply length_insert.
Qed.

Lemma foldl_update_untouched (ks : list K) (d : list Z) (j : nat) :
  (forall k, k ∈ ks -> g k ≠ j) -> foldl update_at d ks !! j = d !! j.
Proof.
  revert d. induction ks as [|k ks IH]; intros d Hj; simpl; [done|].
  rewrite IH by (intros k' Hk'; apply Hj; by right).
  apply list_lookup_insert_ne. apply Hj. by left.
Qed.

Lemma foldl_update_written (ks : list K) (d : list Z) (k : K) :
  NoDup (g <$> ks) -> k ∈ ks -> (g k < length d)%nat ->
  foldl update_at d ks !! g k = Some (v k (default 0%Z (d !! g k))).
Proof.
  revert d. induction ks as [|k0 ks IH]; intros d Hnd Hin Hlen.
  { by apply elem_of_nil in Hin. }
  simpl in *. apply NoDup_cons in Hnd as [Hnotin Hnd].
  apply elem_of_cons in Hin as [->|Hin].
  - rewrite foldl_update_untouched.
    + unfold update_at. by apply list_lookup_insert_eq.
    + intros k' Hk' Hgk'. apply Hnotin. rewrite <- Hgk'.
      by apply list_elem_of_fmap_2.
  - assert (g k0 ≠ g k) as Hne.
    { intros Heq. apply Hnotin. rewrite Heq. by apply list_elem_of_fmap_2. }
    rewrite IH; [|done|done|].
    + unfold update_at. by rewrite list_lookup_insert_ne.
    + unfold update_at. by rewrite length_insert.
Qed.

End in_place.

Lemma foldl_bind_nested {A B : Type} (f : list Z -> B -> list Z)
    (h : A -> list B) (l : list A) (d : list Z) :
  foldl (fun d a => foldl f d (h a)) d l = foldl f d (l ≫= h).
Proof.
  revert d. induction l as [|a l IH]; intros d; simpl; [done|].
  by rewrite foldl_app, IH.
Qed.

End TypedArray.

(** ** [vision-board/texture-utils.ts] *)

Module TextureUtils.
Import JsMath.

(** Storing a number into a [Uint8ClampedArray]: round to the nearest
    integer, ties to even, then clamp to a byte. *)
Definition to_uint8_clamped (v : R) : Z :=
  let f := Int_part v in
  let r := v - IZR f in
  let n := if ltb r 0.5 then f
           else if gtb r 0.5 then (f + 1)%Z
           else if Z.even f then f else (f + 1)%Z in
  Z.max 0 (Z.min 255 n).

Definition is_byte (b : Z) : Prop := (0 <= b <= 255)%Z.

Section createFadedTexture.

(** The decoded image and the arguments of [createFadedTexture]. The pixel
    buffer [data] the loop works on is what [getImageData] returns after
    [drawImage]: [size * size] pixels of four bytes. *)
Variables (img_width img_height : R) (size : nat) (zoom : R).

Definition baseScale : R := INR size / Math_min img_width img_height.
Definition scale : R := baseScale * zoom.
Definition w : R := img_width * scale.
Definition h : R := img_height * scale.
Definition x : R := (INR size - w) / 2.
Definition y : R := (INR size - h) / 2.

Definition centerX : R := INR size / 2.
Definition centerY : R := INR size / 2.
Definition maxRadius : R := INR size / 2.

Definition imgLeft : R := x.
Definition imgRight : R := x + w.
Definition imgTop : R := y.
Definition imgBottom : R := y + h.
Definition featherSize : R := INR size * 0.08.

Definition dist (px py : nat) : R :=
  Math_sqrt ((INR px - centerX) ^ 2 + (INR py - centerY) ^ 2).

Definition ratio (px py : nat) : R := dist px py / maxRadius.

(** The [if] chain that assigns [circularAlpha], as a function of the
    [ratio] it tests. *)
Definition circularAlpha (ratio : R) : R :=
  if ltb ratio 0.4 then 1
  else if gtb ratio 1 then 0
  else
    let t := (ratio - 0.4) / 0.6 in
    1 - t * t * (3 - 2 * t).

Definition minEdgeDist (px py : nat) : R :=
  let fromLeft := INR px - imgLeft in
  let fromRight := imgRight - INR px in
  let fromTop := INR py - imgTop in
  let fromBottom := imgBottom - INR py in
  Math_min4 fromLeft fromRight fromTop fromBottom.

Definition edgeAlpha (px py : nat) : R :=
  if gtb featherSize 0 then
    let minEdgeDist := minEdgeDist px py in
    if ltb minEdgeDist 0 then 0
    else if ltb minEdgeDist featherSize then
      let t := minEdgeDist / featherSize in
      t * t * (3 - 2 * t)
    else 1
  else 1.

Definition finalAlpha (px py : nat) : R :=
  circularAlpha (ratio px py) * edgeAlpha px py.

Definition idx (px py : nat) : nat := (py * size + px) * 4.

(** The body of the inner loop: [data[idx + 3] = Math.floor((data[idx + 3]
    ?? 0) * finalAlpha)]. *)
Definition mask_pixel (data : list Z) (px py : nat) : list Z :=
  let i := idx px py in
  <[(i + 3)%nat :=
      to_uint8_clamped
        (Math_floor (IZR (default 0%Z (data !! (i + 3)%nat)) * finalAlpha px py))]>
    data.

(** [for (let px = 0; px < size; px++)] *)
Definition mask_row (data : list Z) (py : nat) : list Z :=
  foldl (fun d px => mask_pixel d px py) data (seq 0 size).

(** [for (let py = 0; py < size; py++)] *)
Definition mask_pixels (data : list Z) : list Z :=
  foldl mask_row data (seq 0 size).

(** *** The smoothstep polynomial [t * t * (3 - 2 * t)] *)

Lemma smoothstep_range (t : R) :
  0 <= t <= 1 -> 0 <= t * t * (3 - 2 * t) <= 1.
Proof.
  intros [H0 H1]. split.
  - apply Rmult_le_pos; [nra | lra].
  - assert (0 <= (1 - t) * (1 - t) * (1 + 2 * t)) as Hp
      by (apply Rmult_le_pos; [nra | lra]).
    nra.
Qed.

Lemma smoothstep_mono (a b : R) :
  0 <= a -> a <= b -> b <= 1 ->
  a * a * (3 - 2 * a) <= b * b * (3 - 2 * b).
Proof.
  intros Ha Hab Hb.
  assert (0 <= (b - a) * (a * (3 - 2 * a) + b * (3 - 2 * b) - 2 * a * b)) as Hp.
  { apply Rmult_le_pos; [lra|].
    assert (0 <= a * (1 - b)) by (apply Rmult_le_pos; lra).
    assert (0 <= b * (1 - a)) by (apply Rmult_le_pos; lra).
    assert (0 <= a * (1 - a)) by (apply Rmult_le_pos; lra).
    assert (0 <= b * (1 - b)) by (apply Rmult_le_pos; lra).
    nra. }
  nra.
Qed.

(** *** The circular fade *)

Lemma ratio_nonneg (px py : nat) : (0 < size)%nat -> 0 <= ratio px py.
Proof.
  intros Hsize. unfold ratio, dist, maxRadius, Math_sqrt.
  apply Rmult_le_pos; [apply sqrt_pos|].
  apply Rlt_le, Rinv_0_lt_compat.
  apply lt_INR in Hsize. simpl in Hsize. lra.
Qed.

Lemma circularAlpha_low (r : R) : r < 0.4 -> circularAlpha r = 1.
Proof.
  intros H. unfold circularAlpha.
  apply ltb_true in H. rewrite H. reflexivity.
Qed.

Lemma circularAlpha_high (r : R) : 1 < r -> circularAlpha r = 0.
Proof.
  intros H. unfold circularAlpha.
  assert (ltb r 0.4 = false) as -> by (apply ltb_false; lra).
  apply gtb_true in H. rewrite H. reflexivity.
Qed.

Lemma circularAlpha_mid (r : R) :
  0.4 <= r <= 1 ->
  circularAlpha r =
    1 - ((r - 0.4) / 0.6) * ((r - 0.4) / 0.6) * (3 - 2 * ((r - 0.4) / 0.6)).
Proof.
  intros [Hlo Hhi]. unfold circularAlpha.
  assert (ltb r 0.4 = false) as -> by (apply ltb_false; lra).
  assert (gtb r 1 = false) as -> by (apply gtb_false; lra).
  reflexivity.
Qed.

Lemma circularAlpha_range (r : R) : 0 <= circularAlpha r <= 1.
Proof.
  destruct (Rlt_dec r 0.4) as [Hlo|Hlo].
  { rewrite circularAlpha_low by assumption. lra. }
  destruct (Rlt_dec 1 r) as [Hhi|Hhi].
  { rewrite circularAlpha_high by assumption. lra. }
  rewrite circularAlpha_mid by lra.
  pose proof (smoothstep_range ((r - 0.4) / 0.6)) as Hs.
  lapply Hs; [lra|]. lra.
Qed.

Lemma circularAlpha_mono (r1 r2 : R) :
  0.4 <= r1 -> r1 <= r2 -> r2 <= 1 -> circularAlpha r2 <= circularAlpha r1.
Proof.
  intros H1 H12 H2. rewrite !circularAlpha_mid by lra.
  pose proof (smoothstep_mono ((r1 - 0.4) / 0.6) ((r2 - 0.4) / 0.6)) as Hm.
  lapply Hm; [|lra]. intros Hm'. lapply Hm'; [|lra]. intros Hm''.
  lapply Hm''; [|lra]. lra.
Qed.

(** *** The edge feather *)

Lemma featherSize_pos : (0 < size)%nat -> 0 < featherSize.
Proof.
  intros Hsize. unfold featherSize.
  apply lt_INR in Hsize. simpl in Hsize. lra.
Qed.

Lemma edgeAlpha_outside (px py : nat) :
  (0 < size)%nat -> minEdgeDist px py < 0 -> edgeAlpha px py = 0.
Proof.
  intros Hsize H. unfold edgeAlpha.
  assert (gtb featherSize 0 = true) as ->
    by (apply gtb_true, featherSize_pos, Hsize).
  apply ltb_true in H. rewrite H. reflexivity.
Qed.

Lemma edgeAlpha_feather (px py : nat) :
  (0 < size)%nat -> 0 <= minEdgeDist px py < featherSize ->
  edgeAlpha px py =
    (minEdgeDist px py / featherSize) * (minEdgeDist px py / featherSize)
      * (3 - 2 * (minEdgeDist px py / featherSize)).
Proof.
  intros Hsize [Hlo Hhi]. unfold edgeAlpha.
  assert (gtb featherSize 0 = true) as ->
    by (apply gtb_true, featherSize_pos, Hsize).
  assert (ltb (minEdgeDist px py) 0 = false) as -> by (apply ltb_false; lra).
  apply ltb_true in Hhi. rewrite Hhi. reflexivity.
Qed.

Lemma edgeAlpha_inside (px py : nat) :
  featherSize <= minEdgeDist px py -> edgeAlpha px py = 1.
Proof.
  intros H. unfold edgeAlpha.
  destruct (gtb featherSize 0) eqn:Hf; [|reflexivity].
  apply gtb_true in Hf.
  assert (ltb (minEdgeDist px py) 0 = false) as -> by (apply ltb_false; lra).
  assert (ltb (minEdgeDist px py) featherSize = false) as ->
    by (apply ltb_false; lra).
  reflexivity.
Qed.

Lemma edgeAlpha_range (px py : nat) : 0 <= edgeAlpha px py <= 1.
Proof.
  unfold edgeAlpha.
  destruct (gtb featherSize 0) eqn:Hf; [|lra].
  apply gtb_true in Hf.
  destruct (ltb (minEdgeDist px py) 0) eqn:H0; [lra|].
  apply ltb_false in H0.
  destruct (ltb (minEdgeDist px py) featherSize) eqn:H1; [|lra].
  apply ltb_true in H1.
  apply smoothstep_range. split.
  - apply Rmult_le_pos; [lra|]. apply Rlt_le, Rinv_0_lt_compat, Hf.
  - apply Rlt_le. apply (Rmult_lt_reg_r featherSize); [exact Hf|].
    unfold Rdiv. rewrite Rmult_assoc, Rinv_l by lra. lra.
Qed.

Lemma finalAlpha_range (px py : nat) : 0 <= finalAlpha px py <= 1.
Proof.
  unfold finalAlpha.
  pose proof (circularAlpha_range (ratio px py)).
  pose proof (edgeAlpha_range px py).
  nra.
Qed.

(** *** The pixel loop *)

(** The iteration space of the two nested loops, in the order the loops
    visit it. *)
Definition pixels : list (nat * nat) :=
  seq 0 size ≫= fun py => (fun px => (py, px)) <$> seq 0 size.

Definition alpha_index (p : nat * nat) : nat := (idx p.2 p.1 + 3)%nat.

Definition alpha_value (p : nat * nat) (src : Z) : Z :=
  to_uint8_clamped (Math_floor (IZR src * finalAlpha p.2 p.1)).

Lemma mask_row_flat (data : list Z) (py : nat) (l : list nat) :
  foldl (fun d px => mask_pixel d px py) data l =
    foldl (TypedArray.update_at alpha_index alpha_value) data
      ((fun px => (py, px)) <$> l).
Proof.
  revert data. induction l as [|px l IH]; intros d; simpl; [done|].
  by rewrite IH.
Qed.

Lemma mask_pixels_flat (data : list Z) :
  mask_pixels data =
    foldl (TypedArray.update_at alpha_index alpha_value) data pixels.
Proof.
  unfold mask_pixels, pixels.
  rewrite <- (TypedArray.foldl_bind_nested _
                (fun py => (fun px => (py, px)) <$> seq 0 size)).
  generalize (seq 0 size) at 1 3 as rows. intros rows. revert data.
  induction rows as [|py rows IH]; intros d; simpl; [done|].
  rewrite IH. f_equal. apply mask_row_flat.
Qed.

Lemma elem_of_pixels (py px : nat) :
  (py, px) ∈ pixels <-> (py < size)%nat /\ (px < size)%nat.
Proof.
  unfold pixels. rewrite list_elem_of_bind. split.
  - intros (py' & Hin & Hpy).
    apply list_elem_of_fmap in Hin as (px' & Heq & Hpx).
    inversion Heq; subst.
    apply elem_of_seq in Hpy. apply elem_of_seq in Hpx. lia.
  - intros [Hpy Hpx]. exists py. split.
    + apply list_elem_of_fmap. exists px. split; [done|].
      apply elem_of_seq. lia.
    + apply elem_of_seq. lia.
Qed.

Lemma alpha_index_inj (p q : nat * nat) :
  p ∈ pixels -> q ∈ pixels -> alpha_index p = alpha_index q -> p = q.
Proof.
  destruct p as [py px], q as [qy qx].
  rewrite !elem_of_pixels. unfold alpha_index, idx. simpl.
  intros [Hpy Hpx] [Hqy Hqx] Heq.
  assert (py * size + px = qy * size + qx)%nat as Heq' by lia.
  assert (py = qy) as -> by nia.
  f_equal. lia.
Qed.

Lemma NoDup_pixels : NoDup pixels.
Proof.
  unfold pixels. apply NoDup_bind.
  - intros py1 py2 p _ _ H1 H2.
    apply list_elem_of_fmap in H1 as (? & -> & _).
    apply list_elem_of_fmap in H2 as (? & Heq & _). by inversion Heq.
  - intros py _. apply NoDup_fmap_2; [|apply NoDup_seq].
    intros ? ? Heq. by inversion Heq.
  - apply NoDup_seq.
Qed.

Lemma mask_pixels_length (data : list Z) :
  length (mask_pixels data) = length data.
Proof. rewrite mask_pixels_flat. apply TypedArray.foldl_update_length. Qed.

(** The alpha byte of every pixel is read once, scaled and written back. *)
Lemma mask_pixels_alpha (data : list Z) (px py : nat) :
  (px < size)%nat -> (py < size)%nat ->
  length data = (size * size * 4)%nat ->
  mask_pixels data !! (idx px py + 3)%nat =
    Some (to_uint8_clamped
            (Math_floor (IZR (default 0%Z (data !! (idx px py + 3)%nat))
                         * finalAlpha px py))).
Proof.
  intros Hpx Hpy Hlen. rewrite mask_pixels_flat.
  apply (TypedArray.foldl_update_written alpha_index alpha_value pixels data (py, px)).
  - apply NoDup_fmap_2_strong; [|apply NoDup_pixels].
    intros p q. apply alpha_index_inj.
  - by apply elem_of_pixels.
  - unfold alpha_index, idx. simpl. rewrite Hlen. nia.
Qed.

(** The colour channels are never written. *)
Lemma mask_pixels_colour (data : list Z) (i c : nat) :
  (c < 3)%nat -> mask_pixels data !! (i * 4 + c)%nat = data !! (i * 4 + c)%nat.
Proof.
  intros Hc. rewrite mask_pixels_flat.
  apply TypedArray.foldl_update_untouched.
  intros [py px] _. unfold alpha_index, idx. simpl. lia.
Qed.

End createFadedTexture.

(** *** Bytes *)

Lemma Int_part_between (v : R) (n : Z) :
  0 <= v <= IZR n -> (0 <= Int_part v <= n)%Z.
Proof.
  intros [H0 Hn]. destruct (base_Int_part v) as [Hle Hgt]. split.
  - assert (IZR (-1) < IZR (Int_part v)) as Hlt by lra.
    apply lt_IZR in Hlt. lia.
  - apply le_IZR. lra.
Qed.

Lemma to_uint8_clamped_IZR (z : Z) :
  to_uint8_clamped (IZR z) = Z.max 0 (Z.min 255 z).
Proof.
  unfold to_uint8_clamped.
  assert (Int_part (IZR z) = z) as -> by (symmetry; apply Int_part_spec; lra).
  assert (ltb (IZR z - IZR z) 0.5 = true) as -> by (apply ltb_true; lra).
  reflexivity.
Qed.

Lemma to_uint8_clamped_floor (v : R) (n : Z) :
  is_byte n -> 0 <= v <= IZR n ->
  to_uint8_clamped (Math_floor v) = Int_part v.
Proof.
  intros [Hn0 Hn] Hv. unfold Math_floor. rewrite to_uint8_clamped_IZR.
  pose proof (Int_part_between v n Hv). lia.
Qed.

(** After the loop, the alpha byte of a pixel is the integer part of its
    source alpha scaled by the pixel's mask. *)
Lemma mask_pixels_alpha_byte (img_width img_height : R) (size : nat) (zoom : R)
    (data : list Z) (px py : nat) :
  (px < size)%nat -> (py < size)%nat ->
  length data = (size * size * 4)%nat -> Forall is_byte data ->
  exists src : Z,
    data !! (idx size px py + 3)%nat = Some src /\ is_byte src /\
    0 <= IZR src * finalAlpha img_width img_height size zoom px py <= IZR src /\
    mask_pixels img_width img_height size zoom data !! (idx size px py + 3)%nat =
      Some (Int_part (IZR src * finalAlpha img_width img_height size zoom px py)).
Proof.
  intros Hpx Hpy Hlen Hbytes.
  destruct (lookup_lt_is_Some_2 data (idx size px py + 3)) as [src Hsrc].
  { rewrite Hlen. unfold idx. nia. }
  assert (is_byte src) as Hb.
  { rewrite Forall_forall in Hbytes. apply Hbytes.
    apply list_elem_of_lookup. eauto. }
  pose proof (finalAlpha_range img_width img_height size zoom px py) as Hf.
  assert (0 <= IZR src) as Hs0 by (apply IZR_le; apply Hb).
  assert (0 <= IZR src * finalAlpha img_width img_height size zoom px py <= IZR src)
    as Hprod by nra.
  exists src. repeat split; try apply Hb; try apply Hprod; [done|].
  rewrite mask_pixels_alpha, Hsrc by done. simpl.
  f_equal. by apply (to_uint8_clamped_floor _ src).
Qed.

(** The circular mask of the specification, in its words: alpha is 1 if
    [ratio < 0.4], 0 if [ratio > 1], and otherwise [1 - t² (3 - 2 t)] with
    [t = (ratio - 0.4) / 0.6]. *)
Definition spec_circular_alpha (ratio : R) : R :=
  if Rlt_dec ratio 0.4 then 1
  else if Rgt_dec ratio 1 then 0
  else 1 - ((ratio - 0.4) / 0.6) ^ 2 * (3 - 2 * ((ratio - 0.4) / 0.6)).

Lemma circularAlpha_spec (r : R) : circularAlpha r = spec_circular_alpha r.
Proof.
  unfold spec_circular_alpha.
  destruct (Rlt_dec r 0.4) as [Hlo|Hlo]; [by apply circularAlpha_low|].
  destruct (Rgt_dec r 1) as [Hhi|Hhi]; [by apply circularAlpha_high|].
  rewrite circularAlpha_mid by lra. ring.
Qed.

Lemma circularAlpha_antitone (r1 r2 : R) :
  r1 <= r2 -> circularAlpha r2 <= circularAlpha r1.
Proof.
  intros Hle.
  pose proof (circularAlpha_range r1) as H1.
  pose proof (circularAlpha_range r2) as H2.
  destruct (Rlt_dec r2 0.4) as [Hlo|Hlo].
  { rewrite (circularAlpha_low r1), (circularAlpha_low r2) by lra. lra. }
  destruct (Rlt_dec 1 r1) as [Hhi|Hhi].
  { rewrite (circularAlpha_high r1), (circularAlpha_high r2) by lra. lra. }
  destruct (Rlt_dec r1 0.4) as [Hlo1|Hlo1].
  { rewrite (circularAlpha_low r1) by lra. lra. }
  destruct (Rlt_dec 1 r2) as [Hhi2|Hhi2].
  { rewrite (circularAlpha_high r2) by lra. lra. }
  apply circularAlpha_mono; lra.
Qed.

(** The ratio of a pixel, from its coordinates: its distance from the
    centre [(size / 2, size / 2)] over the radius [size / 2]. *)
Lemma ratio_coordinates (size px py : nat) :
  ratio size px py =
    sqrt ((INR px - INR size / 2) ^ 2 + (INR py - INR size / 2) ^ 2)
    / (INR size / 2).
Proof. reflexivity. Qed.

Lemma ratio_lt (size px py : nat) (k : R) :
  (0 < size)%nat -> 0 <= k ->
  (INR px - INR size / 2) ^ 2 + (INR py - INR size / 2) ^ 2
    < (k * (INR size / 2)) ^ 2 ->
  ratio size px py < k.
Proof.
  intros Hsize Hk Hd. rewrite ratio_coordinates.
  assert (0 < INR size / 2) as Hm
    by (apply lt_INR in Hsize; simpl in Hsize; lra).
  set (d2 := (INR px - INR size / 2) ^ 2 + (INR py - INR size / 2) ^ 2) in *.
  assert (0 <= d2) as Hd2
    by (unfold d2; apply Rplus_le_le_0_compat; apply pow2_ge_0).
  assert (sqrt d2 < k * (INR size / 2)) as Hs.
  { rewrite <- (sqrt_pow2 (k * (INR size / 2))) by nra.
    apply sqrt_lt_1_alt. lra. }
  apply (Rmult_lt_reg_r (INR size / 2)); [done|].
  replace (sqrt d2 / (INR size / 2) * (INR size / 2)) with (sqrt d2)
    by (field; lra).
  exact Hs.
Qed.

Lemma ratio_gt (size px py : nat) (k : R) :
  (0 < size)%nat -> 0 <= k ->
  (k * (INR size / 2)) ^ 2
    < (INR px - INR size / 2) ^ 2 + (INR py - INR size / 2) ^ 2 ->
  k < ratio size px py.
Proof.
  intros Hsize Hk Hd. rewrite ratio_coordinates.
  assert (0 < INR size / 2) as Hm
    by (apply lt_INR in Hsize; simpl in Hsize; lra).
  set (d2 := (INR px - INR size / 2) ^ 2 + (INR py - INR size / 2) ^ 2) in *.
  assert (k * (INR size / 2) < sqrt d2) as Hs.
  { rewrite <- (sqrt_pow2 (k * (INR size / 2))) by nra.
    apply sqrt_lt_1_alt. nra. }
  apply (Rmult_lt_reg_r (INR size / 2)); [done|].
  replace (sqrt d2 / (INR size / 2) * (INR size / 2)) with (sqrt d2)
    by (field; lra).
  exact Hs.
Qed.

Lemma ratio_le (size px py px' py' : nat) :
  (0 < size)%nat ->
  (INR px - INR size / 2) ^ 2 + (INR py - INR size / 2) ^ 2
    <= (INR px' - INR size / 2) ^ 2 + (INR py' - INR size / 2) ^ 2 ->
  ratio size px py <= ratio size px' py'.
Proof.
  intros Hsize Hd. rewrite !ratio_coordinates.
  assert (0 < INR size / 2) as Hm
    by (apply lt_INR in Hsize; simpl in Hsize; lra).
  apply Rmult_le_compat_r; [apply Rlt_le, Rinv_0_lt_compat, Hm|].
  apply sqrt_le_1_alt, Hd.
Qed.

(** C5. For every output pixel [(px, py)] of [createFadedTexture], the
    circular factor of its mask follows the piecewise law of the
    specification in [ratio = dist / (size / 2)], where [dist] is the
    distance of the pixel from the centre [(size / 2, size / 2)] of the
    canvas: 1 below 0.4, 0 above 1, and [1 - t² (3 - 2 t)] with
    [t = (ratio - 0.4) / 0.6] in between. So a pixel closer to the centre
    than 0.4 of the radius has factor 1, a pixel farther from it than the
    radius has factor 0, and of two pixels the one farther from the centre
    never has the larger factor; as a function of the ratio, the factor is
    1 for every ratio at most 0.4, is 0 for every ratio at least 1, and does
    not increase as the ratio grows from 0.4 to 1. *)
Theorem circular_mask_law (img_width img_height : R) (size : nat) (zoom : R)
    (px py : nat) :
  (px < size)%nat -> (py < size)%nat ->
  let radius := INR size / 2 in
  let d2 (x y : nat) := (INR x - INR size / 2) ^ 2 + (INR y - INR size / 2) ^ 2 in
  let factor (x y : nat) := circularAlpha (ratio size x y) in
  finalAlpha img_width img_height size zoom px py =
    factor px py * edgeAlpha img_width img_height size zoom px py /\
  factor px py = spec_circular_alpha (sqrt (d2 px py) / radius) /\
  (d2 px py < (0.4 * radius) ^ 2 -> factor px py = 1) /\
  (radius ^ 2 < d2 px py -> factor px py = 0) /\
  (forall px' py' : nat,
     d2 px py <= d2 px' py' -> factor px' py' <= factor px py) /\
  (forall ratio : R, ratio <= 0.4 -> circularAlpha ratio = 1) /\
  (forall ratio : R, 1 <= ratio -> circularAlpha ratio = 0) /\
  (forall r1 r2 : R,
     0.4 <= r1 -> r1 <= r2 -> r2 <= 1 -> circularAlpha r2 <= circularAlpha r1).
Proof.
  intros Hpx Hpy radius d2 factor.
  assert (0 < size)%nat as Hsize by lia.
  split; [reflexivity|].
  split; [unfold factor; rewrite circularAlpha_spec; reflexivity|].
  split; [|split; [|split; [|split; [|split]]]].
  - intros Hd. apply circularAlpha_low, ratio_lt; [done|lra|exact Hd].
  - intros Hd. apply circularAlpha_high, ratio_gt; [done|lra|].
    unfold radius in Hd. rewrite Rmult_1_l. exact Hd.
  - intros px' py' Hd. apply circularAlpha_antitone. by apply ratio_le.
  - intros r Hr. destruct (Rlt_dec r 0.4) as [Hlt|Hge].
    + by apply circularAlpha_low.
    + rewrite circularAlpha_mid by lra.
      replace r with 0.4 by lra. lra.
  - intros r Hr. destruct (Rlt_dec 1 r) as [Hlt|Hge].
    + by apply circularAlpha_high.
    + rewrite circularAlpha_mid by lra.
      replace r with 1 by lra. lra.
  - apply circularAlpha_mono.
Qed.

(** Arithmetic on the coordinates of a concrete pixel. *)
Ltac pixel_arith :=
  rewrite ?INR_IZR_INZ;
  repeat match goal with
         | |- context [Z.of_nat ?n] =>
             let z := eval cbv in (Z.of_nat n) in change (Z.of_nat n) with z
         end;
  simpl; lra.

Lemma circular_mask_law_witness :
  circularAlpha (ratio 200 100 100) = 1 /\
  circularAlpha (ratio 200 0 0) = 0 /\
  circularAlpha (ratio 200 100 10) <= circularAlpha (ratio 200 100 50).
Proof.
  destruct (circular_mask_law 200 200 200 1 100 100 ltac:(lia) ltac:(lia))
    as (_ & _ & Hcentre & _).
  destruct (circular_mask_law 200 200 200 1 0 0 ltac:(lia) ltac:(lia))
    as (_ & _ & _ & Hcorner & _).
  destruct (circular_mask_law 200 200 200 1 100 50 ltac:(lia) ltac:(lia))
    as (_ & _ & _ & _ & Hmono & _).
  split; [|split].
  - apply Hcentre. pixel_arith.
  - apply Hcorner. pixel_arith.
  - apply Hmono. pixel_arith.
Defined.

End TextureUtils.

(** ** Rounding to the nearest binary64 number

    The rounding of the binary64 operations, on real numbers: to a nearest
    multiple of the unit in the last place of the argument, ties to the even
    multiple. A number of magnitude at least [2^-1022] has 53 significant
    bits; below, the unit is [2^-1074]. The largest finite number is not
    modelled: no operation overflows. *)

Module Nearest.

(** A nearest integer, ties to the even one. *)
Definition nearest_even (a : R) : Z :=
  let f := Int_part a in
  let r := a - IZR f in
  if Rlt_dec r (1 / 2) then f
  else if Rlt_dec (1 / 2) r then (f + 1)%Z
  else if Z.even f then f else (f + 1)%Z.

(** The exponent [e] of the binade [2^e <= |a| < 2^(e+1)], and at least
    that of the smallest normal number. *)
Definition exponent (a : R) : Z :=
  Z.max (-1022) (Int_part (ln (Rabs a) / ln 2)).

Definition round_at (E : Z) (a : R) : R :=
  IZR (nearest_even (a / powerRZ 2 E)) * powerRZ 2 E.

Definition round64 (a : R) : R := round_at (exponent a - 52) a.

(** *** Integer parts *)

Lemma Int_part_of_IZR (m : Z) : Int_part (IZR m) = m.
Proof. symmetry. apply Int_part_spec. lra. Qed.

Lemma Int_part_le (a b : R) : a <= b -> (Int_part a <= Int_part b)%Z.
Proof.
  intros Hab. destruct (base_Int_part a) as [Ha _].
  destruct (base_Int_part b) as [_ Hb].
  assert (IZR (Int_part a) < IZR (Int_part b + 1)) as Hlt
    by (rewrite plus_IZR; lra).
  apply lt_IZR in Hlt. lia.
Qed.

Lemma Int_part_opp (a : R) :
  (a = IZR (Int_part a) /\ Int_part (- a) = (- Int_part a)%Z) \/
  (IZR (Int_part a) < a /\ Int_part (- a) = (- Int_part a - 1)%Z).
Proof.
  destruct (base_Int_part a) as [Hle Hgt].
  destruct (Req_dec_T a (IZR (Int_part a))) as [Heq|Hne].
  - left. split; [done|]. symmetry. apply Int_part_spec.
    rewrite opp_IZR. lra.
  - right. split; [lra|]. symmetry. apply Int_part_spec.
    rewrite minus_IZR, opp_IZR. lra.
Qed.

(** *** The nearest integer *)

Lemma nearest_even_error (a : R) : Rabs (IZR (nearest_even a) - a) <= 1 / 2.
Proof.
  unfold nearest_even. destruct (base_Int_part a) as [Hle Hgt].
  apply Rabs_le.
  destruct (Rlt_dec _ _) as [Hlo|Hlo]; [lra|].
  destruct (Rlt_dec _ _) as [Hhi|Hhi]; [rewrite plus_IZR; lra|].
  destruct (Z.even _); [lra|rewrite plus_IZR; lra].
Qed.

Lemma nearest_even_IZR (m : Z) : nearest_even (IZR m) = m.
Proof.
  unfold nearest_even. rewrite Int_part_of_IZR.
  destruct (Rlt_dec _ _) as [Hlo|Hlo]; [done|lra].
Qed.

Lemma nearest_even_mono (a b : R) :
  a <= b -> (nearest_even a <= nearest_even b)%Z.
Proof.
  intros Hab. pose proof (Int_part_le a b Hab) as Hf.
  unfold nearest_even.
  destruct (base_Int_part a) as [Hla Hga].
  destruct (base_Int_part b) as [Hlb Hgb].
  set (fa := Int_part a) in *. set (fb := Int_part b) in *.
  destruct (Z.eq_dec fa fb) as [Heq|Hne].
  - rewrite <- Heq in *. clear Heq.
    destruct (Rlt_dec (a - IZR fa) (1 / 2)), (Rlt_dec (1 / 2) (a - IZR fa)),
      (Rlt_dec (b - IZR fa) (1 / 2)), (Rlt_dec (1 / 2) (b - IZR fa)),
      (Z.even fa); try lia; lra.
  - destruct (Rlt_dec (a - IZR fa) (1 / 2)), (Rlt_dec (1 / 2) (a - IZR fa)),
      (Rlt_dec (b - IZR fb) (1 / 2)), (Rlt_dec (1 / 2) (b - IZR fb)),
      (Z.even fa), (Z.even fb); lia.
Qed.

Lemma nearest_even_opp (a : R) : nearest_even (- a) = (- nearest_even a)%Z.
Proof.
  unfold nearest_even. destruct (base_Int_part a) as [Hle Hgt].
  destruct (Int_part_opp a) as [[Heq ->]|[Hlt ->]].
  - rewrite opp_IZR.
    destruct (Rlt_dec (- a - - IZR (Int_part a)) (1 / 2)); [|lra].
    destruct (Rlt_dec (a - IZR (Int_part a)) (1 / 2)); [done|lra].
  - rewrite minus_IZR, opp_IZR.
    assert (Z.even (- Int_part a - 1) = negb (Z.even (Int_part a))) as Heven.
    { replace (- Int_part a - 1)%Z with (- (Int_part a + 1))%Z by lia.
      rewrite Z.even_opp, Z.add_1_r, Z.even_succ. symmetry. apply Z.negb_even. }
    rewrite Heven.
    destruct (Rlt_dec (- a - (- IZR (Int_part a) - 1)) (1 / 2)),
      (Rlt_dec (1 / 2) (- a - (- IZR (Int_part a) - 1))),
      (Rlt_dec (a - IZR (Int_part a)) (1 / 2)),
      (Rlt_dec (1 / 2) (a - IZR (Int_part a))),
      (Z.even (Int_part a)); simpl; try lia; lra.
Qed.

(** *** Powers of two *)

Lemma pow2_pos (e : Z) : 0 < powerRZ 2 e.
Proof. apply powerRZ_lt. lra. Qed.

Lemma pow2_add (a b : Z) : powerRZ 2 (a + b) = powerRZ 2 a * powerRZ 2 b.
Proof. apply powerRZ_add. lra. Qed.

Lemma pow2_IZR (k : Z) : (0 <= k)%Z -> powerRZ 2 k = IZR (2 ^ k).
Proof.
  intros Hk. rewrite <- (Z2Nat.id k) at 1 by done.
  rewrite <- pow_powerRZ, pow_IZR. by rewrite Z2Nat.id.
Qed.

Lemma pow2_ge_1 (k : Z) : (0 <= k)%Z -> 1 <= powerRZ 2 k.
Proof.
  intros Hk. rewrite pow2_IZR by done. apply IZR_le.
  pose proof (Z.pow_pos_nonneg 2 k). lia.
Qed.

Lemma pow2_le (a b : Z) : (a <= b)%Z -> powerRZ 2 a <= powerRZ 2 b.
Proof.
  intros Hab. replace b with (a + (b - a))%Z by lia. rewrite pow2_add.
  pose proof (pow2_pos a). pose proof (pow2_ge_1 (b - a) ltac:(lia)). nra.
Qed.

Lemma pow2_lt (a b : Z) : (a < b)%Z -> powerRZ 2 a < powerRZ 2 b.
Proof.
  intros Hab. replace b with (a + 1 + (b - a - 1))%Z by lia.
  rewrite !pow2_add. change (powerRZ 2 1) with (2 * 1).
  pose proof (pow2_pos a). pose proof (pow2_ge_1 (b - a - 1) ltac:(lia)). nra.
Qed.

Lemma pow2_exp (e : Z) : powerRZ 2 e = exp (IZR e * ln 2).
Proof. rewrite powerRZ_Rpower by lra. reflexivity. Qed.

Lemma ln2_pos : 0 < ln 2.
Proof. pose proof ln_lt_2. lra. Qed.

(** The binade of a number that is not 0. *)
Lemma binade (a : R) :
  a <> 0 ->
  let e := Int_part (ln (Rabs a) / ln 2) in
  powerRZ 2 e <= Rabs a < powerRZ 2 (e + 1).
Proof.
  intros Ha e. pose proof ln2_pos as Hln.
  pose proof (Rabs_pos_lt a Ha) as Hpos.
  destruct (base_Int_part (ln (Rabs a) / ln 2)) as [Hle Hgt]. fold e in Hle, Hgt.
  assert (ln (Rabs a) / ln 2 * ln 2 = ln (Rabs a)) as Hl by (field; lra).
  assert (Rabs a = exp (ln (Rabs a))) as HA by (symmetry; by apply exp_ln).
  rewrite !pow2_exp, plus_IZR. split.
  - rewrite HA.
    destruct (Req_dec_T (IZR e * ln 2) (ln (Rabs a))) as [->|Hne]; [lra|].
    apply Rlt_le, exp_increasing. nra.
  - rewrite HA. apply exp_increasing. nra.
Qed.

Lemma binade_unique (a : R) (e : Z) :
  powerRZ 2 e <= Rabs a < powerRZ 2 (e + 1) ->
  Int_part (ln (Rabs a) / ln 2) = e.
Proof.
  intros [Hlo Hhi].
  assert (a <> 0) as Ha.
  { intros ->. rewrite Rabs_R0 in Hlo. pose proof (pow2_pos e). lra. }
  destruct (binade a Ha) as [Hlo' Hhi'].
  set (e' := Int_part (ln (Rabs a) / ln 2)) in *.
  destruct (Z.lt_trichotomy e' e) as [Hlt|[Heq|Hgt]]; [|done|].
  - pose proof (pow2_le (e' + 1) e ltac:(lia)). lra.
  - pose proof (pow2_le (e + 1) e' ltac:(lia)). lra.
Qed.


(** *** Rounding to a multiple of [2^E] *)

Lemma round_at_error (E : Z) (a : R) :
  Rabs (round_at E a - a) <= powerRZ 2 E / 2.
Proof.
  unfold round_at. pose proof (pow2_pos E) as Hp.
  set (p := powerRZ 2 E) in *.
  pose proof (nearest_even_error (a / p)) as He.
  set (n := IZR (nearest_even (a / p))) in *.
  assert (a = a / p * p) as Ha by (field; lra).
  set (q := a / p) in *. rewrite Ha.
  unfold Rabs in He. apply Rabs_le.
  destruct (Rcase_abs (n - q)); split; nra.
Qed.

Lemma round_at_multiple (E m : Z) :
  round_at E (IZR m * powerRZ 2 E) = IZR m * powerRZ 2 E.
Proof.
  unfold round_at. pose proof (pow2_pos E) as Hp.
  replace (IZR m * powerRZ 2 E / powerRZ 2 E) with (IZR m) by (field; lra).
  by rewrite nearest_even_IZR.
Qed.

Lemma round_at_mono (E : Z) (a b : R) :
  a <= b -> round_at E a <= round_at E b.
Proof.
  intros Hab. unfold round_at. pose proof (pow2_pos E) as Hp.
  apply Rmult_le_compat_r; [lra|]. apply IZR_le, nearest_even_mono.
  apply Rmult_le_compat_r; [|done]. apply Rlt_le, Rinv_0_lt_compat, Hp.
Qed.

Lemma round_at_opp (E : Z) (a : R) : round_at E (- a) = - round_at E a.
Proof.
  unfold round_at.
  replace (- a / powerRZ 2 E) with (- (a / powerRZ 2 E))
    by (unfold Rdiv; ring).
  rewrite nearest_even_opp, opp_IZR. ring.
Qed.

(** *** The exponent *)

Lemma exponent_opp (a : R) : exponent (- a) = exponent a.
Proof. unfold exponent. by rewrite Rabs_Ropp. Qed.

Lemma exponent_above (a : R) :
  a <> 0 -> Rabs a < powerRZ 2 (exponent a + 1).
Proof.
  intros Ha. destruct (binade a Ha) as [_ Hhi]. unfold exponent.
  eapply Rlt_le_trans; [exact Hhi|]. apply pow2_le. lia.
Qed.

Lemma exponent_normal (a : R) :
  a <> 0 -> (-1022 < exponent a)%Z -> powerRZ 2 (exponent a) <= Rabs a.
Proof.
  intros Ha. destruct (binade a Ha) as [Hlo _]. unfold exponent.
  intros Hn. rewrite Z.max_r by lia. exact Hlo.
Qed.

Lemma exponent_mono (a b : R) :
  a <> 0 -> Rabs a <= Rabs b -> (exponent a <= exponent b)%Z.
Proof.
  intros Ha Hab. unfold exponent. apply Z.max_le_compat_l, Int_part_le.
  pose proof ln2_pos as Hln. pose proof (Rabs_pos_lt a Ha) as Hpos.
  apply Rmult_le_compat_r; [apply Rlt_le, Rinv_0_lt_compat, Hln|].
  destruct (Req_dec_T (Rabs a) (Rabs b)) as [->|Hne]; [lra|].
  apply Rlt_le, ln_increasing; lra.
Qed.

(** *** The rounding *)

Lemma round64_opp (a : R) : round64 (- a) = - round64 a.
Proof. unfold round64. by rewrite exponent_opp, round_at_opp. Qed.

Lemma round_at_0 (E : Z) : round_at E 0 = 0.
Proof.
  pose proof (round_at_multiple E 0) as H0. by rewrite Rmult_0_l in H0.
Qed.

Lemma round64_0 : round64 0 = 0.
Proof. apply round_at_0. Qed.

Lemma round64_nonneg (a : R) : 0 <= a -> 0 <= round64 a.
Proof.
  intros Ha. unfold round64. rewrite <- (round_at_0 (exponent a - 52)).
  by apply round_at_mono.
Qed.


Lemma round64_mono_pos (a b : R) : 0 < a -> a <= b -> round64 a <= round64 b.
Proof.
  intros Ha Hab.
  assert (a <> 0) as Ha0 by lra. assert (b <> 0) as Hb0 by lra.
  assert (Rabs a = a) as Haa by (apply Rabs_pos_eq; lra).
  assert (Rabs b = b) as Hbb by (apply Rabs_pos_eq; lra).
  pose proof (exponent_mono a b Ha0 ltac:(lra)) as He.
  destruct (Z.eq_dec (exponent a) (exponent b)) as [Heq|Hne].
  { unfold round64. rewrite Heq. by apply round_at_mono. }
  assert (-1022 <= exponent a)%Z as Hmin by (unfold exponent; lia).
  set (B := powerRZ 2 (exponent b)).
  assert (a <= B) as HaB.
  { pose proof (exponent_above a Ha0) as Hup.
    pose proof (pow2_le (exponent a + 1) (exponent b) ltac:(lia)).
    unfold B. lra. }
  assert (B <= b) as HBb.
  { pose proof (exponent_normal b Hb0 ltac:(lia)). unfold B. lra. }
  assert (round64 a <= B) as H1.
  { assert (B = IZR (2 ^ (exponent b - exponent a + 52))
                * powerRZ 2 (exponent a - 52)) as HB.
    { rewrite <- pow2_IZR by lia. rewrite <- pow2_add. unfold B.
      f_equal. lia. }
    rewrite HB, <- round_at_multiple, <- HB. by apply round_at_mono. }
  assert (B <= round64 b) as H2.
  { assert (B = IZR (2 ^ 52) * powerRZ 2 (exponent b - 52)) as HB.
    { rewrite <- pow2_IZR by lia. rewrite <- pow2_add. unfold B.
      f_equal. lia. }
    rewrite HB, <- round_at_multiple, <- HB. by apply round_at_mono. }
  lra.
Qed.

(** The rounding is monotone. *)
Lemma round64_mono (a b : R) : a <= b -> round64 a <= round64 b.
Proof.
  intros Hab.
  destruct (Rlt_dec 0 a) as [Ha|Ha]; [by apply round64_mono_pos|].
  destruct (Rlt_dec b 0) as [Hb|Hb].
  - pose proof (round64_mono_pos (- b) (- a) ltac:(lra) ltac:(lra)) as Hm.
    rewrite !round64_opp in Hm. lra.
  - pose proof (round64_nonneg b ltac:(lra)).
    pose proof (round64_nonneg (- a) ltac:(lra)) as Hn.
    rewrite round64_opp in Hn. lra.
Qed.

(** It leaves the integers up to [2^53] as they are. *)
Lemma round64_integer (n : Z) :
  (Z.abs n <= 2 ^ 53)%Z -> round64 (IZR n) = IZR n.
Proof.
  intros Hn. destruct (Z.eq_dec n 0%Z) as [->|Hn0]; [apply round64_0|].
  assert (IZR n <> 0) as Ha0 by (intros H0; by apply eq_IZR in H0).
  assert (Rabs (IZR n) = IZR (Z.abs n)) as Habs by apply Rabs_Zabs.
  assert (1 <= IZR (Z.abs n) <= IZR (2 ^ 53)) as [Hlo Hhi]
    by (split; apply IZR_le; lia).
  pose proof (exponent_above (IZR n) Ha0) as Hup. rewrite Habs in Hup.
  set (e := exponent (IZR n)) in *.
  assert (0 <= e)%Z as He0.
  { destruct (Z_le_gt_dec 0 e) as [|Hneg]; [done|].
    pose proof (pow2_le (e + 1) 0 ltac:(lia)) as Hp. simpl in Hp. lra. }
  assert (e <= 53)%Z as He53.
  { destruct (Z_le_gt_dec e 53) as [|Hbig]; [done|].
    pose proof (exponent_normal (IZR n) Ha0 ltac:(fold e; lia)) as Hp.
    fold e in Hp. rewrite Habs in Hp.
    pose proof (pow2_le 54 e ltac:(lia)) as Hq.
    rewrite (pow2_IZR 54) in Hq by lia.
    assert (IZR (2 ^ 53) < IZR (2 ^ 54)) by (apply IZR_lt; lia). lra. }
  unfold round64. fold e.
  destruct (Z_le_gt_dec e 52) as [Hsmall|Htop].
  - assert (IZR n = IZR (n * 2 ^ (52 - e)) * powerRZ 2 (e - 52)) as Hm.
    { rewrite mult_IZR, <- pow2_IZR by lia. rewrite Rmult_assoc, <- pow2_add.
      replace (52 - e + (e - 52))%Z with 0%Z by lia. simpl. lra. }
    rewrite Hm at 1. rewrite round_at_multiple. by rewrite <- Hm.
  - assert (e = 53)%Z as He by lia.
    pose proof (exponent_normal (IZR n) Ha0 ltac:(fold e; lia)) as Hp.
    fold e in Hp. rewrite He in Hp |- *.
    rewrite Habs, (pow2_IZR 53) in Hp by lia. apply le_IZR in Hp.
    assert (IZR n = IZR (n / 2) * powerRZ 2 (53 - 52)) as Hm.
    { change (powerRZ 2 (53 - 52)) with (2 * 1). rewrite Rmult_1_r.
      rewrite <- mult_IZR. f_equal.
      assert (n = 2 ^ 53 \/ n = - 2 ^ 53)%Z as [->| ->] by lia; reflexivity. }
    rewrite Hm at 1. rewrite round_at_multiple. by rewrite <- Hm.
Qed.

(** Its error is at most [2^-53] relative to the argument, or [2^-1075]. *)
Lemma round64_error (a : R) :
  Rabs (round64 a - a) <= / 2 ^ 53 * Rabs a + / 2 ^ 1075.
Proof.
  assert (0 < / 2 ^ 53) as Hu by (apply Rinv_0_lt_compat, pow_lt; lra).
  assert (0 < / 2 ^ 1075) as Heta by (apply Rinv_0_lt_compat, pow_lt; lra).
  destruct (Req_dec_T a 0) as [->|Ha0].
  { rewrite round64_0, Rminus_diag, Rabs_R0. lra. }
  pose proof (Rabs_pos a) as Hpos.
  pose proof (round_at_error (exponent a - 52) a) as He. fold (round64 a) in He.
  destruct (Z_le_gt_dec (exponent a) (-1022)) as [Hsub|Hnorm].
  - assert (exponent a = -1022)%Z as Hexp by (unfold exponent in *; lia).
    rewrite Hexp in He.
    assert (powerRZ 2 (-1022 - 52) / 2 = / 2 ^ 1075) as Hp.
    { change (-1022 - 52)%Z with (- Z.of_nat 1074)%Z.
      rewrite powerRZ_neg', <- pow_powerRZ.
      change (2 ^ 1075) with (2 * 2 ^ 1074).
      assert (0 < 2 ^ 1074) by (apply pow_lt; lra). field; lra. }
    rewrite Hp in He. nra.
  - pose proof (exponent_normal a Ha0 ltac:(lia)) as Hlo.
    assert (powerRZ 2 (exponent a - 52) / 2
            = / 2 ^ 53 * powerRZ 2 (exponent a)) as Hp.
    { replace (exponent a - 52)%Z with (exponent a + - Z.of_nat 52)%Z by lia.
      rewrite pow2_add, powerRZ_neg', <- pow_powerRZ.
      change (2 ^ 53) with (2 * 2 ^ 52).
      assert (0 < 2 ^ 52) by (apply pow_lt; lra). field; lra. }
    rewrite Hp in He.
    assert (/ 2 ^ 53 * powerRZ 2 (exponent a) <= / 2 ^ 53 * Rabs a)
      by (apply Rmult_le_compat_l; lra).
    lra.
Qed.

(** *** The binary64 numbers between 1/2 and 2 *)

Lemma nearest_even_near (a : R) (m : Z) :
  Rabs (a - IZR m) < 1 / 2 -> nearest_even a = m.
Proof.
  intros Ha. apply Rabs_def2 in Ha as [Hlt Hgt]. unfold nearest_even.
  destruct (Rle_dec (IZR m) a) as [Hle|Hnle].
  - assert (Int_part a = m) as ->
      by (symmetry; apply Int_part_spec; lra).
    destruct (Rlt_dec _ _); [done|lra].
  - assert (Int_part a = (m - 1)%Z) as ->
      by (symmetry; apply Int_part_spec; rewrite minus_IZR; lra).
    rewrite minus_IZR.
    destruct (Rlt_dec _ _); [lra|]. destruct (Rlt_dec _ _); [lia|lra].
Qed.

Lemma nearest_even_tie (m : Z) :
  Z.even m = true -> nearest_even (IZR m + 1 / 2) = m.
Proof.
  intros Hm. unfold nearest_even.
  assert (Int_part (IZR m + 1 / 2) = m) as ->
    by (symmetry; apply Int_part_spec; lra).
  destruct (Rlt_dec _ _); [lra|]. destruct (Rlt_dec _ _); [lra|].
  by rewrite Hm.
Qed.

Lemma round64_binade (a : R) (e : Z) :
  (-1022 <= e)%Z -> powerRZ 2 e <= Rabs a < powerRZ 2 (e + 1) ->
  round64 a = round_at (e - 52) a.
Proof.
  intros He Ha. unfold round64, exponent.
  rewrite (binade_unique a e Ha). f_equal. lia.
Qed.

(** The unit in the last place between 1/2 and 1. *)
Definition ulp_half : R := powerRZ 2 (-53).

Lemma ulp_half_value : 9007199254740992 * ulp_half = 1.
Proof.
  unfold ulp_half. change 9007199254740992 with (IZR (2 ^ 53)).
  rewrite <- pow2_IZR by lia. rewrite <- pow2_add. reflexivity.
Qed.

Lemma ulp_one : powerRZ 2 (-52) = 2 * ulp_half.
Proof.
  unfold ulp_half. change (-52)%Z with (1 + -53)%Z. rewrite pow2_add.
  simpl. lra.
Qed.

Lemma round64_half_one (a : R) :
  1 / 2 <= a < 1 -> round64 a = round_at (-53) a.
Proof.
  intros Ha. apply (round64_binade a (-1)); [lia|].
  rewrite Rabs_pos_eq by lra. simpl. lra.
Qed.

Lemma round64_one_two (a : R) :
  1 <= a < 2 -> round64 a = round_at (-52) a.
Proof.
  intros Ha. apply (round64_binade a 0); [lia|].
  rewrite Rabs_pos_eq by lra. simpl. lra.
Qed.

Lemma round64_1 : round64 1 = 1.
Proof. apply (round64_integer 1). lia. Qed.

Lemma round64_half : round64 (1 / 2) = 1 / 2.
Proof.
  rewrite round64_half_one by lra.
  assert (1 / 2 = IZR (2 ^ 52) * powerRZ 2 (-53)) as Hm.
  { pose proof ulp_half_value as Hv. unfold ulp_half in Hv.
    change (IZR (2 ^ 52)) with 4503599627370496. lra. }
  rewrite Hm at 1. rewrite round_at_multiple. by rewrite <- Hm.
Qed.

(** A rounded number between 1/2 and 1 is a multiple of [2^-53]. *)
Lemma round64_grid (q : R) :
  1 / 2 <= round64 q <= 1 -> exists k : Z, round64 q = IZR k * ulp_half.
Proof.
  intros [Hlo Hhi]. pose proof ulp_half_value as Hv.
  destruct (Rlt_dec q (1 / 2)) as [Hq|Hq].
  { pose proof (round64_mono q (1 / 2) ltac:(lra)) as Hm.
    rewrite round64_half in Hm. exists (2 ^ 52)%Z.
    change (IZR (2 ^ 52)) with 4503599627370496. lra. }
  destruct (Rlt_dec q 1) as [Hq1|Hq1].
  { rewrite round64_half_one by lra. unfold round_at. by eexists. }
  pose proof (round64_mono 1 q ltac:(lra)) as Hm. rewrite round64_1 in Hm.
  exists (2 ^ 53)%Z. change (IZR (2 ^ 53)) with 9007199254740992. lra.
Qed.

(** Between 1 and 2 a multiple of [2^-52] is rounded to itself. *)
Lemma round64_even_multiple (k : Z) :
  1 <= IZR k * (2 * ulp_half) <= 2 ->
  round64 (IZR k * (2 * ulp_half)) = IZR k * (2 * ulp_half).
Proof.
  intros [Hlo Hhi].
  destruct (Req_dec_T (IZR k * (2 * ulp_half)) 2) as [->|Hne].
  { apply (round64_integer 2). lia. }
  rewrite round64_one_two by lra. rewrite <- ulp_one.
  apply round_at_multiple.
Qed.

(** Between 1/2 and 1 the error is at most half of [2^-53]. *)
Lemma round64_half_one_error (a : R) :
  1 / 2 <= a <= 1 -> round64 a <= a + ulp_half / 2.
Proof.
  intros [Hlo Hhi]. pose proof (pow2_pos (-53)) as Hp. fold ulp_half in Hp.
  destruct (Req_dec_T a 1) as [->|Hne]; [rewrite round64_1; lra|].
  rewrite round64_half_one by lra.
  pose proof (round_at_error (-53) a) as He. fold ulp_half in He.
  unfold Rabs in He. destruct (Rcase_abs _); lra.
Qed.

(** Half way between 1 and the next number, the tie goes to 1. *)
Lemma round64_tie_at_1 : round64 (1 + ulp_half) = 1.
Proof.
  pose proof ulp_half_value as Hv.
  pose proof (pow2_pos (-53)) as Hp. fold ulp_half in Hp.
  rewrite round64_one_two by lra. unfold round_at. rewrite ulp_one.
  replace ((1 + ulp_half) / (2 * ulp_half)) with (IZR (2 ^ 52) + 1 / 2).
  - rewrite nearest_even_tie by reflexivity.
    change (IZR (2 ^ 52)) with 4503599627370496. lra.
  - change (IZR (2 ^ 52)) with 4503599627370496.
    apply (Rmult_eq_reg_r (2 * ulp_half)); [|lra]. field_simplify; lra.
Qed.

(** The smoothstep polynomial as the code evaluates it, at a binary64
    number [t] just below 1, or 1: [2 * t] and [3 - 2 * t] are exact, the
    error of [t * t] is at most [2^-54], and the product is rounded to 1 at
    most. *)
Lemma round64_smoothstep_near (t : R) (k : Z) :
  t = IZR k * ulp_half -> 3 / 4 <= t <= 1 ->
  round64 (round64 (t * t) * round64 (3 - round64 (2 * t))) <= 1.
Proof.
  intros Hk [Hlo Hhi]. pose proof ulp_half_value as Hv.
  pose proof (pow2_pos (-53)) as Hp. fold ulp_half in Hp.
  assert (round64 (2 * t) = 2 * t) as ->.
  { replace (2 * t) with (IZR k * (2 * ulp_half)) by lra.
    apply round64_even_multiple. lra. }
  assert (round64 (3 - 2 * t) = 3 - 2 * t) as ->.
  { replace (3 - 2 * t) with (IZR (3 * 2 ^ 52 - k) * (2 * ulp_half)).
    - apply round64_even_multiple. rewrite minus_IZR, mult_IZR.
      change (IZR (2 ^ 52)) with 4503599627370496. lra.
    - rewrite minus_IZR, mult_IZR.
      change (IZR (2 ^ 52)) with 4503599627370496. lra. }
  assert (1 / 2 <= t * t <= 1) as Htt by nra.
  pose proof (round64_half_one_error (t * t) Htt) as Ha.
  pose proof (round64_nonneg (t * t) ltac:(lra)) as Ha0.
  set (a := round64 (t * t)) in *.
  assert (a * (3 - 2 * t) <= 1 + ulp_half) as Hprod.
  { assert (a * (3 - 2 * t) <= (t * t + ulp_half / 2) * (3 - 2 * t)) as H1
      by (apply Rmult_le_compat_r; lra).
    assert (0 <= (1 - t) * (1 - t) * (1 + 2 * t)) as Hsq
      by (apply Rmult_le_pos; [apply (Rle_0_sqr (1 - t))|lra]).
    assert (ulp_half / 2 * (3 - 2 * t) <= ulp_half) as H2 by nra.
    lra. }
  rewrite <- round64_tie_at_1. by apply round64_mono.
Qed.

(** The literals of the circular fade: [1 - 0.4] is [0.6] once rounded. *)
Lemma round64_fade_literals : round64 (1 - round64 (0.4)) = round64 (0.6).
Proof.
  pose proof ulp_half_value as Hv.
  pose proof (pow2_pos (-53)) as Hp. fold ulp_half in Hp.
  assert (powerRZ 2 (-54) = ulp_half / 2) as H54.
  { unfold ulp_half. change (-53)%Z with (1 + -54)%Z. rewrite pow2_add.
    simpl. lra. }
  assert (round64 0.4 = 3602879701896397 * ulp_half) as ->.
  { rewrite (round64_binade 0.4 (-2)); [|lia|].
    - unfold round_at. change (-2 - 52)%Z with (-54)%Z. rewrite H54.
      rewrite (nearest_even_near _ 7205759403792794).
      + lra.
      + replace (0.4 / (ulp_half / 2)) with (0.8 * 9007199254740992).
        * apply Rabs_def1; lra.
        * apply (Rmult_eq_reg_r (ulp_half / 2)); [|lra]. field_simplify; lra.
    - rewrite Rabs_pos_eq by lra. simpl. lra. }
  assert (1 - 3602879701896397 * ulp_half = IZR 5404319552844595 * ulp_half)
    as -> by lra.
  assert (round64 (IZR 5404319552844595 * ulp_half)
          = IZR 5404319552844595 * ulp_half) as ->.
  { rewrite round64_half_one by lra. apply round_at_multiple. }
  rewrite round64_half_one by lra. unfold round_at. fold ulp_half.
  rewrite (nearest_even_near _ 5404319552844595); [done|].
  replace (0.6 / ulp_half) with (0.6 * 9007199254740992).
  - apply Rabs_def1; lra.
  - apply (Rmult_eq_reg_r ulp_half); [|lra]. field_simplify; lra.
Qed.

Lemma nearest_even_tie_up (m : Z) :
  Z.even m = false -> nearest_even (IZR m + 1 / 2) = (m + 1)%Z.
Proof.
  intros Hm. unfold nearest_even.
  assert (Int_part (IZR m + 1 / 2) = m) as ->
    by (symmetry; apply Int_part_spec; lra).
  destruct (Rlt_dec _ _); [lra|]. destruct (Rlt_dec _ _); [lra|].
  by rewrite Hm.
Qed.

(** The rounding of a positive number in a known binade: [a * 2^(52 - e)]
    is between [2^52] and [2^53], and is rounded to the integer [m]. *)
Lemma round64_scaled (a : R) (e m : Z) :
  (-1022 <= e <= 52)%Z ->
  IZR (2 ^ 52) <= a * IZR (2 ^ (52 - e)) < IZR (2 ^ 53) ->
  nearest_even (a * IZR (2 ^ (52 - e))) = m ->
  round64 a = IZR m / IZR (2 ^ (52 - e)).
Proof.
  intros He [Hlo Hhi] Hm.
  pose proof (pow2_pos (e - 52)) as Hp. pose proof (pow2_pos (52 - e)) as HD.
  assert (powerRZ 2 (52 - e) * powerRZ 2 (e - 52) = 1) as Hinv.
  { rewrite <- pow2_add. by replace (52 - e + (e - 52))%Z with 0%Z by lia. }
  assert (powerRZ 2 e = powerRZ 2 52 * powerRZ 2 (e - 52)) as He0
    by (rewrite <- pow2_add; f_equal; lia).
  assert (powerRZ 2 (e + 1) = powerRZ 2 53 * powerRZ 2 (e - 52)) as He1
    by (rewrite <- pow2_add; f_equal; lia).
  rewrite <- !pow2_IZR in * by lia.
  set (D := powerRZ 2 (52 - e)) in *. set (p := powerRZ 2 (e - 52)) in *.
  assert (a / p = a * D) as Hq.
  { apply (Rmult_eq_reg_r p); [|lra].
    replace (a / p * p) with a by (field; lra).
    rewrite Rmult_assoc, Hinv. lra. }
  assert (0 < a) as Ha.
  { pose proof (pow2_pos 52). apply (Rmult_lt_reg_r D); [done|]. lra. }
  rewrite (round64_binade a e); [|lia|].
  - unfold round_at. fold p. rewrite Hq, Hm.
    apply (Rmult_eq_reg_r D); [|lra].
    replace (IZR m / D * D) with (IZR m) by (field; lra).
    rewrite Rmult_assoc, (Rmult_comm p D), Hinv. lra.
  - rewrite Rabs_pos_eq by lra. rewrite He0, He1.
    assert (a = a * D * p) as Ha' by (rewrite Rmult_assoc, Hinv; lra).
    rewrite Ha'. split.
    + apply Rmult_le_compat_r; lra.
    + apply Rmult_lt_compat_r; lra.
Qed.

(** The same, for a number within 1/2 of [m] once scaled. *)
Lemma round64_value (a : R) (e m : Z) :
  (-1022 <= e <= 52)%Z ->
  IZR (2 ^ 52) <= a * IZR (2 ^ (52 - e)) < IZR (2 ^ 53) ->
  Rabs (a * IZR (2 ^ (52 - e)) - IZR m) < 1 / 2 ->
  round64 a = IZR m / IZR (2 ^ (52 - e)).
Proof.
  intros He Ha Hm. apply round64_scaled; [done|done|].
  by apply nearest_even_near.
Qed.

(** The same, for a number half way between the odd [m - 1] and [m]. *)
Lemma round64_tie (a : R) (e m : Z) :
  (-1022 <= e <= 52)%Z ->
  IZR (2 ^ 52) <= a * IZR (2 ^ (52 - e)) < IZR (2 ^ 53) ->
  Z.even m = true -> a * IZR (2 ^ (52 - e)) = IZR (m - 1) + 1 / 2 ->
  round64 a = IZR m / IZR (2 ^ (52 - e)).
Proof.
  intros He Ha Hm Hhalf. apply round64_scaled; [done|done|].
  rewrite Hhalf, nearest_even_tie_up.
  - lia.
  - replace (m - 1)%Z with (Z.pred m) by lia.
    rewrite Z.even_pred. rewrite <- Z.negb_even. by rewrite Hm.
Qed.

End Nearest.

(** ** [vision-board/texture-utils.ts] in rounded arithmetic

    The same function with every arithmetic operation followed by a
    rounding, as the binary64 operations of JavaScript are: the real
    result, rounded. Of the rounding the standard model is assumed: it is
    monotone, it leaves the integers up to [2^53] as they are, and its
    error is at most [u * |x| + eta]. For binary64, rounding to nearest,
    [u] is [2^-53] and [eta] is [2^-1075]; exact arithmetic is the rounding
    that does nothing, with [u = eta = 0]. Overflow is outside the model:
    the statements are for inputs that cause none. The exponentiation
    operator [**], whose precision the language leaves to the engine, is a
    parameter of the arithmetic; nothing proved here depends on it. *)

Module Rounded.
Import JsMath.

Class Arithmetic := {
  rnd : R -> R;
  u : R;
  eta : R;
  js_pow : R -> nat -> R;
  u_range : 0 <= u <= / 2 ^ 20;
  eta_range : 0 <= eta <= / 2 ^ 20;
  rnd_mono : forall x y : R, x <= y -> rnd x <= rnd y;
  rnd_error : forall x : R, Rabs (rnd x - x) <= u * Rabs x + eta;
  rnd_integer : forall n : Z, (Z.abs n <= 2 ^ 53)%Z -> rnd (IZR n) = IZR n;
}.

Section operations.
Context `{Arithmetic}.

Definition add (a b : R) : R := rnd (a + b).
Definition sub (a b : R) : R := rnd (a - b).
Definition mul (a b : R) : R := rnd (a * b).
Definition div (a b : R) : R := rnd (a / b).

(** [Math.sqrt] is the square root, rounded. *)
Definition Math_sqrt (x : R) : R := rnd (sqrt x).

End operations.

#[local] Infix "⊕" := add (at level 50, left associativity).
#[local] Infix "⊖" := sub (at level 50, left associativity).
#[local] Infix "⊗" := mul (at level 40, left associativity).
#[local] Infix "⊘" := div (at level 40, left associativity).

Section createFadedTexture.
Context `{Arithmetic}.
Variables (img_width img_height : R) (size : nat) (zoom : R).

Definition baseScale : R := INR size ⊘ Math_min img_width img_height.
Definition scale : R := baseScale ⊗ zoom.
Definition w : R := img_width ⊗ scale.
Definition h : R := img_height ⊗ scale.
Definition x : R := (INR size ⊖ w) ⊘ 2.
Definition y : R := (INR size ⊖ h) ⊘ 2.

(** The rectangle the image is drawn in: [ctx.drawImage(img, x, y, w, h)]. *)
Definition drawn : R * R * R * R := (x, y, w, h).

Definition centerX : R := INR size ⊘ 2.
Definition centerY : R := INR size ⊘ 2.
Definition maxRadius : R := INR size ⊘ 2.

Definition imgLeft : R := x.
Definition imgRight : R := x ⊕ w.
Definition imgTop : R := y.
Definition imgBottom : R := y ⊕ h.
Definition featherSize : R := INR size ⊗ rnd 0.08.

Definition dist (px py : nat) : R :=
  Math_sqrt (js_pow (INR px ⊖ centerX) 2 ⊕ js_pow (INR py ⊖ centerY) 2).

Definition ratio (px py : nat) : R := dist px py ⊘ maxRadius.

Definition circularAlpha (ratio : R) : R :=
  if ltb ratio (rnd 0.4) then 1
  else if gtb ratio 1 then 0
  else
    let t := (ratio ⊖ rnd 0.4) ⊘ rnd 0.6 in
    1 ⊖ t ⊗ t ⊗ (3 ⊖ 2 ⊗ t).

Definition minEdgeDist (px py : nat) : R :=
  let fromLeft := INR px ⊖ imgLeft in
  let fromRight := imgRight ⊖ INR px in
  let fromTop := INR py ⊖ imgTop in
  let fromBottom := imgBottom ⊖ INR py in
  Math_min4 fromLeft fromRight fromTop fromBottom.

Definition edgeAlpha (px py : nat) : R :=
  if gtb featherSize 0 then
    let minEdgeDist := minEdgeDist px py in
    if ltb minEdgeDist 0 then 0
    else if ltb minEdgeDist featherSize then
      let t := minEdgeDist ⊘ featherSize in
      t ⊗ t ⊗ (3 ⊖ 2 ⊗ t)
    else 1
  else 1.

Definition finalAlpha (px py : nat) : R :=
  circularAlpha (ratio px py) ⊗ edgeAlpha px py.

(** The body of the inner loop: [data[idx + 3] = Math.floor((data[idx + 3]
    ?? 0) * finalAlpha)], stored in a [Uint8ClampedArray]. *)
Definition mask_pixel (data : list Z) (px py : nat) : list Z :=
  let i := TextureUtils.idx size px py in
  <[(i + 3)%nat :=
      TextureUtils.to_uint8_clamped
        (Math_floor (IZR (default 0%Z (data !! (i + 3)%nat)) ⊗ finalAlpha px py))]>
    data.

Definition mask_row (data : list Z) (py : nat) : list Z :=
  foldl (fun d px => mask_pixel d px py) data (seq 0 size).

Definition mask_pixels (data : list Z) : list Z :=
  foldl mask_row data (seq 0 size).

End createFadedTexture.

(** *** What the error model gives *)

Section bounds.
Context `{Arithmetic}.

(** The two error terms together. *)
Definition slack : R := u + eta.

Lemma slack_range : 0 <= slack <= / 2 ^ 19.
Proof.
  unfold slack. pose proof u_range. pose proof eta_range.
  assert (/ 2 ^ 19 = 2 * / 2 ^ 20) as -> by (simpl; lra). lra.
Qed.

Lemma slack_small : 0 <= slack <= / 500000.
Proof. pose proof slack_range as Hs. simpl in Hs. lra. Qed.

Lemma rnd_0 : rnd 0 = 0.
Proof. apply (rnd_integer 0). lia. Qed.

Lemma rnd_1 : rnd 1 = 1.
Proof. apply (rnd_integer 1). lia. Qed.

Lemma rnd_nonneg (a : R) : 0 <= a -> 0 <= rnd a.
Proof. intros Ha. rewrite <- rnd_0. by apply rnd_mono. Qed.

Lemma rnd_le_1 (a : R) : a <= 1 -> rnd a <= 1.
Proof. intros Ha. rewrite <- rnd_1. by apply rnd_mono. Qed.

Lemma rnd_within (a bound : R) :
  - bound <= a <= bound ->
  a - (u * bound + eta) <= rnd a <= a + (u * bound + eta).
Proof.
  intros Ha. pose proof (rnd_error a) as He. pose proof u_range as Hu.
  assert (Rabs a <= bound) as Hb
    by (unfold Rabs; destruct (Rcase_abs a); lra).
  assert (u * Rabs a <= u * bound) as Hm by (apply Rmult_le_compat_l; lra).
  unfold Rabs in He at 1. destruct (Rcase_abs (rnd a - a)); lra.
Qed.

Lemma rnd_near (a : R) :
  -4 <= a <= 4 -> a - 5 * slack <= rnd a <= a + 5 * slack.
Proof.
  intros Ha. pose proof (rnd_within a 4 Ha).
  pose proof u_range. pose proof eta_range. unfold slack. lra.
Qed.

(** The smoothstep polynomial as the code evaluates it. *)
Lemma smoothstep_rounded (t : R) :
  0 <= t <= 1 + 35 * slack ->
  0 <= t ⊗ t ⊗ (3 ⊖ 2 ⊗ t) <= 1 + 45 * slack.
Proof.
  intros [Ht0 Ht1]. pose proof slack_small as [He0 He1].
  unfold mul, sub.
  assert (0 <= t * t <= 4) as Htt by nra.
  pose proof (rnd_near (t * t) ltac:(lra)) as Ha.
  pose proof (rnd_nonneg (t * t) ltac:(lra)) as Ha0.
  pose proof (rnd_near (2 * t) ltac:(lra)) as Hm.
  set (a := rnd (t * t)) in *. set (m := rnd (2 * t)) in *.
  pose proof (rnd_near (3 - m) ltac:(lra)) as Hb.
  pose proof (rnd_nonneg (3 - m) ltac:(lra)) as Hb0.
  set (b := rnd (3 - m)) in *.
  assert (t * t * (3 - 2 * t) <= 1) as Hpoly.
  { assert (0 <= (1 - t) * (1 - t) * (1 + 2 * t)) as Hsq
      by (apply Rmult_le_pos; [apply (Rle_0_sqr (1 - t))|lra]).
    lra. }
  assert (a <= 2) as Ha2 by nra.
  assert (b <= 3 - 2 * t + 10 * slack) as Hb1 by lra.
  assert (a * b <= a * (3 - 2 * t + 10 * slack)) as H1
    by (apply Rmult_le_compat_l; lra).
  assert (a * (3 - 2 * t + 10 * slack)
          <= (t * t + 5 * slack) * (3 - 2 * t + 10 * slack)) as H2
    by (apply Rmult_le_compat_r; lra).
  assert ((t * t + 5 * slack) * (3 - 2 * t + 10 * slack) <= 1 + 40 * slack)
    as H3 by nra.
  assert (0 <= a * b) as Hab0 by (apply Rmult_le_pos; lra).
  pose proof (rnd_near (a * b) ltac:(lra)) as Hs.
  pose proof (rnd_nonneg (a * b) Hab0). lra.
Qed.

(** Away from 1 the rounded polynomial is below 1. *)
Lemma smoothstep_far (t : R) :
  0 <= t <= 3 / 4 -> t ⊗ t ⊗ (3 ⊖ 2 ⊗ t) <= 1.
Proof.
  intros [Ht0 Ht1]. pose proof slack_small as [He0 He1].
  unfold mul, sub.
  assert (0 <= t * t <= 9 / 16) as Htt by nra.
  pose proof (rnd_near (t * t) ltac:(lra)) as Ha.
  pose proof (rnd_nonneg (t * t) ltac:(lra)) as Ha0.
  pose proof (rnd_near (2 * t) ltac:(lra)) as Hm.
  set (a := rnd (t * t)) in *. set (m := rnd (2 * t)) in *.
  pose proof (rnd_near (3 - m) ltac:(lra)) as Hb.
  pose proof (rnd_nonneg (3 - m) ltac:(lra)) as Hb0.
  set (b := rnd (3 - m)) in *.
  assert (t * t * (3 - 2 * t) <= 27 / 32) as Hpoly.
  { assert (0 <= (3 / 4 - t) * (9 / 8 + 3 / 2 * t - 2 * (t * t)
                                + 2 * (3 / 4 - t) * (3 / 4 - t))) as Hsq
      by (apply Rmult_le_pos; nra).
    nra. }
  assert (a * b <= a * (3 - 2 * t + 10 * slack)) as H1
    by (apply Rmult_le_compat_l; lra).
  assert (a * (3 - 2 * t + 10 * slack)
          <= (t * t + 5 * slack) * (3 - 2 * t + 10 * slack)) as H2
    by (apply Rmult_le_compat_r; lra).
  assert ((t * t + 5 * slack) * (3 - 2 * t + 10 * slack)
          <= 27 / 32 + 40 * slack) as H3 by nra.
  assert (0 <= a * b) as Hab0 by (apply Rmult_le_pos; lra).
  pose proof (rnd_near (a * b) ltac:(lra)) as Hs. lra.
Qed.

(** The parameter of the circular fade, for a ratio between the two
    thresholds. *)
Lemma fade_parameter (ratio : R) :
  rnd 0.4 <= ratio <= 1 ->
  0 <= (ratio ⊖ rnd 0.4) ⊘ rnd 0.6 <= 1 + 35 * slack.
Proof.
  intros [Hlo Hhi]. pose proof slack_small as [He0 He1].
  unfold sub, div.
  pose proof (rnd_near 0.4 ltac:(lra)) as Hk4.
  pose proof (rnd_near 0.6 ltac:(lra)) as Hk6.
  set (k4 := rnd 0.4) in *. set (k6 := rnd 0.6) in *.
  pose proof (rnd_near (ratio - k4) ltac:(lra)) as Hr.
  pose proof (rnd_nonneg (ratio - k4) ltac:(lra)) as Hr0.
  set (r := rnd (ratio - k4)) in *.
  assert (0 < k6) as Hk6pos by lra.
  assert (0 <= r / k6) as Hq0.
  { apply Rmult_le_pos; [done|]. apply Rlt_le, Rinv_0_lt_compat, Hk6pos. }
  assert (r / k6 <= 1 + 30 * slack) as Hq1.
  { apply (Rmult_le_reg_r k6); [done|].
    replace (r / k6 * k6) with r by (field; lra). nra. }
  pose proof (rnd_near (r / k6) ltac:(lra)) as Hq.
  pose proof (rnd_nonneg (r / k6) Hq0). lra.
Qed.


Lemma circularAlpha_bounds (ratio : R) :
  - 64 * slack <= circularAlpha ratio <= 1.
Proof.
  pose proof slack_small as [He0 He1]. unfold circularAlpha.
  destruct (ltb ratio (rnd 0.4)) eqn:Hlo; [lra|].
  destruct (gtb ratio 1) eqn:Hhi; [lra|].
  apply ltb_false in Hlo. apply gtb_false in Hhi.
  pose proof (fade_parameter ratio ltac:(lra)) as Ht.
  set (t := (ratio ⊖ rnd 0.4) ⊘ rnd 0.6) in *.
  pose proof (smoothstep_rounded t Ht) as Hs.
  set (s := t ⊗ t ⊗ (3 ⊖ 2 ⊗ t)) in *.
  change (1 ⊖ s) with (rnd (1 - s)).
  pose proof (rnd_near (1 - s) ltac:(lra)).
  pose proof (rnd_le_1 (1 - s) ltac:(lra)). lra.
Qed.

Lemma circularAlpha_nonneg_outside (ratio : R) :
  ratio < rnd 0.4 \/ 1 < ratio -> 0 <= circularAlpha ratio.
Proof.
  unfold circularAlpha. intros [Hlo|Hhi].
  - apply ltb_true in Hlo. rewrite Hlo. lra.
  - destruct (ltb ratio (rnd 0.4)); [lra|].
    apply gtb_true in Hhi. rewrite Hhi. lra.
Qed.

Section pixel.
Variables (img_width img_height : R) (size : nat) (zoom : R).

Lemma rounded_featherSize_pos : (0 < size)%nat -> 0 < featherSize size.
Proof.
  intros Hsize. pose proof slack_small as [He0 He1].
  pose proof u_range as Hu. pose proof eta_range as Heta.
  assert (1 <= INR size) as Hs.
  { assert (1 <= size)%nat as Hle by lia. apply le_INR in Hle.
    simpl in Hle. lra. }
  unfold featherSize, mul.
  pose proof (rnd_near 0.08 ltac:(lra)) as Hk. set (k := rnd 0.08) in *.
  assert (0 < INR size * k) as Hprod by nra.
  pose proof (rnd_within (INR size * k) (INR size * k) ltac:(lra)) as Hr.
  assert (u * (INR size * k) <= / 2 ^ 20 * (INR size * k)) as Hm
    by (apply Rmult_le_compat_r; lra).
  simpl in Hm, Heta. nra.
Qed.

Lemma rounded_edgeAlpha_outside (px py : nat) :
  (0 < size)%nat -> minEdgeDist img_width img_height size zoom px py < 0 ->
  edgeAlpha img_width img_height size zoom px py = 0.
Proof.
  intros Hsize Hd. unfold edgeAlpha.
  assert (gtb (featherSize size) 0 = true) as ->
    by (apply gtb_true, rounded_featherSize_pos, Hsize).
  apply ltb_true in Hd. by rewrite Hd.
Qed.

Lemma rounded_edgeAlpha_feather (px py : nat) :
  (0 < size)%nat ->
  0 <= minEdgeDist img_width img_height size zoom px py < featherSize size ->
  edgeAlpha img_width img_height size zoom px py =
    let t := minEdgeDist img_width img_height size zoom px py ⊘ featherSize size in
    t ⊗ t ⊗ (3 ⊖ 2 ⊗ t).
Proof.
  intros Hsize [Hd0 Hd1]. unfold edgeAlpha.
  assert (gtb (featherSize size) 0 = true) as ->
    by (apply gtb_true, rounded_featherSize_pos, Hsize).
  assert (ltb (minEdgeDist img_width img_height size zoom px py) 0 = false)
    as -> by (by apply ltb_false).
  apply ltb_true in Hd1. by rewrite Hd1.
Qed.

Lemma rounded_edgeAlpha_inside (px py : nat) :
  (0 < size)%nat ->
  featherSize size <= minEdgeDist img_width img_height size zoom px py ->
  edgeAlpha img_width img_height size zoom px py = 1.
Proof.
  intros Hsize Hd. unfold edgeAlpha.
  pose proof (rounded_featherSize_pos Hsize) as Hf.
  assert (gtb (featherSize size) 0 = true) as -> by (by apply gtb_true).
  assert (ltb (minEdgeDist img_width img_height size zoom px py) 0 = false)
    as -> by (apply ltb_false; lra).
  assert (ltb (minEdgeDist img_width img_height size zoom px py)
              (featherSize size) = false) as -> by (by apply ltb_false).
  reflexivity.
Qed.

Lemma edgeAlpha_bounds (px py : nat) :
  0 <= edgeAlpha img_width img_height size zoom px py <= 1 + 64 * slack.
Proof.
  pose proof slack_small as [He0 He1]. unfold edgeAlpha.
  destruct (gtb (featherSize size) 0) eqn:Hf; [|lra].
  apply gtb_true in Hf.
  set (d := minEdgeDist img_width img_height size zoom px py).
  destruct (ltb d 0) eqn:Hd0; [lra|].
  destruct (ltb d (featherSize size)) eqn:Hd1; [|lra].
  apply ltb_false in Hd0. apply ltb_true in Hd1.
  assert (0 <= d / featherSize size <= 1) as [Hq0 Hq1].
  { split.
    - apply Rmult_le_pos; [done|]. apply Rlt_le, Rinv_0_lt_compat, Hf.
    - apply (Rmult_le_reg_r (featherSize size)); [done|].
      replace (d / featherSize size * featherSize size) with d
        by (field; lra).
      lra. }
  assert (0 <= d ⊘ featherSize size <= 1 + 35 * slack) as Ht.
  { unfold div. pose proof (rnd_nonneg _ Hq0). pose proof (rnd_le_1 _ Hq1).
    lra. }
  pose proof (smoothstep_rounded _ Ht). simpl. lra.
Qed.

(** The mask of a pixel, and the product the code floors. *)
Lemma finalAlpha_bounds (px py : nat) :
  - 70 * slack <= finalAlpha img_width img_height size zoom px py
    <= 1 + 70 * slack.
Proof.
  pose proof slack_small as [He0 He1]. unfold finalAlpha, mul.
  pose proof (circularAlpha_bounds (ratio size px py)) as Hc.
  pose proof (edgeAlpha_bounds px py) as He.
  set (c := circularAlpha (ratio size px py)) in *.
  set (e := edgeAlpha img_width img_height size zoom px py) in *.
  assert (c * e <= e) as Hup by nra.
  assert (- 64 * slack * e <= c * e) as Hdown by nra.
  assert (- 65 * slack <= - 64 * slack * e) as Hdown' by nra.
  pose proof (rnd_near (c * e) ltac:(lra)). lra.
Qed.

Lemma product_bounds (px py : nat) (src : Z) :
  TextureUtils.is_byte src ->
  -1 < IZR src ⊗ finalAlpha img_width img_height size zoom px py
     < IZR src + 1.
Proof.
  intros [Hs0 Hs1]. apply IZR_le in Hs0, Hs1.
  pose proof slack_small as [He0 He1].
  pose proof u_range as Hu. pose proof eta_range as Heta.
  pose proof (finalAlpha_bounds px py) as Hf.
  set (f := finalAlpha img_width img_height size zoom px py) in *.
  unfold mul.
  assert (- 17850 * slack <= IZR src * f <= IZR src + 17850 * slack)
    as Hp by nra.
  pose proof (rnd_within (IZR src * f) 256 ltac:(lra)) as Hr.
  simpl in Hu, Heta. unfold slack in *. lra.
Qed.


(** *** The pixel loop *)

Definition alpha_value (p : nat * nat) (src : Z) : Z :=
  TextureUtils.to_uint8_clamped
    (Math_floor (IZR src ⊗ finalAlpha img_width img_height size zoom p.2 p.1)).

Lemma rounded_mask_row_flat (data : list Z) (py : nat) (l : list nat) :
  foldl (fun d px => mask_pixel img_width img_height size zoom d px py) data l =
    foldl (TypedArray.update_at (TextureUtils.alpha_index size) alpha_value)
      data ((fun px => (py, px)) <$> l).
Proof.
  revert data. induction l as [|px l IH]; intros d; simpl; [done|].
  by rewrite IH.
Qed.

Lemma rounded_mask_pixels_flat (data : list Z) :
  mask_pixels img_width img_height size zoom data =
    foldl (TypedArray.update_at (TextureUtils.alpha_index size) alpha_value)
      data (TextureUtils.pixels size).
Proof.
  unfold mask_pixels, TextureUtils.pixels.
  rewrite <- (TypedArray.foldl_bind_nested _
                (fun py => (fun px => (py, px)) <$> seq 0 size)).
  generalize (seq 0 size) at 1 3 as rows. intros rows. revert data.
  induction rows as [|py rows IH]; intros d; simpl; [done|].
  rewrite IH. f_equal. apply rounded_mask_row_flat.
Qed.

(** After the loop, the alpha byte of a pixel is the floor of the product
    of its source alpha and its mask, not below 0. *)
Lemma rounded_mask_pixels_alpha_byte (data : list Z) (px py : nat) :
  (px < size)%nat -> (py < size)%nat ->
  length data = (size * size * 4)%nat -> Forall TextureUtils.is_byte data ->
  exists src : Z,
    data !! (TextureUtils.idx size px py + 3)%nat = Some src /\
    TextureUtils.is_byte src /\
    mask_pixels img_width img_height size zoom data
      !! (TextureUtils.idx size px py + 3)%nat =
      Some (Z.max 0
              (Int_part
                 (IZR src ⊗ finalAlpha img_width img_height size zoom px py))) /\
    (-1 <= Int_part (IZR src ⊗ finalAlpha img_width img_height size zoom px py)
        <= src)%Z.
Proof.
  intros Hpx Hpy Hlen Hbytes.
  destruct (lookup_lt_is_Some_2 data (TextureUtils.idx size px py + 3))
    as [src Hsrc].
  { rewrite Hlen. unfold TextureUtils.idx. nia. }
  assert (TextureUtils.is_byte src) as Hb.
  { rewrite Forall_forall in Hbytes. apply Hbytes.
    apply list_elem_of_lookup. eauto. }
  pose proof (product_bounds px py src Hb) as [Hlo Hhi].
  set (P := IZR src ⊗ finalAlpha img_width img_height size zoom px py) in *.
  destruct (base_Int_part P) as [Hle Hgt].
  assert (-1 <= Int_part P <= src)%Z as Hint.
  { split.
    - assert (IZR (-2) < IZR (Int_part P)) as Hlt by lra.
      apply lt_IZR in Hlt. lia.
    - assert (IZR (Int_part P) < IZR (src + 1)) as Hlt
        by (rewrite plus_IZR; lra).
      apply lt_IZR in Hlt. lia. }
  exists src. split; [done|]. split; [done|]. split; [|done].
  rewrite rounded_mask_pixels_flat.
  change (TextureUtils.idx size px py + 3)%nat
    with (TextureUtils.alpha_index size (py, px)) at 1.
  rewrite (TypedArray.foldl_update_written (TextureUtils.alpha_index size)
             alpha_value (TextureUtils.pixels size) data (py, px)).
  - unfold alpha_value, TextureUtils.alpha_index. simpl. rewrite Hsrc. simpl.
    fold P. unfold Math_floor. rewrite TextureUtils.to_uint8_clamped_IZR.
    f_equal. destruct Hb. lia.
  - apply NoDup_fmap_2_strong; [|apply TextureUtils.NoDup_pixels].
    intros p q. apply TextureUtils.alpha_index_inj.
  - by apply TextureUtils.elem_of_pixels.
  - unfold TextureUtils.alpha_index, TextureUtils.idx. simpl. rewrite Hlen. nia.
Qed.

End pixel.
End bounds.

(** *** [seededRandom] in rounded arithmetic

    [Math.sin] is an approximation that the engine chooses. Whatever it
    returns, [x - Math.floor(x)] is the rounding of a number of [[0, 1)],
    so it lies in [[0, 1]]: of the numbers outside the range of the
    specification, 1 is the only one a seed can give without an overflow
    ([Binary64.seededRandom_as_stated_fails] has a seed that does). *)

Section seededRandom.
Context `{Arithmetic}.
Variable engine_sin : R -> R.

Definition seededRandom (seed : R) : R :=
  let x := engine_sin (seed ⊗ 9999) ⊗ 10000 in
  x ⊖ Math_floor x.

Lemma seededRandom_closed_range (seed : R) : 0 <= seededRandom seed <= 1.
Proof.
  unfold seededRandom. cbv zeta.
  set (x := engine_sin (seed ⊗ 9999) ⊗ 10000).
  pose proof (Math_floor_bounds x) as Hx. unfold sub.
  split; [apply rnd_nonneg|apply rnd_le_1]; lra.
Qed.

End seededRandom.

(** *** Factors in the unit interval

    The error model leaves room for a factor just outside [[0, 1]]. Two
    more properties of the arithmetic close it: [1 - 0.4], rounded, is not
    above [0.6], and the smoothstep polynomial, evaluated as the code does
    at a number between 0 and 1, does not exceed 1. Both hold in exact and
    in binary64 arithmetic. *)

Class Sharp (A : Arithmetic) := {
  fade_literals : rnd (1 - rnd 0.4) <= rnd 0.6;
  smoothstep_unit :
    forall t : R, 0 <= rnd t <= 1 -> rnd t ⊗ rnd t ⊗ (3 ⊖ 2 ⊗ rnd t) <= 1;
}.

(** The inputs the statements are for: an image of at least one pixel each
    way, and dimensions, canvas size and zoom up to [2^32], so that no
    operation overflows. *)
Definition in_range (img_width img_height : R) (size : nat) (zoom : R) : Prop :=
  1 <= img_width <= 4294967296 /\ 1 <= img_height <= 4294967296 /\
  INR size <= 4294967296 /\ Rabs zoom <= 4294967296.

Section sharp.
Context `{Sharp}.

Lemma sharp_fade_parameter (ratio : R) :
  rnd 0.4 <= ratio <= 1 -> 0 <= (ratio ⊖ rnd 0.4) ⊘ rnd 0.6 <= 1.
Proof.
  intros [Hlo Hhi]. pose proof slack_small as [He0 He1].
  unfold sub, div.
  pose proof (rnd_near 0.6 ltac:(lra)) as Hk6.
  pose proof fade_literals as Hlit.
  assert (rnd (ratio - rnd 0.4) <= rnd (1 - rnd 0.4)) as Hr
    by (apply rnd_mono; lra).
  assert (0 <= rnd (ratio - rnd 0.4)) as Hr0 by (apply rnd_nonneg; lra).
  set (k6 := rnd 0.6) in *. set (r := rnd (ratio - rnd 0.4)) in *.
  assert (0 < k6) as Hpos by lra.
  split.
  - apply rnd_nonneg, Rmult_le_pos; [done|].
    apply Rlt_le, Rinv_0_lt_compat, Hpos.
  - apply rnd_le_1. apply (Rmult_le_reg_r k6); [done|].
    replace (r / k6 * k6) with r by (field; lra). lra.
Qed.

Lemma sharp_circularAlpha (ratio : R) : 0 <= circularAlpha ratio <= 1.
Proof.
  unfold circularAlpha. pose proof slack_small as [He0 He1].
  destruct (ltb ratio (rnd 0.4)) eqn:Hlo; [lra|].
  destruct (gtb ratio 1) eqn:Hhi; [lra|].
  apply ltb_false in Hlo. apply gtb_false in Hhi.
  assert (0 <= (ratio ⊖ rnd 0.4) ⊘ rnd 0.6 <= 1) as Ht
    by (apply sharp_fade_parameter; lra).
  pose proof (smoothstep_unit ((ratio ⊖ rnd 0.4) / rnd 0.6) Ht) as Hs1.
  change (rnd ((ratio ⊖ rnd 0.4) / rnd 0.6))
    with ((ratio ⊖ rnd 0.4) ⊘ rnd 0.6) in Hs1.
  set (t := (ratio ⊖ rnd 0.4) ⊘ rnd 0.6) in *.
  assert (0 <= t ⊗ t ⊗ (3 ⊖ 2 ⊗ t)) as Hs0
    by (apply smoothstep_rounded; lra).
  set (s := t ⊗ t ⊗ (3 ⊖ 2 ⊗ t)) in *.
  change (1 ⊖ s) with (rnd (1 - s)).
  split; [apply rnd_nonneg|apply rnd_le_1]; lra.
Qed.

Section pixel.
Variables (img_width img_height : R) (size : nat) (zoom : R).

Lemma sharp_edgeAlpha (px py : nat) :
  0 <= edgeAlpha img_width img_height size zoom px py <= 1.
Proof.
  pose proof slack_small as [He0 He1]. unfold edgeAlpha.
  destruct (gtb (featherSize size) 0) eqn:Hf; [|lra].
  apply gtb_true in Hf.
  set (d := minEdgeDist img_width img_height size zoom px py).
  destruct (ltb d 0) eqn:Hd0; [lra|].
  destruct (ltb d (featherSize size)) eqn:Hd1; [|lra].
  apply ltb_false in Hd0. apply ltb_true in Hd1.
  assert (0 <= d / featherSize size <= 1) as [Hq0 Hq1].
  { split.
    - apply Rmult_le_pos; [done|]. apply Rlt_le, Rinv_0_lt_compat, Hf.
    - apply (Rmult_le_reg_r (featherSize size)); [done|].
      replace (d / featherSize size * featherSize size) with d
        by (field; lra).
      lra. }
  assert (0 <= d ⊘ featherSize size <= 1) as Ht.
  { unfold div. pose proof (rnd_nonneg _ Hq0). pose proof (rnd_le_1 _ Hq1).
    lra. }
  pose proof (smoothstep_unit (d / featherSize size) Ht) as Hs1.
  simpl. split; [apply smoothstep_rounded; lra | exact Hs1].
Qed.

Lemma sharp_finalAlpha (px py : nat) :
  0 <= finalAlpha img_width img_height size zoom px py <= 1.
Proof.
  unfold finalAlpha, mul.
  pose proof (sharp_circularAlpha (ratio size px py)) as Hc.
  pose proof (sharp_edgeAlpha px py) as He.
  split; [apply rnd_nonneg|apply rnd_le_1]; nra.
Qed.

Lemma sharp_product (px py : nat) (src : Z) :
  TextureUtils.is_byte src ->
  0 <= IZR src ⊗ finalAlpha img_width img_height size zoom px py <= IZR src.
Proof.
  intros [Hs0 Hs1]. pose proof (sharp_finalAlpha px py) as Hf.
  assert (0 <= IZR src) as Hsrc by (by apply IZR_le).
  unfold mul. split; [apply rnd_nonneg; nra|].
  rewrite <- (rnd_integer src) at 2 by lia.
  apply rnd_mono. nra.
Qed.

(** After the loop, the alpha byte of a pixel is the floor of the product
    of its source alpha and its mask. *)
Lemma sharp_mask_pixels_alpha_byte (data : list Z) (px py : nat) :
  (px < size)%nat -> (py < size)%nat ->
  length data = (size * size * 4)%nat -> Forall TextureUtils.is_byte data ->
  exists src : Z,
    data !! (TextureUtils.idx size px py + 3)%nat = Some src /\
    TextureUtils.is_byte src /\
    mask_pixels img_width img_height size zoom data
      !! (TextureUtils.idx size px py + 3)%nat =
      Some (Int_part
              (IZR src ⊗ finalAlpha img_width img_height size zoom px py)) /\
    (0 <= Int_part (IZR src ⊗ finalAlpha img_width img_height size zoom px py)
       <= src)%Z.
Proof.
  intros Hpx Hpy Hlen Hbytes.
  destruct (rounded_mask_pixels_alpha_byte img_width img_height size zoom
              data px py Hpx Hpy Hlen Hbytes)
    as (src & Hsrc & Hb & Hout & Hint).
  pose proof (sharp_product px py src Hb) as [Hp0 Hp1].
  set (P := IZR src ⊗ finalAlpha img_width img_height size zoom px py) in *.
  assert (0 <= Int_part P)%Z as Hnn.
  { rewrite <- (Nearest.Int_part_of_IZR 0). by apply Nearest.Int_part_le. }
  exists src. fold P. split; [done|]. split; [done|]. split; [|lia].
  rewrite Hout. f_equal. lia.
Qed.

End pixel.
End sharp.

(** *** Two arithmetics *)

Lemma small_power (n : nat) : (20 <= n)%nat -> 0 <= / 2 ^ n <= / 2 ^ 20.
Proof.
  intros Hn. assert (0 < 2 ^ 20) as H20 by (apply pow_lt; lra).
  assert (0 < 2 ^ n) as Hpos by (apply pow_lt; lra).
  split; [apply Rlt_le, Rinv_0_lt_compat, Hpos|].
  apply Rinv_le_contravar; [done|]. apply Rle_pow; [lra|done].
Qed.

Lemma exact_range : 0 <= 0 <= / 2 ^ 20.
Proof. pose proof (small_power 20 ltac:(lia)). lra. Qed.

Lemma exact_error (a : R) : Rabs (a - a) <= 0 * Rabs a + 0.
Proof. rewrite Rminus_diag, Rabs_R0. lra. Qed.

(** Exact arithmetic: the rounding that does nothing. *)
Instance exact : Arithmetic := {|
  rnd := fun a => a;
  u := 0;
  eta := 0;
  js_pow := pow;
  u_range := exact_range;
  eta_range := exact_range;
  rnd_mono := fun a b Hab => Hab;
  rnd_error := exact_error;
  rnd_integer := fun n _ => eq_refl;
|}.

Lemma exact_fade_literals : 1 - 0.4 <= 0.6.
Proof. lra. Qed.

Lemma exact_smoothstep_unit (t : R) :
  0 <= t <= 1 -> t * t * (3 - 2 * t) <= 1.
Proof.
  intros [Ht0 Ht1].
  assert (0 <= (1 - t) * (1 - t) * (1 + 2 * t)) as Hsq
    by (apply Rmult_le_pos; [apply (Rle_0_sqr (1 - t))|lra]).
  lra.
Qed.

Instance exact_sharp : Sharp exact := {|
  fade_literals := exact_fade_literals;
  smoothstep_unit := exact_smoothstep_unit;
|}.

(** Binary64 arithmetic: rounding to nearest, ties to even, in an engine
    that rounds the exponentiation operator correctly. *)
Instance binary64 : Arithmetic := {|
  rnd := Nearest.round64;
  u := / 2 ^ 53;
  eta := / 2 ^ 1075;
  js_pow := fun a n => Nearest.round64 (a ^ n);
  u_range := small_power 53 ltac:(lia);
  eta_range := small_power 1075 ltac:(lia);
  rnd_mono := Nearest.round64_mono;
  rnd_error := Nearest.round64_error;
  rnd_integer := Nearest.round64_integer;
|}.

Lemma binary64_fade_literals :
  Nearest.round64 (1 - Nearest.round64 0.4) <= Nearest.round64 0.6.
Proof. rewrite Nearest.round64_fade_literals. lra. Qed.

(** Up to 3/4 the error model is enough; from there to 1 the binary64
    numbers are multiples of [2^-53], the doubling and the subtraction are
    exact, and the product is at most half way between 1 and the next
    number. *)
Lemma binary64_smoothstep_unit (t : R) :
  0 <= Nearest.round64 t <= 1 ->
  @mul binary64
    (@mul binary64 (Nearest.round64 t) (Nearest.round64 t))
    (@sub binary64 3 (@mul binary64 2 (Nearest.round64 t))) <= 1.
Proof.
  intros [Ht0 Ht1].
  destruct (Rle_dec (Nearest.round64 t) (3 / 4)) as [Hfar|Hnear].
  - by apply (@smoothstep_far binary64).
  - destruct (Nearest.round64_grid t ltac:(lra)) as [k Hk].
    apply (Nearest.round64_smoothstep_near _ k Hk). lra.
Qed.

Instance binary64_sharp : Sharp binary64 := {|
  fade_literals := binary64_fade_literals;
  smoothstep_unit := binary64_smoothstep_unit;
|}.

(** In exact arithmetic the function is the one of [TextureUtils]. *)
Lemma exact_finalAlpha (img_width img_height : R) (size : nat) (zoom : R)
    (px py : nat) :
  @finalAlpha exact img_width img_height size zoom px py =
    TextureUtils.finalAlpha img_width img_height size zoom px py.
Proof. reflexivity. Qed.

Lemma exact_mask_pixels (img_width img_height : R) (size : nat) (zoom : R)
    (data : list Z) :
  @mask_pixels exact img_width img_height size zoom data =
    TextureUtils.mask_pixels img_width img_height size zoom data.
Proof. reflexivity. Qed.

(** C6. In [createFadedTexture] the feather is [0.08 * size]. The image is
    drawn in the rectangle with corner [(x, y)], width [w] and height [h],
    where [w] and [h] are the dimensions of the image times
    [size / min (width, height) * zoom] and the rectangle is centred on the
    canvas; the minimum distance [d] of a pixel to the four edges of that
    rectangle is the least of [px - x], [x + w - px], [py - y] and
    [y + h - py]. A pixel with [d < 0], strictly outside the rectangle,
    gets edge factor 0, mask 0 and written alpha 0, whatever its circular
    factor; a pixel with [0 <= d < feather] gets edge factor
    [t * t * (3 - 2 * t)] with [t = d / feather]; any other pixel gets edge
    factor 1. The alpha written to the buffer is the source alpha of the
    pixel multiplied by (circular factor x edge factor), stored as an
    integer by [Math.floor]. Every operation is the one of the code,
    rounded as the arithmetic rounds. *)
Theorem edge_feather_law `{Sharp} (img_width img_height : R)
    (size : nat) (zoom : R) (data : list Z) (px py : nat) :
  in_range img_width img_height size zoom ->
  (px < size)%nat -> (py < size)%nat ->
  length data = (size * size * 4)%nat -> Forall TextureUtils.is_byte data ->
  let scale := INR size ⊘ Rmin img_width img_height ⊗ zoom in
  let w := img_width ⊗ scale in
  let h := img_height ⊗ scale in
  let x := (INR size ⊖ w) ⊘ 2 in
  let y := (INR size ⊖ h) ⊘ 2 in
  let d :=
    Rmin (Rmin (Rmin (INR px ⊖ x) (x ⊕ w ⊖ INR px)) (INR py ⊖ y))
         (y ⊕ h ⊖ INR py) in
  let f := INR size ⊗ rnd 0.08 in
  let e := edgeAlpha img_width img_height size zoom px py in
  let c := circularAlpha (ratio size px py) in
  let written :=
    mask_pixels img_width img_height size zoom data
      !! (TextureUtils.idx size px py + 3)%nat in
  drawn img_width img_height size zoom = (x, y, w, h) /\
  minEdgeDist img_width img_height size zoom px py = d /\
  featherSize size = f /\ 0 < f /\
  (d < 0 -> e = 0 /\ c ⊗ e = 0 /\ written = Some 0%Z) /\
  (0 <= d < f -> e = d ⊘ f ⊗ (d ⊘ f) ⊗ (3 ⊖ 2 ⊗ (d ⊘ f))) /\
  (f <= d -> e = 1) /\
  exists src : Z,
    data !! (TextureUtils.idx size px py + 3)%nat = Some src /\
    written = Some (Int_part (IZR src ⊗ (c ⊗ e))).
Proof.
  intros _ Hpx Hpy Hlen Hbytes scale w h x y d f e c written.
  assert (0 < size)%nat as Hsize by lia.
  destruct (sharp_mask_pixels_alpha_byte img_width img_height size zoom data px py)
    as (src & Hsrc & Hb & Hout & Hint); try done.
  split; [reflexivity|]. split; [reflexivity|]. split; [reflexivity|].
  split; [by apply rounded_featherSize_pos|].
  split; [|split; [|split]].
  - intros Hd. assert (e = 0) as He by (by apply rounded_edgeAlpha_outside).
    split; [done|].
    assert (c ⊗ e = 0) as Hce
      by (rewrite He; unfold mul; rewrite Rmult_0_r; apply rnd_0).
    split; [done|].
    unfold written. rewrite Hout. unfold finalAlpha. fold e c. rewrite Hce.
    unfold mul. rewrite Rmult_0_r, rnd_0. f_equal.
    apply (Nearest.Int_part_of_IZR 0).
  - intros Hd. by apply rounded_edgeAlpha_feather.
  - intros Hd. by apply rounded_edgeAlpha_inside.
  - exists src. split; [done|]. exact Hout.
Qed.

(** C10. For every pixel processed by [createFadedTexture], the alpha byte
    written is the floor of [sourceAlpha * (circularFactor * edgeFactor)],
    each product being the one of the code, rounded as the arithmetic
    rounds, and both mask factors lie in [[0, 1]]. So the output alpha is
    an integer between 0 and 255 that does not exceed the source alpha of
    the pixel: the mask can only reduce the alpha of a pixel, and a fully
    transparent source pixel stays fully transparent. *)
Theorem written_alpha_bounds `{Sharp} (img_width img_height : R)
    (size : nat) (zoom : R) (data : list Z) (px py : nat) :
  in_range img_width img_height size zoom ->
  (px < size)%nat -> (py < size)%nat ->
  length data = (size * size * 4)%nat -> Forall TextureUtils.is_byte data ->
  let e := edgeAlpha img_width img_height size zoom px py in
  let c := circularAlpha (ratio size px py) in
  exists src out : Z,
    data !! (TextureUtils.idx size px py + 3)%nat = Some src /\
    mask_pixels img_width img_height size zoom data
      !! (TextureUtils.idx size px py + 3)%nat = Some out /\
    IZR out = Math_floor (IZR src ⊗ (c ⊗ e)) /\
    0 <= c <= 1 /\ 0 <= e <= 1 /\
    (0 <= out <= 255)%Z /\ (out <= src)%Z /\ (src = 0%Z -> out = 0%Z).
Proof.
  intros _ Hpx Hpy Hlen Hbytes e c.
  destruct (sharp_mask_pixels_alpha_byte img_width img_height size zoom data px py)
    as (src & Hsrc & Hb & Hout & Hint); try done.
  unfold finalAlpha in Hout, Hint. fold e c in Hout, Hint.
  exists src, (Int_part (IZR src ⊗ (c ⊗ e))).
  split; [done|]. split; [done|]. split; [reflexivity|].
  split; [apply sharp_circularAlpha|]. split; [apply sharp_edgeAlpha|].
  destruct Hb as [Hb0 Hb255].
  split; [lia|]. split; [lia|].
  intros ->. unfold mul. rewrite Rmult_0_l, rnd_0.
  apply (Nearest.Int_part_of_IZR 0).
Qed.

Lemma edge_feather_law_witness :
  0 < @featherSize binary64 1 /\
  exists src : Z,
    [10; 20; 30; 255]%Z !! (TextureUtils.idx 1 0 0 + 3)%nat = Some src /\
    @mask_pixels binary64 2 2 1 0.5 [10; 20; 30; 255]%Z
      !! (TextureUtils.idx 1 0 0 + 3)%nat =
      Some (Int_part
              (@mul binary64 (IZR src)
                 (@mul binary64
                    (@circularAlpha binary64 (@ratio binary64 1 0 0))
                    (@edgeAlpha binary64 2 2 1 0.5 0 0)))).
Proof.
  assert (in_range 2 2 1 0.5) as Hrange
    by (unfold in_range; rewrite Rabs_pos_eq by lra; simpl; lra).
  assert (Forall TextureUtils.is_byte [10; 20; 30; 255]%Z) as Hbytes
    by (repeat constructor; unfold TextureUtils.is_byte; lia).
  destruct (@edge_feather_law binary64 binary64_sharp 2 2 1 0.5
              [10; 20; 30; 255]%Z 0 0
              Hrange ltac:(lia) ltac:(lia) eq_refl Hbytes)
    as (_ & _ & _ & Hf & _ & _ & _ & Hw).
  split; [exact Hf | exact Hw].
Defined.

Lemma written_alpha_bounds_witness :
  exists src out : Z,
    [10; 20; 30; 255]%Z !! (TextureUtils.idx 1 0 0 + 3)%nat = Some src /\
    @mask_pixels binary64 2 2 1 0.5 [10; 20; 30; 255]%Z
      !! (TextureUtils.idx 1 0 0 + 3)%nat = Some out /\
    (0 <= out <= 255)%Z /\ (out <= src)%Z.
Proof.
  assert (in_range 2 2 1 0.5) as Hrange
    by (unfold in_range; rewrite Rabs_pos_eq by lra; simpl; lra).
  assert (Forall TextureUtils.is_byte [10; 20; 30; 255]%Z) as Hbytes
    by (repeat constructor; unfold TextureUtils.is_byte; lia).
  destruct (@written_alpha_bounds binary64 binary64_sharp 2 2 1 0.5
              [10; 20; 30; 255]%Z 0 0
              Hrange ltac:(lia) ltac:(lia) eq_refl Hbytes)
    as (src & out & Hsrc & Hout & _ & _ & _ & Hrange' & Hle & _).
  exists src, out. repeat split; (done || lia).
Defined.

(** *** A byte that rounding changes

    The roundings of the binary64 instance, evaluated: [value e m] replaces
    the rounding of a number in the binade of [2^e] by the multiple [m] of
    [2^(e - 52)] nearest to it, [tie e m] does so for a number half way
    between two multiples, of which [m] is the even one, and [integer n]
    replaces the rounding of an integer by that integer. *)

Ltac powers :=
  repeat match goal with
  | |- context [IZR (2 ^ ?k)] =>
      let z := eval vm_compute in (2 ^ k)%Z in change (2 ^ k)%Z with z
  end.

Ltac round64_at a e m :=
  rewrite (Nearest.round64_value a e m);
  [powers | lia | powers; lra | powers; apply Rabs_def1; lra].

Ltac round64_int a n :=
  first [ rewrite (Nearest.round64_integer n) by lia
        | replace a with (IZR n) by lra;
          rewrite (Nearest.round64_integer n) by lia ].

Ltac round64_next tac :=
  match goal with
  | |- context [Nearest.round64 ?a] =>
      lazymatch a with
      | context [Nearest.round64 _] => fail
      | _ => tac a
      end
  end.

Ltac round64_tie_at a e m :=
  rewrite (Nearest.round64_tie a e m);
  [powers | lia | powers; lra | reflexivity
  | powers; rewrite minus_IZR; lra].

Ltac value e m := round64_next ltac:(fun a => round64_at a e m).
Ltac tie e m := round64_next ltac:(fun a => round64_tie_at a e m).
Ltac integer n := round64_next ltac:(fun a => round64_int a n).

Ltac binary64_operations :=
  unfold add, sub, mul, div, Math_sqrt;
  change (@rnd binary64) with Nearest.round64;
  change (@js_pow binary64) with (fun a n => Nearest.round64 (a ^ n));
  cbv beta.

Ltac coordinates :=
  rewrite ?INR_IZR_INZ;
  repeat match goal with
  | |- context [Z.of_nat ?n] =>
      let z := eval vm_compute in (Z.of_nat n) in change (Z.of_nat n) with z
  end.

Lemma binary64_ratio_18_50 :
  @ratio binary64 100 18 50 = 5764607523034235 / 9007199254740992.
Proof.
  unfold ratio, dist, maxRadius, centerX, centerY. binary64_operations.
  coordinates.
  integer 50%Z. integer (-32)%Z. integer 0%Z. integer 1024%Z. integer 0%Z.
  integer 1024%Z.
  replace 1024 with (32 * 32) by lra. rewrite sqrt_square by lra.
  integer 32%Z. value (-1)%Z 5764607523034235%Z. reflexivity.
Qed.

Lemma binary64_literals :
  @rnd binary64 0.4 = 3602879701896397 / 9007199254740992 /\
  @rnd binary64 0.6 = 5404319552844595 / 9007199254740992.
Proof.
  change (@rnd binary64) with Nearest.round64. split.
  - value (-2)%Z 7205759403792794%Z. lra.
  - value (-1)%Z 5404319552844595%Z. lra.
Qed.

Lemma binary64_circularAlpha_18_50 :
  @circularAlpha binary64 (5764607523034235 / 9007199254740992) =
    2918332558536081 / 4503599627370496.
Proof.
  unfold circularAlpha. destruct binary64_literals as [-> ->].
  rewrite (proj2 (ltb_false _ _)) by lra.
  rewrite (proj2 (gtb_false _ _)) by lra.
  binary64_operations.
  value (-3)%Z 8646911284551352%Z.
  value (-2)%Z 7205759403792794%Z.
  value (-3)%Z 5764607523034236%Z.
  value (-1)%Z 7205759403792794%Z.
  tie 1%Z 4953959590107546%Z.
  value (-2)%Z 6341068275337660%Z.
  value (-1)%Z 5836665117072162%Z.
  lra.
Qed.

Lemma binary64_edgeAlpha_18_50 : @edgeAlpha binary64 100 100 100 1 18 50 = 1.
Proof.
  apply rounded_edgeAlpha_inside; [lia|].
  unfold featherSize, minEdgeDist, imgLeft, imgRight, imgTop, imgBottom,
    x, y, w, h, scale, baseScale, Math_min4, Math_min.
  rewrite (Rmin_left 100 100) by lra.
  binary64_operations. coordinates.
  value (-4)%Z 5764607523034235%Z. value 3%Z 4503599627370496%Z.
  integer 1%Z. integer 1%Z. integer 100%Z. integer 0%Z. integer 0%Z.
  integer 18%Z. integer 100%Z. integer 82%Z. integer 50%Z. integer 50%Z.
  repeat apply Rmin_glb; lra.
Qed.

(** Rounding changes bytes. At the pixel (18, 50) of a canvas of size 100
    that a square image covers, the mask is 0.648 in exact arithmetic and
    its product with the source alpha 250 is 162 exactly. In binary64
    arithmetic the mask is the number next below 0.648, the product is just
    below 162 and the byte is 161, as the binary64 operations of the code
    give ([Binary64.written_alpha_18_50]). *)
Example binary64_alpha_18_50 :
  Int_part (@mul binary64 250 (@finalAlpha binary64 100 100 100 1 18 50))
    = 161%Z.
Proof.
  unfold finalAlpha.
  rewrite binary64_ratio_18_50, binary64_circularAlpha_18_50,
    binary64_edgeAlpha_18_50.
  binary64_operations.
  value (-1)%Z 5836665117072162%Z. value 7%Z 5699868278390783%Z.
  symmetry. apply Int_part_spec. lra.
Qed.

Example exact_alpha_18_50 :
  Int_part (250 * TextureUtils.finalAlpha 100 100 100 1 18 50) = 162%Z.
Proof.
  assert (TextureUtils.finalAlpha 100 100 100 1 18 50 = 0.648) as ->.
  { unfold TextureUtils.finalAlpha.
    assert (TextureUtils.ratio 100 18 50 = 0.64) as ->.
    { rewrite TextureUtils.ratio_coordinates. rewrite !INR_IZR_INZ.
      change (Z.of_nat 18) with 18%Z. change (Z.of_nat 50) with 50%Z.
      change (Z.of_nat 100) with 100%Z.
      replace ((18 - 100 / 2) ^ 2 + (50 - 100 / 2) ^ 2) with (32 ^ 2) by lra.
      rewrite sqrt_pow2 by lra. lra. }
    rewrite TextureUtils.circularAlpha_mid by lra.
    rewrite TextureUtils.edgeAlpha_inside; [lra|].
    unfold TextureUtils.featherSize, TextureUtils.minEdgeDist,
      TextureUtils.imgLeft, TextureUtils.imgRight, TextureUtils.imgTop,
      TextureUtils.imgBottom, TextureUtils.x, TextureUtils.y, TextureUtils.w,
      TextureUtils.h, TextureUtils.scale, TextureUtils.baseScale,
      Math_min4, Math_min.
    rewrite (Rmin_left 100 100) by lra. rewrite !INR_IZR_INZ.
    change (Z.of_nat 18) with 18%Z. change (Z.of_nat 50) with 50%Z.
    change (Z.of_nat 100) with 100%Z.
    repeat apply Rmin_glb; lra. }
  symmetry. apply Int_part_spec. lra.
Qed.

(** So the two arithmetics write different bytes: in a buffer whose pixel
    (18, 50) has source alpha 250, the loop leaves 161 there in binary64
    arithmetic and 162 in exact arithmetic. *)
Example byte_18_50 (data : list Z) :
  length data = (100 * 100 * 4)%nat -> Forall TextureUtils.is_byte data ->
  data !! (TextureUtils.idx 100 18 50 + 3)%nat = Some 250%Z ->
  @mask_pixels binary64 100 100 100 1 data
    !! (TextureUtils.idx 100 18 50 + 3)%nat = Some 161%Z /\
  TextureUtils.mask_pixels 100 100 100 1 data
    !! (TextureUtils.idx 100 18 50 + 3)%nat = Some 162%Z.
Proof.
  intros Hlen Hbytes Hsrc. split.
  - destruct (@sharp_mask_pixels_alpha_byte binary64 binary64_sharp
                100 100 100 1 data 18 50 ltac:(lia) ltac:(lia) Hlen Hbytes)
      as (src & Hsrc' & _ & -> & _).
    rewrite Hsrc in Hsrc'. injection Hsrc' as <-.
    f_equal. apply binary64_alpha_18_50.
  - destruct (TextureUtils.mask_pixels_alpha_byte
                100 100 100 1 data 18 50 ltac:(lia) ltac:(lia) Hlen Hbytes)
      as (src & Hsrc' & _ & _ & ->).
    rewrite Hsrc in Hsrc'. injection Hsrc' as <-.
    f_equal. apply exact_alpha_18_50.
Qed.

End Rounded.

(** ** [types.ts] *)

Module Types.

Record SlotConfig := mkSlotConfig {
  image : option string;
  size : R;
  zoom : R;
  opacity : R;
  blur : R;
  glowIntensity : R;
  offsetX : R;
  offsetY : R;
  rotation : R;
  saturation : R;
  brightness : R;
  contrast : R;
  positionIndex : Z;
}.

Definition DEFAULT_SLOT_CONFIG : SlotConfig := {|
  image := None;
  size := 1.0;
  zoom := 1.0;
  opacity := 1.0;
  blur := 0;
  glowIntensity := 0.25;
  offsetX := 0;
  offsetY := 0;
  rotation := 0;
  saturation := 1.0;
  brightness := 1.0;
  contrast := 1.0;
  positionIndex := 0;
|}.

Definition createSlotConfig (positionIndex : Z) : SlotConfig := {|
  image := image DEFAULT_SLOT_CONFIG;
  size := size DEFAULT_SLOT_CONFIG;
  zoom := zoom DEFAULT_SLOT_CONFIG;
  opacity := opacity DEFAULT_SLOT_CONFIG;
  blur := blur DEFAULT_SLOT_CONFIG;
  glowIntensity := glowIntensity DEFAULT_SLOT_CONFIG;
  offsetX := offsetX DEFAULT_SLOT_CONFIG;
  offsetY := offsetY DEFAULT_SLOT_CONFIG;
  rotation := rotation DEFAULT_SLOT_CONFIG;
  saturation := saturation DEFAULT_SLOT_CONFIG;
  brightness := brightness DEFAULT_SLOT_CONFIG;
  contrast := contrast DEFAULT_SLOT_CONFIG;
  positionIndex := positionIndex;
|}.

Definition TOTAL_DREAM_POSITIONS : nat := 14.

(** *** Slots as the JavaScript objects that are stored and loaded

    A value of a stored slot is a JSON scalar. A key that is absent from
    the map reads as [undefined]. *)
Inductive JsVal :=
  | JNull
  | JBool (b : bool)
  | JNum (x : R)
  | JStr (s : string).

(** The object literal of a [SlotConfig]: its thirteen keys. *)
Definition to_object (c : SlotConfig) : gmap string JsVal :=
  <["image" := match image c with Some s => JStr s | None => JNull end]>
  (<["size" := JNum (size c)]>
  (<["zoom" := JNum (zoom c)]>
  (<["opacity" := JNum (opacity c)]>
  (<["blur" := JNum (blur c)]>
  (<["glowIntensity" := JNum (glowIntensity c)]>
  (<["offsetX" := JNum (offsetX c)]>
  (<["offsetY" := JNum (offsetY c)]>
  (<["rotation" := JNum (rotation c)]>
  (<["saturation" := JNum (saturation c)]>
  (<["brightness" := JNum (brightness c)]>
  (<["contrast" := JNum (contrast c)]>
  (<["positionIndex" := JNum (IZR (positionIndex c))]> ∅)))))))))))).

Definition SLOT_FIELDS : list string :=
  ["image"; "size"; "zoom"; "opacity"; "blur"; "glowIntensity"; "offsetX";
   "offsetY"; "rotation"; "saturation"; "brightness"; "contrast";
   "positionIndex"].

(** [o ?? d]: the left operand unless it is [null] or [undefined]. *)
Definition nullish (o : option JsVal) (d : JsVal) : JsVal :=
  match o with
  | Some JNull | None => d
  | Some v => v
  end.

Lemma to_object_fields (c : SlotConfig) (k : string) :
  k ∈ SLOT_FIELDS <-> is_Some (to_object c !! k).
Proof.
  unfold to_object, SLOT_FIELDS.
  rewrite !lookup_insert_is_Some, lookup_empty, is_Some_alt.
  rewrite !elem_of_cons, elem_of_nil.
  split.
  - intros Hk. repeat (destruct Hk as [->|Hk]; [intuition congruence|]). done.
  - intros Hk.
    repeat (destruct Hk as [<-|[_ Hk]]; [intuition congruence|]). done.
Qed.

End Types.

(** ** [App.tsx]: migration of the persisted configuration *)

Module App.
Import Types.

(** The persisted document as [JSON.parse] returns it: [core] is an object
    or is missing, [dreams] is an array or is missing, and an entry of the
    array is an object or [null]. *)
Record StoredDoc := mkStoredDoc {
  stored_core : option (gmap string JsVal);
  stored_dreams : option (list (option (gmap string JsVal)));
}.

Record Config := mkConfig {
  core : gmap string JsVal;
  dreams : list (gmap string JsVal);
}.

(** [{ ...DEFAULT_SLOT_CONFIG, ...slot, positionIndex: slot.positionIndex ??
    defaultPosition }]: the keys of [slot] override the defaults. *)
Definition migrateSlot (slot : gmap string JsVal) (defaultPosition : JsVal)
    : gmap string JsVal :=
  <["positionIndex" := nullish (slot !! "positionIndex") defaultPosition]>
    (slot ∪ to_object DEFAULT_SLOT_CONFIG).

Definition migrateConfigWithDefaults (data : StoredDoc) : Config := {|
  core := migrateSlot (default ∅ (stored_core data)) (JNum (-1));
  dreams :=
    imap (fun (i : nat) (d : option (gmap string JsVal)) =>
            migrateSlot (default ∅ d)
              (nullish (d ≫= (.!! "positionIndex")) (JNum (INR i))))
         (default [] (stored_dreams data));
|}.

(** *** What the claim speaks about *)

(** A field is missing from a stored slot when its key is absent; for
    [positionIndex], which is read with [??], also when it is [null]. *)
Definition has_position (slot : gmap string JsVal) : Prop :=
  exists v, slot !! "positionIndex" = Some v /\ v ≠ JNull.

Definition complete_slot (slot : gmap string JsVal) : Prop :=
  (forall k, k ∈ SLOT_FIELDS -> is_Some (slot !! k)) /\ has_position slot.

Definition positions (slots : list (gmap string JsVal)) : list (option JsVal) :=
  (.!! "positionIndex") <$> slots.

Lemma nullish_has_position (slot : gmap string JsVal) (d : JsVal) :
  has_position slot ->
  Some (nullish (slot !! "positionIndex") d) = slot !! "positionIndex".
Proof.
  intros (v & Hv & Hnull). rewrite Hv. destruct v; done.
Qed.

Lemma migrateSlot_fields (slot : gmap string JsVal) (d : JsVal) (k : string) :
  k ∈ SLOT_FIELDS -> is_Some (migrateSlot slot d !! k).
Proof.
  intros Hk. unfold migrateSlot.
  rewrite lookup_insert_is_Some. destruct (decide ("positionIndex" = k)); [by left|].
  right. split; [done|]. rewrite lookup_union_is_Some. right.
  by apply to_object_fields.
Qed.

Lemma migrateSlot_keeps (slot : gmap string JsVal) (d : JsVal) (k : string) (v : JsVal) :
  slot !! k = Some v -> k ≠ "positionIndex" \/ v ≠ JNull ->
  migrateSlot slot d !! k = Some v.
Proof.
  intros Hk Hcond. unfold migrateSlot.
  destruct (decide (k = "positionIndex")) as [->|Hne].
  - rewrite lookup_insert_eq, Hk. destruct Hcond as [?|Hv]; [done|].
    destruct v; done.
  - rewrite lookup_insert_ne by done. by apply lookup_union_Some_l.
Qed.

Lemma migrateSlot_backfills (slot : gmap string JsVal) (d : JsVal) (k : string) :
  slot !! k = None -> k ≠ "positionIndex" ->
  migrateSlot slot d !! k = to_object DEFAULT_SLOT_CONFIG !! k.
Proof.
  intros Hk Hne. unfold migrateSlot.
  rewrite lookup_insert_ne by done. by apply lookup_union_r.
Qed.

Lemma migrateSlot_position_default (slot : gmap string JsVal) (d : JsVal) :
  ¬ has_position slot -> migrateSlot slot d !! "positionIndex" = Some d.
Proof.
  intros Hno. unfold migrateSlot. rewrite lookup_insert_eq. f_equal.
  destruct (slot !! "positionIndex") as [v|] eqn:Hv; [|done].
  destruct v; try done; exfalso; apply Hno; eexists; split; done.
Qed.

Lemma migrateSlot_position_kept (slot : gmap string JsVal) (d : JsVal) :
  has_position slot ->
  migrateSlot slot d !! "positionIndex" = slot !! "positionIndex".
Proof.
  intros Hp. unfold migrateSlot. rewrite lookup_insert_eq.
  by apply nullish_has_position.
Qed.

Lemma migrateSlot_complete (slot : gmap string JsVal) (d : JsVal) :
  complete_slot slot -> migrateSlot slot d = slot.
Proof.
  intros [Hall Hp]. unfold migrateSlot.
  assert (slot ∪ to_object DEFAULT_SLOT_CONFIG = slot) as ->.
  { apply map_eq. intros k. rewrite lookup_union.
    destruct (slot !! k) as [v|] eqn:Hk.
    - by destruct (to_object DEFAULT_SLOT_CONFIG !! k).
    - destruct (to_object DEFAULT_SLOT_CONFIG !! k) as [w|] eqn:Hw; [|done].
      assert (k ∈ SLOT_FIELDS) as Hin
        by (apply (to_object_fields DEFAULT_SLOT_CONFIG); eauto).
      apply Hall in Hin. rewrite Hk in Hin. by destruct Hin. }
  apply insert_id. symmetry. by apply nullish_has_position.
Qed.

(** The slots of the stored document, with [d || {}] applied. *)
Definition stored_core_slot (data : StoredDoc) : gmap string JsVal :=
  default ∅ (stored_core data).

Definition stored_dream_slots (data : StoredDoc) : list (gmap string JsVal) :=
  default ∅ <$> default [] (stored_dreams data).

Lemma migrated_dream_lookup (data : StoredDoc) (i : nat) :
  dreams (migrateConfigWithDefaults data) !! i =
    (fun s => migrateSlot s (nullish (s !! "positionIndex") (JNum (INR i))))
      <$> stored_dream_slots data !! i.
Proof.
  unfold migrateConfigWithDefaults, stored_dream_slots. simpl.
  rewrite list_lookup_imap, list_lookup_fmap.
  destruct (default [] (stored_dreams data) !! i) as [[d|]|]; simpl; try done.
Qed.

Lemma migrated_dreams_length (data : StoredDoc) :
  length (dreams (migrateConfigWithDefaults data)) =
    length (stored_dream_slots data).
Proof.
  unfold migrateConfigWithDefaults, stored_dream_slots. simpl.
  by rewrite length_imap, length_fmap.
Qed.

Lemma migrated_positions (data : StoredDoc) :
  Forall has_position (stored_dream_slots data) ->
  positions (dreams (migrateConfigWithDefaults data)) =
    positions (stored_dream_slots data).
Proof.
  intros Hall. apply list_eq. intros i. unfold positions.
  rewrite !list_lookup_fmap, migrated_dream_lookup.
  destruct (stored_dream_slots data !! i) as [s|] eqn:Hs; simpl; [|done].
  f_equal. apply migrateSlot_position_kept.
  rewrite Forall_forall in Hall. apply Hall.
  apply list_elem_of_lookup. eauto.
Qed.

(** *** The claim in the words of the specification

    Two parts of it, as the specification states them: a field that is
    missing from a stored dream slot is backfilled from
    [DEFAULT_SLOT_CONFIG], and pairwise distinct stored [positionIndex]
    values stay pairwise distinct. *)
Definition stated_backfill (data : StoredDoc) : Prop :=
  forall (i : nat) (s m : gmap string JsVal) (k : string),
    stored_dream_slots data !! i = Some s ->
    dreams (migrateConfigWithDefaults data) !! i = Some m ->
    s !! k = None -> m !! k = to_object DEFAULT_SLOT_CONFIG !! k.

Definition stated_uniqueness (data : StoredDoc) : Prop :=
  NoDup (positions (stored_dream_slots data)) ->
  NoDup (positions (dreams (migrateConfigWithDefaults data))).

(** A document saved with two dream slots, the second without a
    [positionIndex]: [{ dreams: [{ positionIndex: 1 }, {}] }]. *)
Definition doc_missing_position : StoredDoc :=
  mkStoredDoc None (Some [Some {["positionIndex" := JNum 1]}; Some ∅]).

Lemma doc_missing_position_migrated :
  positions (dreams (migrateConfigWithDefaults doc_missing_position)) =
    [Some (JNum 1); Some (JNum 1)].
Proof.
  unfold positions, migrateConfigWithDefaults, doc_missing_position. simpl.
  unfold migrateSlot. rewrite !lookup_insert_eq.
  rewrite lookup_singleton_eq, lookup_empty. simpl.
  reflexivity.
Qed.

(** C8, as stated, fails on [doc_missing_position]: the second dream slot
    has no [positionIndex] and receives its array index 1, which is not the
    0 of [DEFAULT_SLOT_CONFIG] and collides with the first slot. *)
Lemma migration_as_stated_fails :
  ¬ stated_backfill doc_missing_position /\
  ¬ stated_uniqueness doc_missing_position.
Proof.
  pose proof doc_missing_position_migrated as Hpos.
  split.
  - intros Hback.
    assert (dreams (migrateConfigWithDefaults doc_missing_position) !! 1%nat =
              Some (migrateSlot ∅ (nullish None (JNum (INR 1))))) as Hm.
    { rewrite migrated_dream_lookup. reflexivity. }
    specialize (Hback 1%nat ∅ _ "positionIndex" eq_refl Hm (lookup_empty _)).
    unfold migrateSlot in Hback. rewrite lookup_insert_eq in Hback.
    rewrite lookup_empty in Hback. simpl in Hback.
    unfold to_object in Hback. rewrite !lookup_insert_ne in Hback by done.
    rewrite lookup_insert_eq in Hback. simpl in Hback.
    inversion Hback as [Heq]. lra.
  - intros Huniq. unfold stated_uniqueness in Huniq. rewrite Hpos in Huniq.
    lapply Huniq.
    + intros Hnd. apply NoDup_cons in Hnd as [Hnotin _].
      apply Hnotin. by left.
    + unfold positions, stored_dream_slots, doc_missing_position. simpl.
      rewrite lookup_singleton_eq, lookup_empty.
      apply NoDup_cons. split; [|apply NoDup_singleton].
      intros Hin. apply list_elem_of_singleton in Hin. discriminate.
Qed.

(** C8, amended. For every persisted document, the migrated configuration
    has every [SlotConfig] field in every slot. A field stored in a slot
    keeps its stored value (for [positionIndex], unless it is [null]); a
    field other than [positionIndex] that is missing is backfilled from
    [DEFAULT_SLOT_CONFIG]; a missing [positionIndex] becomes -1 for the core
    slot and the array index of the slot for a dream slot. If every stored
    dream slot has a [positionIndex] and these are pairwise distinct, so are
    the migrated ones. Migrating a complete document returns it unchanged. *)
Theorem migrateConfigWithDefaults_backfills (data : StoredDoc) :
  let cfg := migrateConfigWithDefaults data in
  (forall slot k,
     slot = core cfg \/ slot ∈ dreams cfg ->
     k ∈ SLOT_FIELDS -> is_Some (slot !! k)) /\
  (forall k v,
     stored_core_slot data !! k = Some v -> k ≠ "positionIndex" \/ v ≠ JNull ->
     core cfg !! k = Some v) /\
  (forall k,
     stored_core_slot data !! k = None -> k ≠ "positionIndex" ->
     core cfg !! k = to_object DEFAULT_SLOT_CONFIG !! k) /\
  (¬ has_position (stored_core_slot data) ->
     core cfg !! "positionIndex" = Some (JNum (-1))) /\
  length (dreams cfg) = length (stored_dream_slots data) /\
  (forall i s m,
     stored_dream_slots data !! i = Some s -> dreams cfg !! i = Some m ->
     (forall k v,
        s !! k = Some v -> k ≠ "positionIndex" \/ v ≠ JNull -> m !! k = Some v) /\
     (forall k,
        s !! k = None -> k ≠ "positionIndex" ->
        m !! k = to_object DEFAULT_SLOT_CONFIG !! k) /\
     (¬ has_position s -> m !! "positionIndex" = Some (JNum (INR i)))) /\
  (Forall has_position (stored_dream_slots data) ->
     NoDup (positions (stored_dream_slots data)) ->
     NoDup (positions (dreams cfg))) /\
  (forall c ds,
     data = mkStoredDoc (Some c) (Some (Some <$> ds)) ->
     complete_slot c -> Forall complete_slot ds ->
     cfg = mkConfig c ds).
Proof.
  intros cfg.
  split.
  { intros slot k [->|Hin] Hk.
    - by apply migrateSlot_fields.
    - apply list_elem_of_lookup in Hin as [i Hi]. unfold cfg in Hi.
      rewrite migrated_dream_lookup in Hi.
      destruct (stored_dream_slots data !! i) as [s|]; simpl in Hi; [|done].
      inversion Hi; subst. by apply migrateSlot_fields. }
  split. { intros k v Hk Hcond. by apply migrateSlot_keeps. }
  split. { intros k Hk Hne. by apply migrateSlot_backfills. }
  split. { intros Hno. by apply migrateSlot_position_default. }
  split. { apply migrated_dreams_length. }
  split.
  { intros i s m Hs Hm. unfold cfg in Hm.
    rewrite migrated_dream_lookup, Hs in Hm. inversion Hm; subst. clear Hm.
    split; [|split].
    - intros k v Hk Hcond. by apply migrateSlot_keeps.
    - intros k Hk Hne. by apply migrateSlot_backfills.
    - intros Hno. rewrite migrateSlot_position_default by done.
      f_equal. destruct (s !! "positionIndex") as [v|] eqn:Hv; [|done].
      destruct v; try done; exfalso; apply Hno; eexists; split; done. }
  split. { intros Hall Hnd. unfold cfg. by rewrite migrated_positions. }
  intros c ds -> Hc Hds. unfold cfg, migrateConfigWithDefaults. simpl.
  f_equal; [by apply migrateSlot_complete|].
  apply list_eq. intros i. rewrite list_lookup_imap, list_lookup_fmap.
  destruct (ds !! i) as [d|] eqn:Hd; simpl; [|done].
  f_equal. apply migrateSlot_complete.
  rewrite Forall_forall in Hds. apply Hds. apply list_elem_of_lookup. eauto.
Qed.

(** A document saved by the current version: two dream slots at the
    positions 3 and 5, and a core slot without its sentinel. *)
Definition doc_two_dreams : StoredDoc :=
  mkStoredDoc (Some (<["size" := JNum 1.3]> ∅))
    (Some [Some (to_object (createSlotConfig 3));
           Some (to_object (createSlotConfig 5))]).

Lemma migrateConfigWithDefaults_backfills_witness :
  core (migrateConfigWithDefaults doc_two_dreams) !! "size" = Some (JNum 1.3) /\
  core (migrateConfigWithDefaults doc_two_dreams) !! "positionIndex"
    = Some (JNum (-1)) /\
  NoDup (positions (dreams (migrateConfigWithDefaults doc_two_dreams))).
Proof.
  destruct (migrateConfigWithDefaults_backfills doc_two_dreams)
    as (_ & Hkeep & _ & Hcore & _ & _ & Huniq & _).
  assert (has_position (to_object (createSlotConfig 3))) as H3.
  { eexists. split; [reflexivity|done]. }
  assert (has_position (to_object (createSlotConfig 5))) as H5.
  { eexists. split; [reflexivity|done]. }
  split; [|split].
  - apply Hkeep; [apply lookup_insert_eq|by left].
  - apply Hcore. intros (v & Hv & _).
    unfold stored_core_slot, doc_two_dreams in Hv. simpl in Hv.
    rewrite lookup_insert_ne, lookup_empty in Hv; done.
  - apply Huniq.
    + repeat constructor; assumption.
    + unfold positions, stored_dream_slots, doc_two_dreams. simpl.
      apply NoDup_cons. split; [|apply NoDup_singleton].
      intros Hin. apply list_elem_of_singleton in Hin.
      inversion Hin as [Heq]. apply eq_IZR in Heq. discriminate.
Defined.

End App.

(** ** [vision-board/SlotComponents.tsx] *)

Module SlotComponents.
Import JsMath Constants Types.

(** The calls a [draw] callback makes on a graphics context, in order. A
    colour is its 24-bit code; a stroke or fill without [alpha] is opaque. *)
Inductive DrawCmd :=
  | g_clear
  | g_circle (cx cy radius : R)
  | g_stroke (color : Z) (width : R) (alpha : option R)
  | g_fill (color : Z) (alpha : option R).

(** The elements a slot component returns. An image slot is kept as the
    element with its props: its textures are loaded asynchronously. Event
    handlers and cursor props are left out. *)
Inductive Element :=
  | pixiGraphics (zIndex : option Z) (draw : list DrawCmd)
  | ImageSlot (imageId : string) (baseSize : R) (slotConfig : SlotConfig)
      (isCore : bool)
  | pixiContainer (x y rotation : R) (zIndex : Z) (children : list Element).

(** [a[i]] for an index that is an integer: [undefined] out of range. *)
Definition array_get {A : Type} (a : list A) (i : Z) : option A :=
  if (0 <=? i)%Z then a !! Z.to_nat i else None.

Definition drawRing (radius : R) : list DrawCmd :=
  [ g_clear;
    g_circle 0 0 (radius + 20);
    g_stroke 0x3b82f6 4 (Some 0.25);
    g_circle 0 0 (radius + 12);
    g_stroke 0x3b82f6 5 (Some 0.5);
    g_circle 0 0 (radius + 8);
    g_stroke 0x60a5fa 2 (Some 0.8) ].

Definition HighlightRing (radius : R) (visible : bool) : option Element :=
  if negb visible then None
  else Some (pixiGraphics (Some 1000%Z) (drawRing radius)).

Definition drawPlaceholder (radius : R) (isCore : bool) : list DrawCmd :=
  [ g_clear;
    g_circle 0 0 radius;
    g_stroke (if isCore then 0x6366f1 else 0x4a5568)
             (if isCore then 3 else 2) None;
    g_fill 0x1a1a2a (Some (if isCore then 0.4 else 0.3)) ]
  ++ (if isCore
      then [g_circle 0 0 30; g_fill 0x6366f1 (Some 0.3)]
      else []).

Definition EmptySlotPlaceholder (radius : R) (isCore : bool) : Element :=
  pixiGraphics None (drawPlaceholder radius isCore).

(** [config.image ? <ImageSlot .../> : <EmptySlotPlaceholder .../>]: the
    empty string is falsy, like [null]. *)
Definition slot_content (config : SlotConfig) (baseSize : R) (isCore : bool)
    : Element :=
  match image config with
  | Some imageId =>
      if decide (imageId = "") then EmptySlotPlaceholder (baseSize / 2) isCore
      else ImageSlot imageId baseSize config isCore
  | None => EmptySlotPlaceholder (baseSize / 2) isCore
  end.

Definition CoreSlot (config : SlotConfig) (isSelected : bool) : Element :=
  let offsetX := or_default (offsetX config) 0 in
  let offsetY := or_default (offsetY config) 0 in
  let rotationDeg := or_default (rotation config) 0 in
  let rotationRad := (rotationDeg * Math_PI) / 180 in
  pixiContainer offsetX offsetY rotationRad 500
    (slot_content config CORE_BASE_SIZE true
     :: option_list
          (HighlightRing (CORE_BASE_SIZE * 0.6 * or_default (size config) 1)
             isSelected)).

Definition posMultiplier (pos : Preset) (index : Z) : R :=
  pos_size pos * (0.8 + seededRandom (IZR index * 17) * 0.4).

Definition baseSlotSize (pos : Preset) (index : Z) : R :=
  DREAM_BASE_SIZE * posMultiplier pos index.

Definition baseX (pos : Preset) (index : Z) : R :=
  pos_x pos * POSTER_WIDTH
  + (seededRandom (IZR index * 7) - 0.5) * POSTER_WIDTH * 0.04.

Definition baseY (pos : Preset) (index : Z) : R :=
  pos_y pos * POSTER_HEIGHT
  + (seededRandom (IZR index * 13) - 0.5) * POSTER_HEIGHT * 0.04.

Definition baseRotation (index : Z) : R :=
  (seededRandom (IZR index * 23) - 0.5) * 0.9.

Definition DreamSlot (index : Z) (config : SlotConfig) (isSelected : bool)
    : option Element :=
  match array_get DREAM_POSITIONS index with
  | None => None
  | Some pos =>
      let baseSlotSize := baseSlotSize pos index in
      let x := baseX pos index + or_default (offsetX config) 0 in
      let y := baseY pos index + or_default (offsetY config) 0 in
      let configRotationRad :=
        (or_default (rotation config) 0 * Math_PI) / 180 in
      let rotation := baseRotation index + configRotationRad in
      Some (pixiContainer x y rotation
              (if isSelected then 200 + index else 50 + index)%Z
              (slot_content config baseSlotSize false
               :: option_list
                    (HighlightRing
                       ((baseSlotSize / 2) * or_default (size config) 1)
                       isSelected)))
  end.

(** *** Reading a rendered slot *)

(** The rings of a drawing: each circle that is stroked, with its radius
    and the opacity of the stroke. *)
Fixpoint ring_strokes (cmds : list DrawCmd) : list (R * R) :=
  match cmds with
  | [] => []
  | g_circle _ _ radius :: rest =>
      match rest with
      | g_stroke _ _ alpha :: _ => (radius, default 1 alpha) :: ring_strokes rest
      | _ => ring_strokes rest
      end
  | _ :: rest => ring_strokes rest
  end.

(** The overlays of a slot: its children that are graphics with a z-index
    of their own, each with that z-index and its rings. *)
Definition overlays (slot : Element) : list (Z * list (R * R)) :=
  match slot with
  | pixiContainer _ _ _ _ children =>
      omap (fun child =>
              match child with
              | pixiGraphics (Some z) draw => Some (z, ring_strokes draw)
              | _ => None
              end) children
  | _ => []
  end.

Lemma DREAM_POSITIONS_length : length DREAM_POSITIONS = 14%nat.
Proof. reflexivity. Qed.

Lemma array_get_in_range {A : Type} (a : list A) (i : Z) :
  (0 <= i < Z.of_nat (length a))%Z ->
  exists v, array_get a i = Some v /\ a !! Z.to_nat i = Some v.
Proof.
  intros Hi. unfold array_get.
  destruct (Z.leb_spec 0 i) as [_|Hneg]; [|lia].
  destruct (lookup_lt_is_Some_2 a (Z.to_nat i)) as [v Hv]; [lia|].
  exists v. by rewrite Hv.
Qed.

Lemma array_get_out_of_range {A : Type} (a : list A) (i : Z) :
  (i < 0 \/ Z.of_nat (length a) <= i)%Z -> array_get a i = None.
Proof.
  intros Hi. unfold array_get.
  destruct (Z.leb_spec 0 i) as [Hpos|Hneg]; [|done].
  apply lookup_ge_None_2. lia.
Qed.

(** C7. For every dream slot whose [positionIndex] [i] is in range (0 to
    13), with preset [{x, y, size} = DREAM_POSITIONS[i]]: the size
    multiplier is [size * (0.8 + seededRandom (i * 17) * 0.4)]; the base
    position is [(x * posterWidth + (seededRandom (i * 7) - 0.5) *
    posterWidth * 0.04, y * posterHeight + (seededRandom (i * 13) - 0.5) *
    posterHeight * 0.04)] and the slot is placed at the base position plus
    the configured [(offsetX, offsetY)]; the base rotation is
    [(seededRandom (i * 23) - 0.5) * 0.9] radians and the slot is rotated by
    it plus the configured rotation times [pi / 180]; and a second
    invocation on the same inputs gives the same values. *)
Theorem DreamSlot_layout (i : Z) (config : SlotConfig) (isSelected : bool) :
  (0 <= i < 14)%Z ->
  exists pos : Preset,
    DREAM_POSITIONS !! Z.to_nat i = Some pos /\
    posMultiplier pos i =
      pos_size pos * (0.8 + seededRandom (IZR i * 17) * 0.4) /\
    baseX pos i =
      pos_x pos * POSTER_WIDTH
      + (seededRandom (IZR i * 7) - 0.5) * POSTER_WIDTH * 0.04 /\
    baseY pos i =
      pos_y pos * POSTER_HEIGHT
      + (seededRandom (IZR i * 13) - 0.5) * POSTER_HEIGHT * 0.04 /\
    baseRotation i = (seededRandom (IZR i * 23) - 0.5) * 0.9 /\
    (exists (z : Z) (children : list Element),
       DreamSlot i config isSelected =
         Some (pixiContainer
                 (baseX pos i + offsetX config)
                 (baseY pos i + offsetY config)
                 (baseRotation i + rotation config * PI / 180)
                 z
                 (slot_content config
                    (DREAM_BASE_SIZE * posMultiplier pos i) false
                  :: children))) /\
    (forall i' config' isSelected',
       (i', config', isSelected') = (i, config, isSelected) ->
       DreamSlot i' config' isSelected' = DreamSlot i config isSelected).
Proof.
  intros Hi.
  destruct (array_get_in_range DREAM_POSITIONS i) as (pos & Hget & Hpos).
  { rewrite DREAM_POSITIONS_length. lia. }
  exists pos. repeat (split; [done|]). split.
  - unfold DreamSlot. rewrite Hget. rewrite !or_default_0.
    eexists _, _. reflexivity.
  - intros i' config' isSelected' Heq. by inversion Heq.
Qed.

Lemma DreamSlot_layout_witness :
  exists pos : Preset,
    DREAM_POSITIONS !! 0%nat = Some pos /\
    posMultiplier pos 0 = pos_size pos * (0.8 + seededRandom (0 * 17) * 0.4) /\
    baseRotation 0 = (seededRandom (0 * 23) - 0.5) * 0.9.
Proof.
  destruct (DreamSlot_layout 0 DEFAULT_SLOT_CONFIG false ltac:(lia))
    as (pos & Hpos & Hmul & _ & _ & Hrot & _).
  exists pos. split; [exact Hpos|]. split; [exact Hmul | exact Hrot].
Defined.

(** *** The selection overlay *)

Lemma overlays_selected (x y rotation : R) (z : Z) (content : Element)
    (radius : R) :
  (forall zi draw, content ≠ pixiGraphics (Some zi) draw) ->
  overlays (pixiContainer x y rotation z
              (content :: option_list (HighlightRing radius true))) =
    [(1000%Z, [(radius + 20, 0.25); (radius + 12, 0.5); (radius + 8, 0.8)])].
Proof.
  intros Hcontent. simpl.
  destruct content as [[zi|] draw| |]; simpl; try done.
  by destruct (Hcontent zi draw).
Qed.

Lemma slot_content_no_zIndex (config : SlotConfig) (baseSize : R)
    (isCore : bool) (zi : Z) (draw : list DrawCmd) :
  slot_content config baseSize isCore ≠ pixiGraphics (Some zi) draw.
Proof.
  unfold slot_content, EmptySlotPlaceholder.
  destruct (image config) as [imageId|]; [|done].
  by destruct (decide (imageId = "")).
Qed.

(** C9, as stated, fails for the core slot: with the default size 1 the
    rings are drawn around the radius [CORE_BASE_SIZE * 0.6], not around
    [CORE_BASE_SIZE / 2]. *)
Lemma core_ring_radius_is_not_half_base :
  overlays (CoreSlot DEFAULT_SLOT_CONFIG true) ≠
    [(1000%Z,
      [(CORE_BASE_SIZE / 2 * size DEFAULT_SLOT_CONFIG + 20, 0.25);
       (CORE_BASE_SIZE / 2 * size DEFAULT_SLOT_CONFIG + 12, 0.5);
       (CORE_BASE_SIZE / 2 * size DEFAULT_SLOT_CONFIG + 8, 0.8)])].
Proof.
  unfold CoreSlot. rewrite overlays_selected by apply slot_content_no_zIndex.
  intros Heq. inversion Heq as [Hr]. clear Heq.
  unfold CORE_BASE_SIZE in Hr. rewrite MIN_DIM_eq in Hr. simpl in Hr.
  rewrite or_default_ne in Hr by lra. lra.
Qed.

(** C9, amended. For every selected slot (core or dream), the selection
    overlay is one graphics element at z-index 1000, the last child of the
    slot, whose drawing is, after a clear, three circles centred on the
    origin of the slot, each stroked and none filled: their radii are
    [baseRadius * size] plus 20, 12 and 8 pixels and the opacities of their
    strokes 0.25, 0.5 and 0.8, so the opacity decreases as the radius grows.
    Here [baseRadius] is [CORE_BASE_SIZE * 0.6] for the core slot and
    [baseSlotSize / 2] for a dream slot, and [size] is the configured size
    multiplier of the slot, read as 1 when it is 0. A slot that is not
    selected has no overlay. *)
Theorem selection_overlay_rings (config : SlotConfig) :
  let size := or_default (size config) 1 in
  let rings (radius : R) :=
    pixiGraphics (Some 1000%Z)
      [ g_clear;
        g_circle 0 0 (radius + 20); g_stroke 0x3b82f6 4 (Some 0.25);
        g_circle 0 0 (radius + 12); g_stroke 0x3b82f6 5 (Some 0.5);
        g_circle 0 0 (radius + 8); g_stroke 0x60a5fa 2 (Some 0.8) ] in
  (forall isSelected : bool,
     exists x y rotation : R,
       CoreSlot config isSelected =
         pixiContainer x y rotation 500
           (slot_content config CORE_BASE_SIZE true ::
            if isSelected then [rings (CORE_BASE_SIZE * 0.6 * size)] else [])) /\
  (forall (i : Z) (pos : Preset) (isSelected : bool),
     array_get DREAM_POSITIONS i = Some pos ->
     exists x y rotation : R,
       DreamSlot i config isSelected =
         Some (pixiContainer x y rotation
                 (if isSelected then 200 + i else 50 + i)%Z
                 (slot_content config (baseSlotSize pos i) false ::
                  if isSelected then [rings (baseSlotSize pos i / 2 * size)]
                  else []))) /\
  (forall (baseSize : R) (isCore : bool) (radius : R),
     slot_content config baseSize isCore ≠ rings radius) /\
  overlays (CoreSlot config true) =
    [(1000%Z,
      [(CORE_BASE_SIZE * 0.6 * size + 20, 0.25);
       (CORE_BASE_SIZE * 0.6 * size + 12, 0.5);
       (CORE_BASE_SIZE * 0.6 * size + 8, 0.8)])] /\
  (forall (i : Z) (pos : Preset),
     array_get DREAM_POSITIONS i = Some pos ->
     exists slot : Element,
       DreamSlot i config true = Some slot /\
       overlays slot =
         [(1000%Z,
           [(baseSlotSize pos i / 2 * size + 20, 0.25);
            (baseSlotSize pos i / 2 * size + 12, 0.5);
            (baseSlotSize pos i / 2 * size + 8, 0.8)])]) /\
  overlays (CoreSlot config false) = [] /\
  0.25 < 0.5 < 0.8.
Proof.
  intros size rings. split; [|split; [|split; [|split; [|split; [|split]]]]].
  - intros isSelected. unfold CoreSlot. do 3 eexists.
    by destruct isSelected.
  - intros i pos isSelected Hpos. unfold DreamSlot. rewrite Hpos.
    do 3 eexists. by destruct isSelected.
  - intros baseSize isCore radius. apply slot_content_no_zIndex.
  - unfold CoreSlot. by rewrite overlays_selected by apply slot_content_no_zIndex.
  - intros i pos Hpos. unfold DreamSlot. rewrite Hpos.
    eexists. split; [reflexivity|].
    by rewrite overlays_selected by apply slot_content_no_zIndex.
  - unfold CoreSlot. simpl.
    pose proof (slot_content_no_zIndex config CORE_BASE_SIZE true) as Hc.
    destruct (slot_content config CORE_BASE_SIZE true) as [[zi|] draw| |];
      simpl; try done.
    by destruct (Hc zi draw).
  - lra.
Qed.

Lemma selection_overlay_rings_witness :
  overlays (CoreSlot DEFAULT_SLOT_CONFIG true) =
    [(1000%Z,
      [(CORE_BASE_SIZE * 0.6 * or_default 1.0 1 + 20, 0.25);
       (CORE_BASE_SIZE * 0.6 * or_default 1.0 1 + 12, 0.5);
       (CORE_BASE_SIZE * 0.6 * or_default 1.0 1 + 8, 0.8)])] /\
  exists slot : Element,
    DreamSlot 3 DEFAULT_SLOT_CONFIG true = Some slot /\
    overlays slot =
      [(1000%Z,
        [(baseSlotSize (mkPreset (-0.38) (-0.18) 1.1) 3 / 2 * or_default 1.0 1 + 20, 0.25);
         (baseSlotSize (mkPreset (-0.38) (-0.18) 1.1) 3 / 2 * or_default 1.0 1 + 12, 0.5);
         (baseSlotSize (mkPreset (-0.38) (-0.18) 1.1) 3 / 2 * or_default 1.0 1 + 8, 0.8)])].
Proof.
  destruct (selection_overlay_rings DEFAULT_SLOT_CONFIG)
    as (_ & _ & _ & Hcore & Hdream & _).
  split; [exact Hcore|].
  apply (Hdream 3%Z (mkPreset (-0.38) (-0.18) 1.1)). reflexivity.
Defined.

End SlotComponents.

(** ** [vision-board/utils/canvas-export.ts] *)

Module CanvasExport.
Import JsMath Constants.

Definition EXPORT_WIDTH : R := 5400.
Definition EXPORT_HEIGHT : R := 7200.

(** *** The scene graph

    A node of the scene graph with the two properties the export reads, and
    its children. A node has one parent, so the graph is a tree, and a
    reference to a node is the path of child indices that leads to it from
    the container the walk starts at. *)
Inductive Container :=
  mkContainer (zIndex : Z) (visible : bool) (children : list Container).

Definition zIndex (c : Container) : Z :=
  match c with mkContainer z _ _ => z end.

Definition visible (c : Container) : bool :=
  match c with mkContainer _ v _ => v end.

Definition children (c : Container) : list Container :=
  match c with mkContainer _ _ cs => cs end.

Definition Ref : Type := list nat.

(** [c.visible = b] *)
Definition set_visible (b : bool) (c : Container) : Container :=
  mkContainer (zIndex c) b (children c).

(** The node a reference denotes. *)
Fixpoint get_at (r : Ref) (c : Container) : option Container :=
  match r with
  | [] => Some c
  | i :: r' => children c !! i ≫= get_at r'
  end.

(** [element.visible = b] for the node that [r] denotes. *)
Fixpoint set_visible_at (r : Ref) (b : bool) (c : Container) : Container :=
  match r with
  | [] => set_visible b c
  | i :: r' =>
      mkContainer (zIndex c) (visible c)
        (alter (set_visible_at r' b) i (children c))
  end.

(** The condition of the walk: [child.zIndex >= 1000 && child.visible]. *)
Definition is_hud (child : Container) : bool :=
  (1000 <=? zIndex child)%Z && visible child.

Section walk.
Variable recurse : Container -> Container * list Ref.

(** The loop [for (const child of container.children)], [i] being the
    index of the first child of [cs] in the container. The flag of [child]
    and the flags below it are independent, so the model hides below
    [child] first and sets its flag after; [hidden] receives the child
    before its descendants, as in the source. *)
Fixpoint hide_children (i : nat) (cs : list Container)
    : list Container * list Ref :=
  match cs with
  | [] => ([], [])
  | child :: rest =>
      let hide := is_hud child in
      let '(child', below) :=
        match children child with
        | [] => (child, [])
        | _ :: _ => recurse child
        end in
      let '(rest', more) := hide_children (S i) rest in
      ((if hide then set_visible false child' else child') :: rest',
       (if hide then [[i]] else []) ++ (cons i <$> below) ++ more)
  end.

End walk.

Fixpoint hideHudElements (container : Container) : Container * list Ref :=
  match container with
  | mkContainer z v cs =>
      let '(cs', hidden) := hide_children hideHudElements 0 cs in
      (mkContainer z v cs', hidden)
  end.

Definition restoreHudElements (elements : list Ref) (container : Container)
    : Container :=
  foldl (fun c element => set_visible_at element true c) container elements.

(** *** The application and what the export does to the world *)

Record Stage := mkStage {
  scale : R * R;
  position : R * R;
  container : Container;
}.

Inductive Error :=
  | RenderTextureError
  | RenderError
  | ExtractError
  | ToBlobError
  | DestroyError.

Inductive Event :=
  | console_error (message : string)
  | rendered (stage : Stage)
  | extracted
  | texture_destroyed
  | object_url_created
  | anchor_clicked (download : string)
  | revoke_scheduled.

(** How the browser and the renderer answer during one export: which calls
    throw, and the blob the canvas hands to the callback of [toBlob]
    ([None] for [null]). *)
Record Env := mkEnv {
  create_throws : bool;
  render_throws : bool;
  extract_throws : bool;
  toBlob_throws : bool;
  destroy_throws : bool;
  blob : option nat;
}.

(** The callback passed to [canvas.toBlob], waiting in the task queue. *)
Record Task := mkTask { task_filename : string }.

Record World := mkWorld {
  stage : Stage;
  events : list Event;
  tasks : list Task;
}.

Inductive Result (A : Type) :=
  | Ok (a : A)
  | Throw (e : Error).
Arguments Ok {A} a.
Arguments Throw {A} e.

Definition M (A : Type) : Type := World -> Result A * World.

Definition ret {A : Type} (a : A) : M A := fun w => (Ok a, w).

Definition bind {A B : Type} (m : M A) (k : A -> M B) : M B :=
  fun w =>
    match m w with
    | (Ok a, w') => k a w'
    | (Throw e, w') => (Throw e, w')
    end.

Definition throw {A : Type} (e : Error) : M A := fun w => (Throw e, w).

Definition try_catch {A : Type} (m : M A) (handler : Error -> M A) : M A :=
  fun w =>
    match m w with
    | (Ok a, w') => (Ok a, w')
    | (Throw e, w') => handler e w'
    end.

#[local] Instance M_ret : MRet M := @ret.
#[local] Instance M_bind : MBind M := fun A B k m => bind m k.

Definition get_stage : M Stage := fun w => (Ok (stage w), w).

Definition put_stage (s : Stage) : M unit :=
  fun w => (Ok tt, mkWorld s (events w) (tasks w)).

Definition emit (e : Event) : M unit :=
  fun w => (Ok tt, mkWorld (stage w) (events w ++ [e]) (tasks w)).

Definition enqueue (t : Task) : M unit :=
  fun w => (Ok tt, mkWorld (stage w) (events w) (tasks w ++ [t])).

(** A call into the renderer or the browser that may throw. *)
Definition call (throws : bool) (e : Error) : M unit :=
  if throws then throw e else ret tt.

Definition stage_scale_set (sx sy : R) : M unit :=
  s ← get_stage; put_stage (mkStage (sx, sy) (position s) (container s)).

Definition stage_position_set (px py : R) : M unit :=
  s ← get_stage; put_stage (mkStage (scale s) (px, py) (container s)).

Definition hide_hud : M (list Ref) :=
  s ← get_stage;
  let '(c, hidden) := hideHudElements (container s) in
  put_stage (mkStage (scale s) (position s) c);;
  mret hidden.

Definition restore_hud (elements : list Ref) : M unit :=
  s ← get_stage;
  put_stage (mkStage (scale s) (position s)
               (restoreHudElements elements (container s))).

Definition renderer_render (env : Env) : M unit :=
  call (render_throws env) RenderError;;
  s ← get_stage; emit (rendered s).

(** The body of [exportCanvasAsImage] for an application that is not
    [null]: the [try] block and its [catch]. *)
Definition export_body (env : Env) (filename : string) : M unit :=
  try_catch
    (let scaleX := EXPORT_WIDTH / POSTER_WIDTH in
     let scaleY := EXPORT_HEIGHT / POSTER_HEIGHT in
     call (create_throws env) RenderTextureError;;
     hiddenElements ← hide_hud;
     s ← get_stage;
     let originalScaleX := (scale s).1 in
     let originalScaleY := (scale s).2 in
     let originalX := (position s).1 in
     let originalY := (position s).2 in
     stage_scale_set scaleX scaleY;;
     stage_position_set 0 0;;
     renderer_render env;;
     stage_scale_set originalScaleX originalScaleY;;
     stage_position_set originalX originalY;;
     restore_hud hiddenElements;;
     call (extract_throws env) ExtractError;;
     emit extracted;;
     call (toBlob_throws env) ToBlobError;;
     enqueue (mkTask filename);;
     call (destroy_throws env) DestroyError;;
     emit texture_destroyed)
    (fun error =>
       emit (console_error "Failed to export canvas:");;
       throw error).

(** How the promise of an [async] function settles. *)
Inductive Outcome :=
  | Resolved
  | Rejected (e : Error).

(** [app] is [None] for [null]; otherwise the application is the one whose
    stage is in the world. [filename] is [None] when the argument is
    omitted. *)
Definition exportCanvasAsImage (env : Env) (app : option unit)
    (filename : option string) (w : World) : Outcome * World :=
  let filename := default "vision-board.png" filename in
  match app with
  | None =>
      (Resolved,
       mkWorld (stage w)
         (events w ++ [console_error "Application instance is null"])
         (tasks w))
  | Some _ =>
      match export_body env filename w with
      | (Ok _, w') => (Resolved, w')
      | (Throw e, w') => (Rejected e, w')
      end
  end.

(** The callback of [toBlob], run by the event loop after the promise has
    settled. *)
Definition run_task (env : Env) (t : Task) : list Event :=
  match blob env with
  | None => [console_error "Failed to create blob"]
  | Some _ =>
      [object_url_created; anchor_clicked (task_filename t); revoke_scheduled]
  end.

(** The event loop drains the task queue. *)
Definition drain (env : Env) (w : World) : World :=
  mkWorld (stage w) (events w ++ (tasks w ≫= run_task env)) [].

Definition download_initiated (evs : list Event) : Prop :=
  exists filename, anchor_clicked filename ∈ evs.

(** *** Walking the scene graph *)

Lemma Container_nested_ind (P : Container -> Prop) :
  (forall z v cs, Forall P cs -> P (mkContainer z v cs)) ->
  forall c, P c.
Proof.
  intros Hnode. fix IH 1. intros [z v cs]. apply Hnode.
  induction cs as [|child rest IHrest]; constructor; [apply IH | exact IHrest].
Qed.

(** What the walk leaves behind, stated on its own: below the container, a
    node is invisible when its z-index is at least 1000 and keeps its flag
    otherwise. *)
Fixpoint hide_deep (c : Container) : Container :=
  match c with
  | mkContainer z v cs =>
      mkContainer z (v && negb (1000 <=? z)%Z) (hide_deep <$> cs)
  end.

Definition hide_below (c : Container) : Container :=
  mkContainer (zIndex c) (visible c) (hide_deep <$> children c).

Lemma hide_children_unfold (f : Container -> Container * list Ref) (i : nat)
    (child : Container) (rest : list Container) :
  hide_children f i (child :: rest) =
    let below := match children child with
                 | [] => (child, [])
                 | _ :: _ => f child
                 end in
    let tail := hide_children f (S i) rest in
    ((if is_hud child then set_visible false below.1 else below.1) :: tail.1,
     (if is_hud child then [[i]] else []) ++ (cons i <$> below.2) ++ tail.2).
Proof.
  simpl. destruct (children child); destruct (hide_children f (S i) rest);
    [reflexivity|]. by destruct (f child).
Qed.

Lemma hideHudElements_unfold (c : Container) :
  hideHudElements c =
    (mkContainer (zIndex c) (visible c)
       (hide_children hideHudElements 0 (children c)).1,
     (hide_children hideHudElements 0 (children c)).2).
Proof.
  destruct c as [z v cs]. simpl.
  by destruct (hide_children hideHudElements 0 cs).
Qed.

Lemma hide_deep_flag (child : Container) :
  (if is_hud child then set_visible false (hide_below child)
   else hide_below child) = hide_deep child.
Proof.
  destruct child as [z v cs]. unfold is_hud, hide_below, set_visible. simpl.
  destruct (1000 <=? z)%Z, v; reflexivity.
Qed.

Lemma hide_children_state (i : nat) (cs : list Container) :
  Forall (fun c => (hideHudElements c).1 = hide_below c) cs ->
  (hide_children hideHudElements i cs).1 = hide_deep <$> cs.
Proof.
  intros Hcs. revert i. induction Hcs as [|child rest Hchild _ IH]; intros i.
  { reflexivity. }
  rewrite hide_children_unfold. simpl. rewrite IH. f_equal.
  rewrite <- hide_deep_flag.
  assert (match children child with
          | [] => (child, [])
          | _ :: _ => hideHudElements child
          end.1 = hide_below child) as ->; [|done].
  destruct (children child) eqn:Hch; [|done].
  destruct child as [z v cs]. simpl in Hch. subst. reflexivity.
Qed.

Lemma hideHudElements_state (c : Container) :
  (hideHudElements c).1 = hide_below c.
Proof.
  induction c as [z v cs IH] using Container_nested_ind.
  rewrite hideHudElements_unfold. unfold hide_below. simpl.
  by rewrite hide_children_state.
Qed.

(** The nodes the walk reports. *)
Definition hud_at (c : Container) (r : Ref) : Prop :=
  exists n, get_at r c = Some n /\ is_hud n = true.

Lemma get_at_leaf (r : Ref) (c n : Container) :
  children c = [] -> get_at r c = Some n -> r = [].
Proof.
  intros Hch. destruct r as [|i r]; [done|]. simpl. by rewrite Hch.
Qed.

Lemma hide_children_refs (i : nat) (cs : list Container) :
  Forall (fun c => forall r, r ∈ (hideHudElements c).2 <-> r ≠ [] /\ hud_at c r) cs ->
  forall r,
    r ∈ (hide_children hideHudElements i cs).2 <->
    exists j r' child,
      r = (i + j)%nat :: r' /\ cs !! j = Some child /\ hud_at child r'.
Proof.
  intros Hcs. revert i. induction Hcs as [|child rest Hchild _ IH]; intros i r.
  { simpl. split; [intros Hin; by apply elem_of_nil in Hin|].
    intros (j & r' & ch & _ & Hj & _). done. }
  rewrite hide_children_unfold. simpl. rewrite !elem_of_app, IH.
  assert (forall r', r' ∈ match children child with
                         | [] => (child, [])
                         | _ :: _ => hideHudElements child
                         end.2 <-> r' ≠ [] /\ hud_at child r') as Hbelow.
  { intros r'. destruct (children child) eqn:Hch; [|apply Hchild].
    simpl. split; [intros Hin; by apply elem_of_nil in Hin|].
    intros [Hne (n & Hn & _)]. destruct Hne. by eapply get_at_leaf. }
  split.
  - intros [Hhere|[Hin|(j & r' & ch & -> & Hj & Hhud)]].
    + destruct (is_hud child) eqn:Hhud; [|by apply elem_of_nil in Hhere].
      apply list_elem_of_singleton in Hhere as ->.
      exists 0%nat, [], child. rewrite Nat.add_0_r. repeat split; [].
      exists child. done.
    + apply list_elem_of_fmap in Hin as (r' & -> & Hr').
      apply Hbelow in Hr' as [_ Hhud].
      exists 0%nat, r', child. by rewrite Nat.add_0_r.
    + exists (S j), r', ch. split; [f_equal; lia|done].
  - intros (j & r' & ch & -> & Hj & Hhud). destruct j as [|j].
    + simpl in Hj. inversion Hj; subst ch. rewrite Nat.add_0_r.
      destruct r' as [|k r'].
      * left. destruct Hhud as (n & Hn & Hhud). simpl in Hn.
        inversion Hn; subst n. rewrite Hhud. by apply list_elem_of_singleton.
      * right. left. apply list_elem_of_fmap. exists (k :: r').
        split; [done|]. by apply Hbelow.
    + right. right. exists j, r', ch. split; [f_equal; lia|done].
Qed.

Lemma hideHudElements_refs (c : Container) (r : Ref) :
  r ∈ (hideHudElements c).2 <-> r ≠ [] /\ hud_at c r.
Proof.
  revert r. induction c as [z v cs IH] using Container_nested_ind. intros r.
  rewrite hideHudElements_unfold. simpl. rewrite hide_children_refs by done.
  split.
  - intros (j & r' & child & -> & Hj & n & Hn & Hhud). split; [done|].
    exists n. simpl. by rewrite Hj.
  - intros [Hne (n & Hn & Hhud)]. destruct r as [|j r']; [done|].
    simpl in Hn. destruct (cs !! j) as [child|] eqn:Hj; [|done].
    exists j, r', child. repeat split; [done|]. by exists n.
Qed.

(** *** Restoring *)

Lemma restore_app (l1 l2 : list Ref) (c : Container) :
  restoreHudElements (l1 ++ l2) c =
    restoreHudElements l2 (restoreHudElements l1 c).
Proof. apply foldl_app. Qed.

Lemma restore_in_child (z : Z) (v : bool) (pre : list Container)
    (x : Container) (rest : list Container) (below : list Ref) :
  restoreHudElements (cons (length pre) <$> below)
    (mkContainer z v (pre ++ x :: rest)) =
  mkContainer z v (pre ++ restoreHudElements below x :: rest).
Proof.
  revert x. induction below as [|r below IH]; intros x; [done|].
  simpl. unfold restoreHudElements in *. simpl.
  replace (length pre) with (length pre + 0)%nat at 1 by lia.
  rewrite alter_app_r. simpl. apply IH.
Qed.

Lemma restore_flag (z : Z) (v : bool) (pre : list Container)
    (x : Container) (rest : list Container) :
  restoreHudElements [[length pre]]
    (mkContainer z v (pre ++ set_visible false x :: rest)) =
  mkContainer z v (pre ++ set_visible true x :: rest).
Proof.
  unfold restoreHudElements. simpl.
  replace (length pre) with (length pre + 0)%nat at 1 by lia.
  by rewrite alter_app_r.
Qed.

Lemma hideHudElements_flags (c : Container) :
  zIndex (hideHudElements c).1 = zIndex c /\
  visible (hideHudElements c).1 = visible c.
Proof. by rewrite hideHudElements_state. Qed.

Lemma restore_children (z : Z) (v : bool) (cs : list Container) :
  Forall (fun c =>
            restoreHudElements (hideHudElements c).2 (hideHudElements c).1 = c)
         cs ->
  forall pre : list Container,
    restoreHudElements (hide_children hideHudElements (length pre) cs).2
      (mkContainer z v (pre ++ (hide_children hideHudElements (length pre) cs).1))
    = mkContainer z v (pre ++ cs).
Proof.
  intros Hcs. induction Hcs as [|child rest Hchild _ IH]; intros pre.
  { reflexivity. }
  rewrite hide_children_unfold. simpl.
  set (below := match children child with
                | [] => (child, [])
                | _ :: _ => hideHudElements child
                end).
  assert (restoreHudElements below.2 below.1 = child) as Hbelow.
  { unfold below. by destruct (children child). }
  assert (visible below.1 = visible child) as Hvis.
  { unfold below. destruct (children child); [done|].
    apply hideHudElements_flags. }
  assert (zIndex below.1 = zIndex child) as Hz.
  { unfold below. destruct (children child); [done|].
    apply hideHudElements_flags. }
  rewrite !restore_app.
  assert (restoreHudElements (cons (length pre) <$> below.2)
            (restoreHudElements (if is_hud child then [[length pre]] else [])
               (mkContainer z v
                  (pre ++ (if is_hud child then set_visible false below.1
                           else below.1)
                       :: (hide_children hideHudElements (S (length pre)) rest).1)))
          = mkContainer z v
              (pre ++ child
                   :: (hide_children hideHudElements (S (length pre)) rest).1))
    as Hhere.
  { destruct (is_hud child) eqn:Hhud.
    - rewrite restore_flag.
      assert (set_visible true below.1 = below.1) as ->.
      { unfold is_hud in Hhud. apply andb_prop in Hhud as [_ Hv].
        destruct below.1 as [z' v' cs']. unfold set_visible. simpl in *.
        congruence. }
      by rewrite restore_in_child, Hbelow.
    - change (restoreHudElements [] ?c) with c.
      by rewrite restore_in_child, Hbelow. }
  transitivity
    (restoreHudElements (hide_children hideHudElements (S (length pre)) rest).2
       (mkContainer z v
          (pre ++ child
               :: (hide_children hideHudElements (S (length pre)) rest).1))).
  { f_equal. exact Hhere. }
  specialize (IH (pre ++ [child])).
  rewrite length_app in IH. simpl in IH.
  rewrite Nat.add_1_r in IH. rewrite <- !app_assoc in IH. exact IH.
Qed.

Lemma restore_hide (c : Container) :
  restoreHudElements (hideHudElements c).2 (hideHudElements c).1 = c.
Proof.
  induction c as [z v cs IH] using Container_nested_ind.
  rewrite hideHudElements_unfold. simpl.
  apply (restore_children z v cs IH []).
Qed.

(** *** Reading the hidden scene *)

Lemma get_at_hide_deep (r : Ref) (c : Container) :
  get_at r (hide_deep c) = hide_deep <$> get_at r c.
Proof.
  revert c. induction r as [|i r IH]; intros [z v cs]; [done|].
  simpl. rewrite list_lookup_fmap.
  destruct (cs !! i) as [child|]; simpl; [apply IH|done].
Qed.

Lemma get_at_hide_below (r : Ref) (c : Container) :
  r ≠ [] -> get_at r (hide_below c) = hide_deep <$> get_at r c.
Proof.
  intros Hne. destruct r as [|i r]; [done|]. destruct c as [z v cs].
  simpl. rewrite list_lookup_fmap.
  destruct (cs !! i) as [child|]; simpl; [apply get_at_hide_deep|done].
Qed.

(** *** The export, case by case *)

Definition fresh (s : Stage) : World := mkWorld s [] [].

(** The stage as the renderer sees it: rings hidden, scaled to the export
    resolution, at the origin. *)
Definition render_stage (s : Stage) : Stage :=
  mkStage (EXPORT_WIDTH / POSTER_WIDTH, EXPORT_HEIGHT / POSTER_HEIGHT) (0, 0)
    (hideHudElements (container s)).1.

Definition export_failed : Event := console_error "Failed to export canvas:".

Lemma export_body_create_throws (env : Env) (filename : string) (s : Stage) :
  create_throws env = true ->
  export_body env filename (fresh s) =
    (Throw RenderTextureError, mkWorld s [export_failed] []).
Proof.
  intros Hc. unfold export_body, try_catch, mbind, M_bind, bind, call.
  rewrite Hc. reflexivity.
Qed.

Lemma export_body_render_throws (env : Env) (filename : string) (s : Stage) :
  create_throws env = false -> render_throws env = true ->
  export_body env filename (fresh s) =
    (Throw RenderError, mkWorld (render_stage s) [export_failed] []).
Proof.
  intros Hc Hr.
  unfold export_body, try_catch, renderer_render, hide_hud, mbind, M_bind,
    bind, call.
  rewrite Hc, Hr. simpl.
  destruct (hideHudElements (container s)) as [c hidden] eqn:Hh.
  simpl. unfold render_stage. rewrite Hh. reflexivity.
Qed.

Lemma export_body_rendered (env : Env) (filename : string) (s : Stage) :
  create_throws env = false -> render_throws env = false ->
  export_body env filename (fresh s) =
    if extract_throws env then
      (Throw ExtractError,
       mkWorld s [rendered (render_stage s); export_failed] [])
    else if toBlob_throws env then
      (Throw ToBlobError,
       mkWorld s [rendered (render_stage s); extracted; export_failed] [])
    else if destroy_throws env then
      (Throw DestroyError,
       mkWorld s [rendered (render_stage s); extracted; export_failed]
         [mkTask filename])
    else
      (Ok tt,
       mkWorld s [rendered (render_stage s); extracted; texture_destroyed]
         [mkTask filename]).
Proof.
  intros Hc Hr.
  unfold export_body, try_catch, renderer_render, hide_hud, restore_hud,
    mbind, M_bind, bind, call.
  rewrite Hc, Hr. simpl.
  pose proof (restore_hide (container s)) as Hrestore.
  destruct (hideHudElements (container s)) as [c hidden] eqn:Hh.
  simpl in *. unfold render_stage. rewrite Hh, Hrestore. simpl.
  destruct s as [[sx sy] [px py] c0]. simpl.
  destruct (extract_throws env); [reflexivity|]. simpl.
  destruct (toBlob_throws env); [reflexivity|]. simpl.
  destruct (destroy_throws env); reflexivity.
Qed.

Definition invisible_hud (c : Container) : Prop :=
  forall (r : Ref) (n : Container),
    r ≠ [] -> get_at r c = Some n -> (1000 <= zIndex n)%Z -> visible n = false.

Lemma hideHudElements_invisible (c : Container) :
  invisible_hud (hideHudElements c).1.
Proof.
  intros r n Hne Hn Hz. rewrite hideHudElements_state in Hn.
  rewrite get_at_hide_below in Hn by done.
  destruct (get_at r c) as [[z v cs]|]; simpl in Hn; [|done].
  inversion Hn; subst n. simpl in *.
  apply Z.leb_le in Hz. rewrite Hz. by destruct v.
Qed.

Lemma export_rendered_stage (env : Env) (filename : option string)
    (s sr : Stage) :
  rendered sr ∈ events (exportCanvasAsImage env (Some tt) filename (fresh s)).2 ->
  sr = render_stage s.
Proof.
  unfold exportCanvasAsImage.
  destruct (create_throws env) eqn:Hc.
  { rewrite export_body_create_throws by done. simpl.
    intros Hin. apply list_elem_of_singleton in Hin. discriminate. }
  destruct (render_throws env) eqn:Hr.
  { rewrite export_body_render_throws by done. simpl.
    intros Hin. apply list_elem_of_singleton in Hin. discriminate. }
  rewrite export_body_rendered by done.
  destruct (extract_throws env), (toBlob_throws env), (destroy_throws env);
    simpl; rewrite !elem_of_cons, elem_of_nil;
    intros Hin; repeat (destruct Hin as [Hin|Hin]; try discriminate);
    try done; by inversion Hin.
Qed.

(** C3. [hideHudElements] hides exactly the nodes below the container that
    are visible and have a z-index of at least 1000, and returns the list of
    the nodes it hid; so in the stage handed to the renderer during an
    export every node with z-index at least 1000 is invisible. Applying
    [restoreHudElements] to the returned list gives every node the
    [visible] flag it had before [hideHudElements]. *)
Theorem hideHudElements_spec (c : Container) :
  let c' := (hideHudElements c).1 in
  let hidden := (hideHudElements c).2 in
  (forall r : Ref,
     r ∈ hidden <->
     r ≠ [] /\ exists n, get_at r c = Some n /\
                         (zIndex n >= 1000)%Z /\ visible n = true) /\
  (forall (r : Ref) (n : Container),
     get_at r c = Some n ->
     exists n', get_at r c' = Some n' /\ zIndex n' = zIndex n /\
                length (children n') = length (children n) /\
                visible n' = if bool_decide (r ∈ hidden) then false
                             else visible n) /\
  (forall r : Ref, get_at r c = None -> get_at r c' = None) /\
  invisible_hud c' /\
  (forall (env : Env) (filename : option string) (s sr : Stage),
     rendered sr
       ∈ events (exportCanvasAsImage env (Some tt) filename (fresh s)).2 ->
     invisible_hud (container sr)) /\
  restoreHudElements hidden c' = c.
Proof.
  intros c' hidden.
  assert (forall r : Ref,
            r ∈ hidden <->
            r ≠ [] /\ exists n, get_at r c = Some n /\
                                (zIndex n >= 1000)%Z /\ visible n = true)
    as Hrefs.
  { intros r. unfold hidden. rewrite hideHudElements_refs. unfold hud_at, is_hud.
    split; intros [Hne (n & Hn & Hhud)]; (split; [done|]); exists n;
      (split; [done|]).
    - apply andb_prop in Hhud as [Hz Hv]. apply Z.leb_le in Hz. split; [lia|done].
    - destruct Hhud as [Hz Hv]. apply andb_true_intro. split; [|done].
      apply Z.leb_le. lia. }
  split; [exact Hrefs|]. split; [|split; [|split; [|split]]].
  - intros r n Hn. unfold c'. rewrite hideHudElements_state.
    destruct (decide (r = [])) as [->|Hne].
    + simpl in Hn. inversion Hn; subst n. exists (hide_below c).
      split; [done|]. unfold hide_below. simpl.
      rewrite length_fmap. repeat split; [].
      rewrite bool_decide_eq_false_2; [done|].
      intros Hin. apply Hrefs in Hin as [Hne _]. done.
    + rewrite get_at_hide_below, Hn by done. simpl.
      exists (hide_deep n). split; [done|].
      destruct n as [z v cs]. simpl. rewrite length_fmap. repeat split; [].
      destruct (bool_decide (r ∈ hidden)) eqn:Hdec.
      * apply bool_decide_eq_true in Hdec. apply Hrefs in Hdec
          as [_ (n' & Hn' & Hz & Hv)].
        rewrite Hn in Hn'. inversion Hn'; subst n'. simpl in *.
        assert ((1000 <=? z)%Z = true) as -> by (apply Z.leb_le; lia).
        by rewrite andb_false_r.
      * apply bool_decide_eq_false in Hdec.
        destruct (1000 <=? z)%Z eqn:Hz; [|by rewrite andb_true_r].
        destruct v; [|done]. exfalso. apply Hdec, Hrefs. split; [done|].
        eexists. split; [done|]. simpl. apply Z.leb_le in Hz. split; [lia|done].
  - intros r Hr. unfold c'. rewrite hideHudElements_state.
    destruct (decide (r = [])) as [->|Hne]; [done|].
    by rewrite get_at_hide_below, Hr.
  - apply hideHudElements_invisible.
  - intros env filename s sr Hin.
    apply export_rendered_stage in Hin as ->. apply hideHudElements_invisible.
  - apply restore_hide.
Qed.

(** A board with two slots, the first selected: the walk hides the ring of
    the first slot and an overlay with a ring of its own, and leaves the
    ring that was already invisible alone. *)
Definition example_scene : Container :=
  mkContainer 0 true
    [ mkContainer 0 true [];
      mkContainer 0 true
        [ mkContainer 500 true [mkContainer 1 true []; mkContainer 1000 true []];
          mkContainer 50 true [mkContainer 1 true []; mkContainer 1000 false []];
          mkContainer 2000 true [mkContainer 1000 true []] ] ].

Example hideHudElements_example :
  hideHudElements example_scene =
    (mkContainer 0 true
       [ mkContainer 0 true [];
         mkContainer 0 true
           [ mkContainer 500 true
               [mkContainer 1 true []; mkContainer 1000 false []];
             mkContainer 50 true
               [mkContainer 1 true []; mkContainer 1000 false []];
             mkContainer 2000 false [mkContainer 1000 false []] ] ],
     [[1; 0; 1]; [1; 2]; [1; 2; 0]]%nat).
Proof. reflexivity. Qed.

Lemma hideHudElements_spec_witness :
  [1; 0; 1]%nat ∈ (hideHudElements example_scene).2 /\
  restoreHudElements (hideHudElements example_scene).2
    (hideHudElements example_scene).1 = example_scene.
Proof.
  destruct (hideHudElements_spec example_scene) as (Hrefs & _ & _ & _ & _ & Hrestore).
  split; [|exact Hrestore].
  apply Hrefs. split; [done|].
  exists (mkContainer 1000 true []).
  split; [reflexivity|]. split; [simpl; lia|reflexivity].
Defined.

(** *** How the promise settles *)

(** The first call that throws, in the order of the [try] block. *)
Definition first_throw (env : Env) : option Error :=
  if create_throws env then Some RenderTextureError
  else if render_throws env then Some RenderError
  else if extract_throws env then Some ExtractError
  else if toBlob_throws env then Some ToBlobError
  else if destroy_throws env then Some DestroyError
  else None.

Lemma export_outcome (env : Env) (filename : option string) (s : Stage) :
  (exportCanvasAsImage env (Some tt) filename (fresh s)).1 =
    match first_throw env with
    | Some e => Rejected e
    | None => Resolved
    end.
Proof.
  unfold exportCanvasAsImage, first_throw.
  destruct (create_throws env) eqn:Hc.
  { by rewrite export_body_create_throws. }
  destruct (render_throws env) eqn:Hr.
  { by rewrite export_body_render_throws. }
  rewrite export_body_rendered by done.
  by destruct (extract_throws env), (toBlob_throws env), (destroy_throws env).
Qed.

Lemma export_no_click_at_settle (env : Env) (app : option unit)
    (filename : option string) (s : Stage) :
  ¬ download_initiated
      (events (exportCanvasAsImage env app filename (fresh s)).2).
Proof.
  intros [name Hin]. revert Hin. unfold exportCanvasAsImage.
  destruct app as [[]|].
  2:{ simpl. intros Hin. apply list_elem_of_singleton in Hin. discriminate. }
  destruct (create_throws env) eqn:Hc.
  { rewrite export_body_create_throws by done. simpl.
    intros Hin. apply list_elem_of_singleton in Hin. discriminate. }
  destruct (render_throws env) eqn:Hr.
  { rewrite export_body_render_throws by done. simpl.
    intros Hin. apply list_elem_of_singleton in Hin. discriminate. }
  rewrite export_body_rendered by done.
  destruct (extract_throws env), (toBlob_throws env), (destroy_throws env);
    simpl; rewrite !elem_of_cons, elem_of_nil;
    intros Hin; repeat (destruct Hin as [Hin|Hin]; try discriminate); done.
Qed.

(** The tasks in the queue when the promise settles. *)
Lemma export_tasks (env : Env) (app : option unit) (filename : option string)
    (s : Stage) :
  tasks (exportCanvasAsImage env app filename (fresh s)).2 =
    match app with
    | None => []
    | Some _ =>
        if create_throws env || render_throws env || extract_throws env
           || toBlob_throws env
        then []
        else [mkTask (default "vision-board.png" filename)]
    end.
Proof.
  unfold exportCanvasAsImage. destruct app as [[]|]; [|done].
  destruct (create_throws env) eqn:Hc.
  { by rewrite export_body_create_throws. }
  destruct (render_throws env) eqn:Hr.
  { by rewrite export_body_render_throws. }
  rewrite export_body_rendered by done.
  by destruct (extract_throws env), (toBlob_throws env), (destroy_throws env).
Qed.

Lemma drain_download (env : Env) (w : World) :
  download_initiated (events (drain env w)) <->
  download_initiated (events w) \/ (tasks w ≠ [] /\ blob env ≠ None).
Proof.
  unfold download_initiated, drain. simpl. split.
  - intros [name Hin]. apply elem_of_app in Hin as [Hin|Hin]; [left; eauto|].
    right. apply list_elem_of_bind in Hin as (t & Hin & Ht).
    split; [intros Hnil; rewrite Hnil in Ht; by apply elem_of_nil in Ht|].
    unfold run_task in Hin. destruct (blob env); [done|].
    apply list_elem_of_singleton in Hin. discriminate.
  - intros [[name Hin]|[Hne Hblob]].
    + exists name. apply elem_of_app. by left.
    + destruct (tasks w) as [|t ts] eqn:Ht; [done|].
      exists (task_filename t). apply elem_of_app. right.
      apply list_elem_of_bind. exists t. split; [|by left].
      unfold run_task. destruct (blob env); [|done].
      rewrite !elem_of_cons. auto 10.
Qed.

(** The claim in the words of the specification: the promise rejects when
    the application is [null] or no blob is produced, and resolves only once
    the download has been initiated. *)
Definition stated_rejection (env : Env) (app : option unit)
    (filename : option string) (s : Stage) : Prop :=
  app = None \/ blob env = None ->
  exists e, (exportCanvasAsImage env app filename (fresh s)).1 = Rejected e.

Definition stated_resolution (env : Env) (app : option unit)
    (filename : option string) (s : Stage) : Prop :=
  (exportCanvasAsImage env app filename (fresh s)).1 = Resolved ->
  download_initiated
    (events (exportCanvasAsImage env app filename (fresh s)).2).

(** A board with one selected slot: its ring is the only child. *)
Definition selected_stage : Stage :=
  mkStage (1, 1) (0, 0) (mkContainer 0 true [mkContainer 1000 true []]).

Definition env_ok : Env := mkEnv false false false false false (Some 0%nat).
Definition env_no_blob : Env := mkEnv false false false false false None.
Definition env_render_fails : Env :=
  mkEnv false true false false false (Some 0%nat).

(** C1, as stated, fails: with a [null] application, and with a canvas
    that produces no blob, the promise resolves; and when the export
    succeeds the promise resolves before the download is initiated. *)
Lemma export_promise_as_stated_fails :
  ¬ stated_rejection env_ok None None selected_stage /\
  ¬ stated_rejection env_no_blob (Some tt) None selected_stage /\
  ¬ stated_resolution env_ok (Some tt) None selected_stage.
Proof.
  split; [|split].
  - intros Hrej. destruct Hrej as [e He]; [by left|]. discriminate.
  - intros Hrej. destruct Hrej as [e He]; [by right|].
    rewrite export_outcome in He. discriminate.
  - intros Hres. eapply export_no_click_at_settle. apply Hres.
    by rewrite export_outcome.
Qed.

(** C1, amended. For every export invocation: when the application is
    [null], or when the blob conversion produces no blob, no download is
    initiated and the promise resolves after an error is logged (in the
    second case provided no call of the export throws). The promise rejects
    exactly when a call of the export throws, with the error of the first
    such call, and then no download is initiated unless the throwing call
    is the release of the render texture, after the conversion was
    requested. The promise settles before the callback of the conversion
    runs: no download has been initiated when it resolves, and the download
    is initiated afterwards when a blob is produced. *)
Theorem export_promise (env : Env) (app : option unit)
    (filename : option string) (s : Stage) :
  let run := exportCanvasAsImage env app filename (fresh s) in
  let later := drain env run.2 in
  ¬ download_initiated (events run.2) /\
  (app = None ->
     run.1 = Resolved /\
     events later = [console_error "Application instance is null"] /\
     ¬ download_initiated (events later)) /\
  (app ≠ None ->
     run.1 = match first_throw env with
             | Some e => Rejected e
             | None => Resolved
             end) /\
  (app ≠ None -> blob env = None ->
     ¬ download_initiated (events later) /\
     (first_throw env = None ->
        run.1 = Resolved /\
        console_error "Failed to create blob" ∈ events later)) /\
  (forall e, run.1 = Rejected e -> e ≠ DestroyError ->
     ¬ download_initiated (events later)) /\
  (run.1 = Resolved -> app ≠ None -> blob env ≠ None ->
     anchor_clicked (default "vision-board.png" filename) ∈ events later).
Proof.
  intros run later.
  pose proof (export_no_click_at_settle env app filename s) as Hsettle.
  pose proof (export_tasks env app filename s) as Htasks.
  fold run in Hsettle, Htasks.
  split; [exact Hsettle|]. split; [|split; [|split; [|split]]].
  - intros ->. unfold later, run. simpl. repeat split; [].
    intros [name Hin]. apply list_elem_of_singleton in Hin. discriminate.
  - intros Happ. destruct app as [[]|]; [|done]. apply export_outcome.
  - intros Happ Hblob. destruct app as [[]|]; [|done]. split.
    + unfold later. rewrite drain_download. intros [Hd|[_ Hb]]; done.
    + intros Hnone. split.
      { unfold run. by rewrite export_outcome, Hnone. }
      unfold first_throw in Hnone.
      destruct (create_throws env) eqn:Hc; [done|].
      destruct (render_throws env) eqn:Hr; [done|].
      destruct (extract_throws env) eqn:He; [done|].
      destruct (toBlob_throws env) eqn:Ht; [done|].
      destruct (destroy_throws env) eqn:Hd; [done|].
      unfold later, drain, run, exportCanvasAsImage.
      rewrite export_body_rendered by done. rewrite He, Ht, Hd. simpl.
      unfold run_task. rewrite Hblob. simpl.
      rewrite !elem_of_cons. auto 10.
  - intros e He Hne. unfold later. rewrite drain_download.
    intros [Hd|[Hq _]]; [done|]. apply Hq. rewrite Htasks.
    destruct app as [[]|]; [|done].
    unfold run in He. rewrite export_outcome in He. unfold first_throw in He.
    destruct (create_throws env); [done|].
    destruct (render_throws env); [done|].
    destruct (extract_throws env); [done|].
    destruct (toBlob_throws env); [done|].
    destruct (destroy_throws env); [|done]. simpl in He. congruence.
  - intros Hres Happ Hblob. destruct app as [[]|]; [|done].
    unfold run in Hres. rewrite export_outcome in Hres.
    unfold first_throw in Hres.
    destruct (create_throws env) eqn:Hc; [done|].
    destruct (render_throws env) eqn:Hr; [done|].
    destruct (extract_throws env) eqn:He; [done|].
    destruct (toBlob_throws env) eqn:Ht; [done|].
    destruct (destroy_throws env) eqn:Hd; [done|].
    unfold later, drain, run, exportCanvasAsImage.
    rewrite export_body_rendered by done. rewrite He, Ht, Hd. simpl.
    unfold run_task. destruct (blob env); [|done]. simpl.
    rewrite !elem_of_cons. auto 10.
Qed.

Lemma export_promise_witness :
  (exportCanvasAsImage env_ok None None (fresh selected_stage)).1 = Resolved /\
  (exportCanvasAsImage env_render_fails (Some tt) None (fresh selected_stage)).1
    = Rejected RenderError /\
  anchor_clicked "vision-board.png"
    ∈ events (drain env_ok
                (exportCanvasAsImage env_ok (Some tt) None
                   (fresh selected_stage)).2).
Proof.
  destruct (export_promise env_ok None None selected_stage)
    as (_ & Hnull & _).
  destruct (export_promise env_render_fails (Some tt) None selected_stage)
    as (_ & _ & Hrej & _).
  destruct (export_promise env_ok (Some tt) None selected_stage)
    as (_ & _ & Hres & _ & _ & Hclick).
  split; [by apply Hnull|]. split; [by apply Hrej|].
  apply Hclick; [|done..]. by rewrite Hres.
Defined.

(** *** The stage after the export *)

Lemma export_restores_stage (env : Env) (app : option unit)
    (filename : option string) (s : Stage) :
  create_throws env = true \/ render_throws env = false ->
  stage (exportCanvasAsImage env app filename (fresh s)).2 = s.
Proof.
  intros Henv. unfold exportCanvasAsImage. destruct app as [[]|]; [|done].
  destruct (create_throws env) eqn:Hc.
  { by rewrite export_body_create_throws. }
  destruct Henv as [?|Hr]; [done|].
  rewrite export_body_rendered by done.
  by destruct (extract_throws env), (toBlob_throws env), (destroy_throws env).
Qed.

(** C2 at the input where it fails: the renderer throws during the
    offscreen render of a board with a selected slot. The promise rejects,
    and the stage keeps the export scale and the ring stays hidden. *)
Theorem export_render_failure_not_restored :
  let run :=
    exportCanvasAsImage env_render_fails (Some tt) None (fresh selected_stage) in
  run.1 = Rejected RenderError /\
  scale selected_stage = (1, 1) /\
  scale (stage run.2) = (3, 3) /\
  scale (stage run.2) ≠ scale selected_stage /\
  get_at [0%nat] (container selected_stage) = Some (mkContainer 1000 true []) /\
  get_at [0%nat] (container (stage run.2)) = Some (mkContainer 1000 false []) /\
  stage run.2 ≠ selected_stage.
Proof.
  intros run.
  assert (run = (Rejected RenderError,
                 mkWorld (render_stage selected_stage) [export_failed] []))
    as Hrun.
  { unfold run, exportCanvasAsImage.
    by rewrite export_body_render_throws. }
  rewrite Hrun. simpl.
  assert (EXPORT_WIDTH / POSTER_WIDTH = 3) as Hx
    by (unfold EXPORT_WIDTH, POSTER_WIDTH; lra).
  assert (EXPORT_HEIGHT / POSTER_HEIGHT = 3) as Hy
    by (unfold EXPORT_HEIGHT, POSTER_HEIGHT; lra).
  rewrite Hx, Hy.
  repeat split; try done.
  intros Heq. inversion Heq. lra.
Qed.

End CanvasExport.

(** ** [types.ts]: effects of a slot *)

Module Effects.
Import JsMath Types.

Record Config := mkConfig {
  core : SlotConfig;
  dreams : list SlotConfig;
}.

(** [a !== b] on numbers. *)
Definition neqb (a b : R) : bool := if Req_dec_T a b then false else true.

Definition hasCustomEffects (config : SlotConfig) : bool :=
  neqb (size config) (size DEFAULT_SLOT_CONFIG) ||
  neqb (zoom config) (zoom DEFAULT_SLOT_CONFIG) ||
  neqb (opacity config) (opacity DEFAULT_SLOT_CONFIG) ||
  neqb (blur config) (blur DEFAULT_SLOT_CONFIG) ||
  neqb (glowIntensity config) (glowIntensity DEFAULT_SLOT_CONFIG) ||
  neqb (offsetX config) (offsetX DEFAULT_SLOT_CONFIG) ||
  neqb (offsetY config) (offsetY DEFAULT_SLOT_CONFIG) ||
  neqb (rotation config) (rotation DEFAULT_SLOT_CONFIG) ||
  neqb (saturation config) (saturation DEFAULT_SLOT_CONFIG) ||
  neqb (brightness config) (brightness DEFAULT_SLOT_CONFIG) ||
  neqb (contrast config) (contrast DEFAULT_SLOT_CONFIG).

(** [{ ...DEFAULT_SLOT_CONFIG, image: config.image, positionIndex:
    config.positionIndex }] *)
Definition resetEffects (config : SlotConfig) : SlotConfig := {|
  image := image config;
  size := size DEFAULT_SLOT_CONFIG;
  zoom := zoom DEFAULT_SLOT_CONFIG;
  opacity := opacity DEFAULT_SLOT_CONFIG;
  blur := blur DEFAULT_SLOT_CONFIG;
  glowIntensity := glowIntensity DEFAULT_SLOT_CONFIG;
  offsetX := offsetX DEFAULT_SLOT_CONFIG;
  offsetY := offsetY DEFAULT_SLOT_CONFIG;
  rotation := rotation DEFAULT_SLOT_CONFIG;
  saturation := saturation DEFAULT_SLOT_CONFIG;
  brightness := brightness DEFAULT_SLOT_CONFIG;
  contrast := contrast DEFAULT_SLOT_CONFIG;
  positionIndex := positionIndex config;
|}.

(** [Partial<Omit<SlotConfig, 'image'>>]: a key that is absent is [None]. *)
Record PartialEffects := mkPartialEffects {
  p_size : option R;
  p_zoom : option R;
  p_opacity : option R;
  p_blur : option R;
  p_glowIntensity : option R;
  p_offsetX : option R;
  p_offsetY : option R;
  p_rotation : option R;
  p_saturation : option R;
  p_brightness : option R;
  p_contrast : option R;
  p_positionIndex : option Z;
}.

Definition no_effects : PartialEffects :=
  mkPartialEffects None None None None None None None None None None None None.

(** [{ ...config, ...effects }]: the keys of [effects] override. *)
Definition spread_effects (config : SlotConfig) (effects : PartialEffects)
    : SlotConfig := {|
  image := image config;
  size := default (size config) (p_size effects);
  zoom := default (zoom config) (p_zoom effects);
  opacity := default (opacity config) (p_opacity effects);
  blur := default (blur config) (p_blur effects);
  glowIntensity := default (glowIntensity config) (p_glowIntensity effects);
  offsetX := default (offsetX config) (p_offsetX effects);
  offsetY := default (offsetY config) (p_offsetY effects);
  rotation := default (rotation config) (p_rotation effects);
  saturation := default (saturation config) (p_saturation effects);
  brightness := default (brightness config) (p_brightness effects);
  contrast := default (contrast config) (p_contrast effects);
  positionIndex := default (positionIndex config) (p_positionIndex effects);
|}.

Record EffectPreset := mkEffectPreset {
  name : string;
  description : string;
  effects : PartialEffects;
}.

(** [{ ...DEFAULT_SLOT_CONFIG, image: config.image, positionIndex:
    config.positionIndex, ...preset.effects }] *)
Definition applyPreset (config : SlotConfig) (preset : EffectPreset)
    : SlotConfig :=
  spread_effects (resetEffects config) (effects preset).

Definition EFFECT_PRESETS : list EffectPreset :=
  [ mkEffectPreset "Dreamy" "Soft, ethereal look"
      {| p_size := None; p_zoom := None; p_opacity := None;
         p_blur := Some 3; p_glowIntensity := Some 0.6;
         p_offsetX := None; p_offsetY := None; p_rotation := None;
         p_saturation := Some 0.85; p_brightness := Some 1.1;
         p_contrast := None; p_positionIndex := None |};
    mkEffectPreset "Vibrant" "Bold and colorful"
      {| p_size := None; p_zoom := None; p_opacity := None;
         p_blur := None; p_glowIntensity := Some 0.4;
         p_offsetX := None; p_offsetY := None; p_rotation := None;
         p_saturation := Some 1.4; p_brightness := Some 1.05;
         p_contrast := Some 1.2; p_positionIndex := None |};
    mkEffectPreset "Moody" "Dark and dramatic"
      {| p_size := None; p_zoom := None; p_opacity := None;
         p_blur := None; p_glowIntensity := Some 0.15;
         p_offsetX := None; p_offsetY := None; p_rotation := None;
         p_saturation := Some 0.7; p_brightness := Some 0.85;
         p_contrast := Some 1.3; p_positionIndex := None |};
    mkEffectPreset "Ethereal Glow" "Strong mystical aura"
      {| p_size := None; p_zoom := None; p_opacity := Some 0.95;
         p_blur := Some 2; p_glowIntensity := Some 1.2;
         p_offsetX := None; p_offsetY := None; p_rotation := None;
         p_saturation := None; p_brightness := Some 1.1;
         p_contrast := None; p_positionIndex := None |};
    mkEffectPreset "Subtle" "Understated presence"
      {| p_size := Some 0.85; p_zoom := None; p_opacity := Some 0.7;
         p_blur := None; p_glowIntensity := Some 0.15;
         p_offsetX := None; p_offsetY := None; p_rotation := None;
         p_saturation := None; p_brightness := None;
         p_contrast := None; p_positionIndex := None |};
    mkEffectPreset "Bold Center" "Prominent and large"
      {| p_size := Some 1.3; p_zoom := None; p_opacity := None;
         p_blur := None; p_glowIntensity := Some 0.5;
         p_offsetX := None; p_offsetY := None; p_rotation := None;
         p_saturation := None; p_brightness := None;
         p_contrast := Some 1.1; p_positionIndex := None |} ].

Lemma neqb_false (a b : R) : neqb a b = false <-> a = b.
Proof. unfold neqb. destruct (Req_dec_T a b); split; (done || congruence). Qed.

Lemma neqb_true (a b : R) : neqb a b = true <-> a <> b.
Proof. unfold neqb. destruct (Req_dec_T a b); split; (done || congruence). Qed.

Lemma hasCustomEffects_false (config : SlotConfig) :
  hasCustomEffects config = false <->
  size config = 1.0 /\ zoom config = 1.0 /\ opacity config = 1.0 /\
  blur config = 0 /\ glowIntensity config = 0.25 /\ offsetX config = 0 /\
  offsetY config = 0 /\ rotation config = 0 /\ saturation config = 1.0 /\
  brightness config = 1.0 /\ contrast config = 1.0.
Proof.
  unfold hasCustomEffects. rewrite !orb_false_iff, !neqb_false. simpl.
  tauto.
Qed.

(** Resetting a slot keeps its image and its position, leaves no custom
    effect, and resetting again changes nothing. *)
Theorem resetEffects_clears (config : SlotConfig) :
  image (resetEffects config) = image config /\
  positionIndex (resetEffects config) = positionIndex config /\
  hasCustomEffects (resetEffects config) = false /\
  resetEffects (resetEffects config) = resetEffects config.
Proof.
  split; [done|]. split; [done|]. split; [|done].
  apply hasCustomEffects_false. simpl. repeat split; reflexivity.
Qed.

(** A slot has no custom effects exactly when resetting its effects leaves
    it unchanged. *)
Theorem hasCustomEffects_iff_reset (config : SlotConfig) :
  hasCustomEffects config = false <-> resetEffects config = config.
Proof.
  rewrite hasCustomEffects_false. destruct config. unfold resetEffects. simpl.
  split.
  - intros (-> & -> & -> & -> & -> & -> & -> & -> & -> & -> & ->). reflexivity.
  - intros Heq. inversion Heq. repeat split; congruence.
Qed.

(** Applying a preset keeps the image, gives each of the eleven effects the
    value of the preset or else the default, and so does not depend on the
    effects the slot had: applying it after a reset, or a second time,
    gives the same slot. The position is kept unless the preset names
    one. *)
Theorem applyPreset_overrides (config : SlotConfig) (preset : EffectPreset) :
  let slot := applyPreset config preset in
  image slot = image config /\
  size slot =
    default (size DEFAULT_SLOT_CONFIG) (p_size (effects preset)) /\
  zoom slot =
    default (zoom DEFAULT_SLOT_CONFIG) (p_zoom (effects preset)) /\
  opacity slot =
    default (opacity DEFAULT_SLOT_CONFIG) (p_opacity (effects preset)) /\
  blur slot =
    default (blur DEFAULT_SLOT_CONFIG) (p_blur (effects preset)) /\
  glowIntensity slot =
    default (glowIntensity DEFAULT_SLOT_CONFIG) (p_glowIntensity (effects preset)) /\
  offsetX slot =
    default (offsetX DEFAULT_SLOT_CONFIG) (p_offsetX (effects preset)) /\
  offsetY slot =
    default (offsetY DEFAULT_SLOT_CONFIG) (p_offsetY (effects preset)) /\
  rotation slot =
    default (rotation DEFAULT_SLOT_CONFIG) (p_rotation (effects preset)) /\
  saturation slot =
    default (saturation DEFAULT_SLOT_CONFIG) (p_saturation (effects preset)) /\
  brightness slot =
    default (brightness DEFAULT_SLOT_CONFIG) (p_brightness (effects preset)) /\
  contrast slot =
    default (contrast DEFAULT_SLOT_CONFIG) (p_contrast (effects preset)) /\
  positionIndex slot =
    default (positionIndex config) (p_positionIndex (effects preset)) /\
  applyPreset (resetEffects config) preset = slot /\
  applyPreset slot preset = slot.
Proof.
  intros slot. do 14 (split; [reflexivity|]).
  unfold slot, applyPreset, spread_effects, resetEffects. simpl. f_equal.
  destruct (p_positionIndex (effects preset)); reflexivity.
Qed.

(** Every built-in preset leaves the image, the position, the zoom, the
    offsets and the rotation of a slot alone (the last three at their
    defaults), and the slot it produces has custom effects. *)
Theorem builtin_presets_keep_placement (config : SlotConfig)
    (preset : EffectPreset) :
  preset ∈ EFFECT_PRESETS ->
  image (applyPreset config preset) = image config /\
  positionIndex (applyPreset config preset) = positionIndex config /\
  zoom (applyPreset config preset) = 1.0 /\
  offsetX (applyPreset config preset) = 0 /\
  offsetY (applyPreset config preset) = 0 /\
  rotation (applyPreset config preset) = 0 /\
  hasCustomEffects (applyPreset config preset) = true.
Proof.
  unfold EFFECT_PRESETS. rewrite !elem_of_cons, elem_of_nil.
  intros Hin.
  repeat (destruct Hin as [->|Hin];
          [repeat (split; [reflexivity|]);
           unfold hasCustomEffects; simpl;
           rewrite !orb_true_iff, !neqb_true; simpl;
           first [ left; lra
                 | do 3 right; left; lra
                 | do 2 right; left; lra
                 | do 4 right; left; lra
                 | tauto ]|]).
  done.
Qed.

Lemma builtin_presets_keep_placement_witness :
  positionIndex (applyPreset (createSlotConfig 7)
                   (mkEffectPreset "Dreamy" "Soft, ethereal look"
                      {| p_size := None; p_zoom := None; p_opacity := None;
                         p_blur := Some 3; p_glowIntensity := Some 0.6;
                         p_offsetX := None; p_offsetY := None; p_rotation := None;
                         p_saturation := Some 0.85; p_brightness := Some 1.1;
                         p_contrast := None; p_positionIndex := None |})) = 7%Z.
Proof.
  apply (builtin_presets_keep_placement (createSlotConfig 7)).
  unfold EFFECT_PRESETS. by left.
Defined.

End Effects.

(** ** Slot identifiers: the strings ["core"] and ["dream-<positionIndex>"] *)

From Stdlib Require Import Ascii.
From Stdlib Require DecimalString DecimalZ DecimalPos DecimalN Decimal.

Module SlotIds.

(** A character of a string is a code unit below 256. *)

(** [s.split(sep)] for a separator of one character. *)
Fixpoint split (sep : ascii) (s : string) : list string :=
  match s with
  | EmptyString => [EmptyString]
  | String c rest =>
      if Ascii.eqb c sep then EmptyString :: split sep rest
      else
        match split sep rest with
        | piece :: pieces => String c piece :: pieces
        | [] => [String c EmptyString]
        end
  end.

(** [s.startsWith(p)] *)
Definition startsWith (p s : string) : bool := String.prefix p s.

(** White space that [parseInt] skips, among the code units below 256:
    TAB, LF, VT, FF, CR, SP and NBSP. *)
Definition is_white_space (c : ascii) : bool :=
  let n := nat_of_ascii c in
  bool_decide (n = 9 \/ n = 10 \/ n = 11 \/ n = 12 \/ n = 13 \/ n = 32 \/ n = 160)%nat.

Definition digit_of (c : ascii) : option Z :=
  let n := nat_of_ascii c in
  if bool_decide (48 <= n <= 57)%nat then Some (Z.of_nat (n - 48)) else None.

Fixpoint skip_white_space (s : string) : string :=
  match s with
  | String c rest => if is_white_space c then skip_white_space rest else s
  | EmptyString => s
  end.

(** The value of the longest prefix of decimal digits, read after [acc]. *)
Fixpoint digits_acc (s : string) (acc : Z) : Z :=
  match s with
  | String c rest =>
      match digit_of c with
      | Some d => digits_acc rest (10 * acc + d)
      | None => acc
      end
  | EmptyString => acc
  end.

Definition starts_with_digit (s : string) : bool :=
  match s with
  | String c _ => bool_decide (is_Some (digit_of c))
  | EmptyString => false
  end.

(** [parseInt(s, 10)]; [None] is [NaN]. *)
Definition parseInt (s : string) : option Z :=
  let s := skip_white_space s in
  let '(sign, s) :=
    match s with
    | String "-" rest => ((-1)%Z, rest)
    | String "+" rest => (1%Z, rest)
    | _ => (1%Z, s)
    end in
  if starts_with_digit s then Some (sign * digits_acc s 0)%Z else None.

(** [`${n}`] for a number that is an integer: its decimal notation (for a
    safe integer, see [safe_integer] below). *)
Definition number_to_string (n : Z) : string :=
  DecimalString.NilZero.string_of_int (Z.to_int n).

(** [x || d] on strings and [undefined]: the empty string is falsy. *)
Definition or_string (x : option string) (d : string) : string :=
  match x with
  | Some EmptyString | None => d
  | Some s => s
  end.

Definition dream_id (positionIndex : Z) : string :=
  String.append "dream-" (number_to_string positionIndex).

(** [parseInt(slotId.split("-")[1] || "0", 10)] *)
Definition parse_position (slotId : string) : option Z :=
  parseInt (or_string (split "-" slotId !! 1%nat) "0").

Example split_dream : split "-" "dream-12" = ["dream"; "12"].
Proof. reflexivity. Qed.
Example split_negative : split "-" "dream--1" = ["dream"; ""; "1"].
Proof. reflexivity. Qed.
Example parse_12 : parse_position "dream-12" = Some 12%Z.
Proof. reflexivity. Qed.
Example parse_neg : parse_position (dream_id (-1)) = Some 0%Z.
Proof. reflexivity. Qed.
Example parse_junk : parse_position "dream-x" = None.
Proof. reflexivity. Qed.
Example parse_ws : parseInt "  -42px" = Some (-42)%Z.
Proof. reflexivity. Qed.
Example parse_none : parse_position "dream" = Some 0%Z.
Proof. reflexivity. Qed.


Section decimal.
Import Decimal.

Abbreviation digits := DecimalString.NilEmpty.string_of_uint.

Lemma digits_acc_pos (d : uint) (acc : positive) :
  digits_acc (digits d) (Z.pos acc) = Z.pos (Pos.of_uint_acc d acc).
Proof.
  revert acc. induction d; intros acc; simpl; try done;
    rewrite <- IHd; f_equal; lia.
Qed.

Lemma digits_acc_0 (d : uint) :
  digits_acc (digits d) 0 = Z.of_N (Pos.of_uint d).
Proof.
  induction d; simpl; try done;
    match goal with
    | |- digits_acc _ ?a = _ =>
        let v := eval cbv in a in change a with v
    end;
    by rewrite digits_acc_pos.
Qed.

Lemma split_digits (d : uint) : split "-" (digits d) = [digits d].
Proof. induction d; simpl; try done; by rewrite IHd. Qed.

Lemma digits_head (d : uint) :
  d <> Nil ->
  starts_with_digit (digits d) = true /\
  skip_white_space (digits d) = digits d /\
  digits d <> EmptyString /\
  (forall rest, digits d <> String "-" rest) /\
  (forall rest, digits d <> String "+" rest).
Proof. destruct d; done. Qed.

Lemma to_uint_not_Nil (p : positive) : Pos.to_uint p <> Nil.
Proof.
  intros Hnil. pose proof (DecimalPos.Unsigned.of_to p) as Hp.
  rewrite Hnil in Hp. done.
Qed.

Lemma parseInt_digits (d : uint) :
  d <> Nil -> parseInt (digits d) = Some (Z.of_N (Pos.of_uint d)).
Proof.
  intros Hd. destruct (digits_head d Hd) as (Hstart & Hws & _ & Hminus & Hplus).
  unfold parseInt. rewrite Hws.
  destruct (digits d) as [|c rest] eqn:Hs; [done|].
  destruct (decide (c = "-"%char)) as [->|Hm]; [by destruct (Hminus rest)|].
  destruct (decide (c = "+"%char)) as [->|Hp]; [by destruct (Hplus rest)|].
  assert ((let '(sign, s) :=
             match String c rest with
             | String "-" r => ((-1)%Z, r)
             | String "+" r => (1%Z, r)
             | _ => (1%Z, String c rest)
             end in
           if starts_with_digit s then Some (sign * digits_acc s 0)%Z else None)
          = (if starts_with_digit (String c rest)
             then Some (1 * digits_acc (String c rest) 0)%Z else None)) as ->.
  { destruct c as [[] [] [] [] [] [] [] []]; done. }
  rewrite Hstart, <- Hs, digits_acc_0. f_equal. lia.
Qed.

End decimal.

Lemma string_of_uint_digits (d : Decimal.uint) :
  d <> Decimal.Nil ->
  DecimalString.NilZero.string_of_uint d =
    DecimalString.NilEmpty.string_of_uint d.
Proof. by destruct d. Qed.

Lemma split_not_nil (sep : ascii) (s : string) : split sep s <> [].
Proof.
  destruct s as [|c s]; simpl; [done|].
  destruct (Ascii.eqb c sep); [done|]. by destruct (split sep s).
Qed.

Lemma split_dream_prefix (s : string) :
  split "-" (String.append "dream-" s) = "dream" :: split "-" s.
Proof.
  change (String.append "dream-" s)
    with (String "d" (String "r" (String "e" (String "a" (String "m"
            (String "-" s)))))).
  simpl. pose proof (split_not_nil "-" s). by destruct (split "-" s).
Qed.

Lemma dream_id_parsed (n : Z) :
  parse_position (dream_id n) = Some (Z.max 0 n).
Proof.
  unfold parse_position, dream_id. rewrite split_dream_prefix.
  unfold number_to_string.
  destruct n as [|p|p]; simpl Z.to_int; cbv iota.
  - reflexivity.
  - unfold DecimalString.NilZero.string_of_int.
    pose proof (to_uint_not_Nil p) as Hp.
    rewrite string_of_uint_digits, split_digits by done. simpl.
    destruct (digits_head (Pos.to_uint p) Hp) as (_ & _ & Hne & _).
    destruct (DecimalString.NilEmpty.string_of_uint (Pos.to_uint p)) eqn:Hs;
      [done|].
    simpl. rewrite <- Hs, parseInt_digits by done.
    rewrite DecimalPos.Unsigned.of_to. reflexivity.
  - reflexivity.
Qed.

Lemma dream_id_prefix (n : Z) : startsWith "dream-" (dream_id n) = true.
Proof. unfold startsWith, dream_id. simpl. by destruct (number_to_string n). Qed.

(** The positions the identifiers are stated for: the safe integers
    ([Number.isSafeInteger]), up to [2^53 - 1] in magnitude. Each of them is
    a number, and [`${n}`] is its decimal notation. Above, not every
    integer is a number and the digits printed are the shortest that read
    back; from [10^21] on, [`${n}`] is in exponent notation (["1e+21"]).
    [number_to_string] models neither. *)
Definition safe_integer (n : Z) : Prop := (Z.abs n <= 2 ^ 53 - 1)%Z.

(** An identifier built from a safe integer position that is not negative
    is parsed back to that position; one built from a negative position is
    parsed to 0, because its second piece, between the two dashes, is
    empty. *)
Theorem parse_position_dream_id (n : Z) :
  safe_integer n ->
  parse_position (dream_id n) = Some (Z.max 0 n) /\
  startsWith "dream-" (dream_id n) = true /\
  dream_id n <> "core".
Proof.
  intros _. split; [apply dream_id_parsed|]. split; [apply dream_id_prefix|].
  unfold dream_id. simpl. discriminate.
Qed.

Lemma parse_position_dream_id_witness :
  parse_position "dream-12" = Some 12%Z /\ parse_position "dream--4" = Some 0%Z.
Proof.
  split.
  - apply (parse_position_dream_id 12). unfold safe_integer. lia.
  - apply (parse_position_dream_id (-4)). unfold safe_integer. lia.
Defined.

End SlotIds.

(** ** [App.tsx]: the editor state and its handlers *)

From stdpp Require Import sorting.

Module Editor.
Import JsMath Types Effects SlotIds.

(** The state of the [App] component that the handlers read and set, with
    the configurations handed to [debouncedSave] and the messages written
    with [console.error], both in order. *)
Record AppState := mkAppState {
  images : list string;
  config : Config;
  selectedSlot : option string;
  copiedEffects : option PartialEffects;
  saves : list Config;
  console : list string;
}.

Definition set_config (c : Config) (st : AppState) : AppState :=
  mkAppState (images st) c (selectedSlot st) (copiedEffects st)
    (saves st) (console st).

Definition set_selectedSlot (s : option string) (st : AppState) : AppState :=
  mkAppState (images st) (config st) s (copiedEffects st)
    (saves st) (console st).

Definition set_copiedEffects (e : option PartialEffects) (st : AppState)
    : AppState :=
  mkAppState (images st) (config st) (selectedSlot st) e
    (saves st) (console st).

Definition set_images (l : list string) (st : AppState) : AppState :=
  mkAppState l (config st) (selectedSlot st) (copiedEffects st)
    (saves st) (console st).

Definition debouncedSave (c : Config) (st : AppState) : AppState :=
  mkAppState (images st) (config st) (selectedSlot st) (copiedEffects st)
    (saves st ++ [c]) (console st).

Definition console_error (message : string) (st : AppState) : AppState :=
  mkAppState (images st) (config st) (selectedSlot st) (copiedEffects st)
    (saves st) (console st ++ [message]).

(** [new Set(config.dreams.map((d) => d.positionIndex))] *)
Definition usedPositions (cfg : Config) : list Z :=
  positionIndex <$> dreams cfg.

Definition getAvailablePositions (st : AppState) : list Z :=
  filter (fun i => i ∉ usedPositions (config st))
    (Z.of_nat <$> seq 0 TOTAL_DREAM_POSITIONS).

(** [dreams.find((d) => d.positionIndex === positionIndex)]; the position
    is [None] when it is [NaN], which equals no number. *)
Definition find_position (positionIndex : option Z) (dreams : list SlotConfig)
    : option SlotConfig :=
  match positionIndex with
  | Some p => list_find (fun d => Types.positionIndex d = p) dreams ≫= Some ∘ snd
  | None => None
  end.

Definition getSlotByPosition (st : AppState) (positionIndex : Z)
    : option SlotConfig :=
  find_position (Some positionIndex) (dreams (config st)).

(** [findIndex]; [None] is [-1]. *)
Definition getDreamIndexByPosition (st : AppState) (positionIndex : Z)
    : option nat :=
  fst <$> list_find (fun d => Types.positionIndex d = positionIndex)
            (dreams (config st)).

Definition getSlotConfigById (st : AppState) (slotId : string)
    : option SlotConfig :=
  if decide (slotId = "core") then Some (core (config st))
  else if startsWith "dream-" slotId then
    find_position (parse_position slotId) (dreams (config st))
  else None.

Definition handleSlotClick (slotId : string) (st : AppState) : AppState :=
  set_selectedSlot
    (if decide (selectedSlot st = Some slotId) then None else Some slotId) st.

(** [Array.prototype.sort] with the comparator [(a, b) => a.positionIndex -
    b.positionIndex]: the sort is stable, so an element goes before the
    elements that follow it in the array and are not smaller. *)
Fixpoint insert_by_position (x : SlotConfig) (l : list SlotConfig)
    : list SlotConfig :=
  match l with
  | [] => [x]
  | y :: l' =>
      if (positionIndex x <=? positionIndex y)%Z then x :: y :: l'
      else y :: insert_by_position x l'
  end.

Definition sort_by_position (l : list SlotConfig) : list SlotConfig :=
  foldr insert_by_position [] l.

Definition handleAddSlot (positionIndex : Z) (st : AppState) : AppState :=
  if decide (positionIndex ∈ usedPositions (config st)) then
    console_error "Position already in use:" st
  else
    let newSlot := createSlotConfig positionIndex in
    let newConfig :=
      mkConfig (core (config st))
        (sort_by_position (dreams (config st) ++ [newSlot])) in
    set_selectedSlot (Some (dream_id positionIndex))
      (debouncedSave newConfig (set_config newConfig st)).

Definition handleRemoveSlot (positionIndex : Z) (st : AppState) : AppState :=
  match getDreamIndexByPosition st positionIndex with
  | None => console_error "Slot not found:" st
  | Some _ =>
      let newConfig :=
        mkConfig (core (config st))
          (filter (fun d => Types.positionIndex d ≠ positionIndex)
             (dreams (config st))) in
      let st' := debouncedSave newConfig (set_config newConfig st) in
      if decide (selectedSlot st = Some (dream_id positionIndex))
      then set_selectedSlot None st'
      else st'
  end.

(** A position that is [NaN] matches no slot. *)
Definition updateDreamByPosition (dreams : list SlotConfig)
    (positionIndex : option Z) (updater : SlotConfig -> SlotConfig)
    : list SlotConfig :=
  (fun dream =>
     if decide (Some (Types.positionIndex dream) = positionIndex)
     then updater dream else dream) <$> dreams.

(** [{ ...d, image: v }] *)
Definition with_image (v : option string) (d : SlotConfig) : SlotConfig :=
  mkSlotConfig v (size d) (zoom d) (opacity d) (blur d) (glowIntensity d)
    (offsetX d) (offsetY d) (rotation d) (saturation d) (brightness d)
    (contrast d) (positionIndex d).

Definition handleClearSlot (slotId : string) (st : AppState) : AppState :=
  if decide (slotId = "core") then
    let newConfig :=
      mkConfig (with_image None (core (config st))) (dreams (config st)) in
    debouncedSave newConfig (set_config newConfig st)
  else if startsWith "dream-" slotId then
    let positionIndex := parse_position slotId in
    let newConfig :=
      mkConfig (core (config st))
        (updateDreamByPosition (dreams (config st)) positionIndex
           (with_image None)) in
    debouncedSave newConfig (set_config newConfig st)
  else st.

Definition handleResetEffects (slotId : string) (st : AppState) : AppState :=
  if decide (slotId = "core") then
    let newConfig :=
      mkConfig (resetEffects (core (config st))) (dreams (config st)) in
    debouncedSave newConfig (set_config newConfig st)
  else if startsWith "dream-" slotId then
    let positionIndex := parse_position slotId in
    let newConfig :=
      mkConfig (core (config st))
        (updateDreamByPosition (dreams (config st)) positionIndex
           resetEffects) in
    debouncedSave newConfig (set_config newConfig st)
  else st.

(** [const { image, positionIndex, ...effects } = slotConfig]: the object
    [effects] has the eleven effect keys. *)
Definition rest_effects (slotConfig : SlotConfig) : PartialEffects := {|
  p_size := Some (size slotConfig);
  p_zoom := Some (zoom slotConfig);
  p_opacity := Some (opacity slotConfig);
  p_blur := Some (blur slotConfig);
  p_glowIntensity := Some (glowIntensity slotConfig);
  p_offsetX := Some (offsetX slotConfig);
  p_offsetY := Some (offsetY slotConfig);
  p_rotation := Some (rotation slotConfig);
  p_saturation := Some (saturation slotConfig);
  p_brightness := Some (brightness slotConfig);
  p_contrast := Some (contrast slotConfig);
  p_positionIndex := None;
|}.

Definition handleCopyEffects (slotId : string) (st : AppState) : AppState :=
  match getSlotConfigById st slotId with
  | Some slotConfig => set_copiedEffects (Some (rest_effects slotConfig)) st
  | None => st
  end.

Definition handlePasteEffects (slotId : string) (st : AppState) : AppState :=
  match copiedEffects st with
  | None => st
  | Some copied =>
      if decide (slotId = "core") then
        let newConfig :=
          mkConfig (spread_effects (core (config st)) copied)
            (dreams (config st)) in
        debouncedSave newConfig (set_config newConfig st)
      else if startsWith "dream-" slotId then
        let positionIndex := parse_position slotId in
        let newConfig :=
          mkConfig (core (config st))
            (updateDreamByPosition (dreams (config st)) positionIndex
               (fun d => spread_effects d copied)) in
        debouncedSave newConfig (set_config newConfig st)
      else st
  end.

Definition handleApplyPreset (slotId : string) (preset : EffectPreset)
    (st : AppState) : AppState :=
  if decide (slotId = "core") then
    let newConfig :=
      mkConfig (applyPreset (core (config st)) preset) (dreams (config st)) in
    debouncedSave newConfig (set_config newConfig st)
  else if startsWith "dream-" slotId then
    let positionIndex := parse_position slotId in
    let newConfig :=
      mkConfig (core (config st))
        (updateDreamByPosition (dreams (config st)) positionIndex
           (fun d => applyPreset d preset)) in
    debouncedSave newConfig (set_config newConfig st)
  else st.

Definition handleImageSelect (filename : string) (st : AppState) : AppState :=
  match selectedSlot st with
  | None => st
  | Some selected =>
      if decide (selected = "") then st
      else if decide (selected = "core") then
        let newConfig :=
          mkConfig (with_image (Some filename) (core (config st)))
            (dreams (config st)) in
        debouncedSave newConfig (set_config newConfig st)
      else if startsWith "dream-" selected then
        let positionIndex := parse_position selected in
        let newConfig :=
          mkConfig (core (config st))
            (updateDreamByPosition (dreams (config st)) positionIndex
               (with_image (Some filename))) in
        debouncedSave newConfig (set_config newConfig st)
      else st
  end.

Definition handleImageDrop (slotId filename : string) (st : AppState)
    : AppState :=
  if decide (slotId = "core") then
    let newConfig :=
      mkConfig (with_image (Some filename) (core (config st)))
        (dreams (config st)) in
    set_selectedSlot (Some slotId)
      (debouncedSave newConfig (set_config newConfig st))
  else if startsWith "dream-" slotId then
    let positionIndex := parse_position slotId in
    let newConfig :=
      mkConfig (core (config st))
        (updateDreamByPosition (dreams (config st)) positionIndex
           (with_image (Some filename))) in
    set_selectedSlot (Some slotId)
      (debouncedSave newConfig (set_config newConfig st))
  else st.

(** [handleImageDelete]: [delete_throws] tells whether deleting the image
    from the store throws; then the [catch] block logs and nothing else is
    done. *)
Definition handleImageDelete (delete_throws : bool) (imageId : string)
    (st : AppState) : AppState :=
  if delete_throws then console_error "Delete error:" st
  else
    let st1 := set_images (filter (fun img => img ≠ imageId) (images st)) st in
    let core' :=
      if decide (image (core (config st)) = Some imageId)
      then with_image None (core (config st))
      else core (config st) in
    let newConfig :=
      mkConfig core'
        ((fun dream =>
            if decide (image dream = Some imageId)
            then with_image None dream else dream) <$> dreams (config st)) in
    debouncedSave newConfig (set_config newConfig st1).

(** The pairs of a property name and a value of its type that
    [handleSlotPropertyChange] receives. *)
Inductive PropertyValue :=
  | pv_image (v : option string)
  | pv_size (v : R)
  | pv_zoom (v : R)
  | pv_opacity (v : R)
  | pv_blur (v : R)
  | pv_glowIntensity (v : R)
  | pv_offsetX (v : R)
  | pv_offsetY (v : R)
  | pv_rotation (v : R)
  | pv_saturation (v : R)
  | pv_brightness (v : R)
  | pv_contrast (v : R)
  | pv_positionIndex (v : Z).

(** [{ ...d, [property]: value }] *)
Definition with_property (pv : PropertyValue) (d : SlotConfig) : SlotConfig :=
  match pv with
  | pv_image v => with_image v d
  | pv_size v =>
      mkSlotConfig (image d) v (zoom d) (opacity d) (blur d) (glowIntensity d)
        (offsetX d) (offsetY d) (rotation d) (saturation d) (brightness d)
        (contrast d) (positionIndex d)
  | pv_zoom v =>
      mkSlotConfig (image d) (size d) v (opacity d) (blur d) (glowIntensity d)
        (offsetX d) (offsetY d) (rotation d) (saturation d) (brightness d)
        (contrast d) (positionIndex d)
  | pv_opacity v =>
      mkSlotConfig (image d) (size d) (zoom d) v (blur d) (glowIntensity d)
        (offsetX d) (offsetY d) (rotation d) (saturation d) (brightness d)
        (contrast d) (positionIndex d)
  | pv_blur v =>
      mkSlotConfig (image d) (size d) (zoom d) (opacity d) v (glowIntensity d)
        (offsetX d) (offsetY d) (rotation d) (saturation d) (brightness d)
        (contrast d) (positionIndex d)
  | pv_glowIntensity v =>
      mkSlotConfig (image d) (size d) (zoom d) (opacity d) (blur d) v
        (offsetX d) (offsetY d) (rotation d) (saturation d) (brightness d)
        (contrast d) (positionIndex d)
  | pv_offsetX v =>
      mkSlotConfig (image d) (size d) (zoom d) (opacity d) (blur d)
        (glowIntensity d) v (offsetY d) (rotation d) (saturation d)
        (brightness d) (contrast d) (positionIndex d)
  | pv_offsetY v =>
      mkSlotConfig (image d) (size d) (zoom d) (opacity d) (blur d)
        (glowIntensity d) (offsetX d) v (rotation d) (saturation d)
        (brightness d) (contrast d) (positionIndex d)
  | pv_rotation v =>
      mkSlotConfig (image d) (size d) (zoom d) (opacity d) (blur d)
        (glowIntensity d) (offsetX d) (offsetY d) v (saturation d)
        (brightness d) (contrast d) (positionIndex d)
  | pv_saturation v =>
      mkSlotConfig (image d) (size d) (zoom d) (opacity d) (blur d)
        (glowIntensity d) (offsetX d) (offsetY d) (rotation d) v
        (brightness d) (contrast d) (positionIndex d)
  | pv_brightness v =>
      mkSlotConfig (image d) (size d) (zoom d) (opacity d) (blur d)
        (glowIntensity d) (offsetX d) (offsetY d) (rotation d) (saturation d)
        v (contrast d) (positionIndex d)
  | pv_contrast v =>
      mkSlotConfig (image d) (size d) (zoom d) (opacity d) (blur d)
        (glowIntensity d) (offsetX d) (offsetY d) (rotation d) (saturation d)
        (brightness d) v (positionIndex d)
  | pv_positionIndex v =>
      mkSlotConfig (image d) (size d) (zoom d) (opacity d) (blur d)
        (glowIntensity d) (offsetX d) (offsetY d) (rotation d) (saturation d)
        (brightness d) (contrast d) v
  end.

(** The two functional updates of [handleSlotPropertyChange]: the first
    computes the configuration, the second hands the current one to
    [debouncedSave]. *)
Definition handleSlotPropertyChange (slotId : string) (pv : PropertyValue)
    (st : AppState) : AppState :=
  let prevConfig := config st in
  let newConfig :=
    if decide (slotId = "core") then
      mkConfig (with_property pv (core prevConfig)) (dreams prevConfig)
    else if startsWith "dream-" slotId then
      let positionIndex := parse_position slotId in
      mkConfig (core prevConfig)
        ((fun d =>
            if decide (Some (Types.positionIndex d) = positionIndex)
            then with_property pv d else d) <$> dreams prevConfig)
    else prevConfig in
  debouncedSave newConfig (set_config newConfig st).

(** The state of the component when it mounts. *)
Definition initial_state : AppState :=
  mkAppState [] (mkConfig DEFAULT_SLOT_CONFIG []) None None [] [].

(** *** Sorting by position *)

Definition pos_le (a b : SlotConfig) : Prop :=
  (positionIndex a <= positionIndex b)%Z.

Definition pos_lt (a b : SlotConfig) : Prop :=
  (positionIndex a < positionIndex b)%Z.

(** The invariant of the dream slots: positions strictly ascending, hence
    pairwise distinct. *)
Definition ascending (dreams : list SlotConfig) : Prop :=
  StronglySorted pos_lt dreams.

Lemma insert_by_position_perm (x : SlotConfig) (l : list SlotConfig) :
  insert_by_position x l ≡ₚ x :: l.
Proof.
  induction l as [|y l IH]; simpl; [done|].
  destruct (positionIndex x <=? positionIndex y)%Z; [done|].
  rewrite IH. apply Permutation_swap.
Qed.

Lemma sort_by_position_perm (l : list SlotConfig) : sort_by_position l ≡ₚ l.
Proof.
  induction l as [|x l IH]; simpl; [done|].
  by rewrite insert_by_position_perm, IH.
Qed.

Lemma insert_by_position_sorted (x : SlotConfig) (l : list SlotConfig) :
  StronglySorted pos_le l -> StronglySorted pos_le (insert_by_position x l).
Proof.
  induction 1 as [|y l Hl IH Hy]; simpl.
  { by repeat constructor. }
  destruct (Z.leb_spec (positionIndex x) (positionIndex y)) as [Hle|Hgt].
  - constructor; [by constructor|]. constructor; [done|].
    eapply Forall_impl; [exact Hy|]. unfold pos_le. intros z Hz. lia.
  - constructor; [done|].
    rewrite insert_by_position_perm. constructor; [|done].
    unfold pos_le. lia.
Qed.

Lemma sort_by_position_sorted (l : list SlotConfig) :
  StronglySorted pos_le (sort_by_position l).
Proof.
  induction l as [|x l IH]; simpl; [constructor|].
  by apply insert_by_position_sorted.
Qed.

Lemma ascending_NoDup (l : list SlotConfig) :
  ascending l -> NoDup (positionIndex <$> l).
Proof.
  induction 1 as [|x l Hl IH Hx]; simpl; constructor; [|done].
  intros Hin. apply list_elem_of_fmap in Hin as (y & Heq & Hy).
  rewrite Forall_forall in Hx. specialize (Hx y Hy). unfold pos_lt in Hx. lia.
Qed.

Lemma sorted_NoDup_ascending (l : list SlotConfig) :
  StronglySorted pos_le l -> NoDup (positionIndex <$> l) -> ascending l.
Proof.
  induction 1 as [|x l Hl IH Hx]; simpl; intros Hnd; [constructor|].
  apply NoDup_cons in Hnd as [Hnotin Hnd]. constructor; [by apply IH|].
  rewrite Forall_forall in Hx |- *. intros y Hy.
  specialize (Hx y Hy). unfold pos_le in Hx. unfold pos_lt.
  assert (positionIndex y ≠ positionIndex x); [|lia].
  intros Heq. apply Hnotin. rewrite <- Heq. by apply list_elem_of_fmap_2.
Qed.

Lemma ascending_sorted (l : list SlotConfig) :
  ascending l -> StronglySorted pos_le l.
Proof.
  induction 1 as [|x l Hl IH Hx]; constructor; [done|].
  eapply Forall_impl; [exact Hx|]. unfold pos_lt, pos_le. intros. lia.
Qed.

Lemma ascending_filter (P : SlotConfig -> Prop) `{!forall x, Decision (P x)}
    (l : list SlotConfig) :
  ascending l -> ascending (filter P l).
Proof.
  induction 1 as [|x l Hl IH Hx]; [constructor|].
  rewrite filter_cons. destruct (decide (P x)); [|done].
  constructor; [done|].
  rewrite Forall_forall in Hx |- *. intros y Hy.
  apply list_elem_of_filter in Hy as [_ Hy]. by apply Hx.
Qed.

Lemma ascending_unique (l1 l2 : list SlotConfig) :
  ascending l1 -> ascending l2 -> l1 ≡ₚ l2 -> l1 = l2.
Proof.
  intros H1 H2 Hp. apply (StronglySorted_unique_strong pos_lt); try done.
  unfold pos_lt. intros. lia.
Qed.

(** An edit that keeps the position of every slot keeps the invariant. *)
Lemma ascending_same_positions (l1 l2 : list SlotConfig) :
  positionIndex <$> l1 = positionIndex <$> l2 -> ascending l1 -> ascending l2.
Proof.
  revert l2. induction l1 as [|x l1 IH]; intros l2 Heq Hasc.
  { destruct l2; [constructor|done]. }
  destruct l2 as [|y l2]; [done|].
  simpl in Heq. inversion Heq as [[Hxy Hrest]].
  inversion Hasc as [|? ? Hl Hx]; subst.
  constructor; [by apply IH|].
  rewrite Forall_forall in Hx |- *. intros z Hz.
  apply (list_elem_of_fmap_2 positionIndex) in Hz.
  change (positionIndex z ∈ positionIndex <$> l2) in Hz.
  change (positionIndex <$> l1 = positionIndex <$> l2) in Hrest.
  rewrite <- Hrest in Hz. apply list_elem_of_fmap in Hz as (z' & Hz' & Hin).
  specialize (Hx z' Hin). unfold pos_lt in *. lia.
Qed.

(** *** Finding a slot *)

Lemma find_position_Some (p : Z) (l : list SlotConfig) (d : SlotConfig) :
  find_position (Some p) l = Some d -> d ∈ l /\ positionIndex d = p.
Proof.
  unfold find_position. intros Hf.
  destruct (list_find _ l) as [[i x]|] eqn:Hfind; simpl in Hf; [|done].
  inversion Hf; subst. apply list_find_Some in Hfind as (Hi & Hp & _).
  split; [|done]. apply list_elem_of_lookup. eauto.
Qed.

Lemma find_position_None (p : Z) (l : list SlotConfig) :
  find_position (Some p) l = None <-> p ∉ positionIndex <$> l.
Proof.
  unfold find_position.
  destruct (list_find _ l) as [[i x]|] eqn:Hfind; simpl.
  - apply list_find_Some in Hfind as (Hi & Hp & _). split; [done|].
    intros Hnot. destruct Hnot. rewrite <- Hp. apply list_elem_of_fmap_2.
    apply list_elem_of_lookup. eauto.
  - rewrite list_find_None, Forall_forall in Hfind. split; [|done].
    intros _ Hin. apply list_elem_of_fmap in Hin as (y & -> & Hy).
    by apply (Hfind y).
Qed.

Lemma find_position_unique (l : list SlotConfig) (d : SlotConfig) :
  NoDup (positionIndex <$> l) -> d ∈ l ->
  find_position (Some (positionIndex d)) l = Some d.
Proof.
  intros Hnd Hin.
  destruct (find_position (Some (positionIndex d)) l) as [d'|] eqn:Hf.
  - apply find_position_Some in Hf as [Hin' Hp]. f_equal.
    apply list_elem_of_lookup in Hin as [i Hi].
    apply list_elem_of_lookup in Hin' as [j Hj].
    assert (i = j) as ->; [|congruence].
    eapply NoDup_lookup; [exact Hnd| |].
    + by rewrite list_lookup_fmap, Hi.
    + by rewrite list_lookup_fmap, Hj, <- Hp.
  - apply find_position_None in Hf. destruct Hf. by apply list_elem_of_fmap_2.
Qed.

(** *** Available positions *)

(** A position is offered for a new slot exactly when it is one of the
    fourteen presets and no dream slot occupies it; no position is offered
    twice. *)
Theorem getAvailablePositions_free (st : AppState) (i : Z) :
  (i ∈ getAvailablePositions st <->
   (0 <= i < 14)%Z /\ getSlotByPosition st i = None) /\
  NoDup (getAvailablePositions st).
Proof.
  unfold getAvailablePositions, getSlotByPosition, usedPositions. split.
  - rewrite list_elem_of_filter, find_position_None.
    split.
    + intros [Hfree Hin]. apply list_elem_of_fmap in Hin as (n & -> & Hn).
      apply elem_of_seq in Hn.
      unfold TOTAL_DREAM_POSITIONS in Hn. split; [lia|done].
    + intros [Hi Hfree]. split; [done|]. apply list_elem_of_fmap.
      exists (Z.to_nat i).
      split; [lia|]. apply elem_of_seq. unfold TOTAL_DREAM_POSITIONS. lia.
  - apply NoDup_filter, NoDup_fmap_2; [|apply NoDup_seq].
    intros ? ? ?. lia.
Qed.

(** *** Adding and removing a slot *)

Lemma filter_other_positions (p : Z) (l : list SlotConfig) :
  p ∉ positionIndex <$> l ->
  filter (fun d => positionIndex d ≠ p) l = l.
Proof.
  induction l as [|x l IH]; [done|]. simpl. intros Hnot.
  apply not_elem_of_cons in Hnot as [Hx Hl].
  rewrite filter_cons. destruct (decide (positionIndex x ≠ p)); [|done].
  by rewrite IH.
Qed.

Lemma find_position_filter (p q : Z) (l : list SlotConfig) :
  q ≠ p ->
  find_position (Some q) (filter (fun d => positionIndex d ≠ p) l) =
    find_position (Some q) l.
Proof.
  intros Hne. unfold find_position.
  induction l as [|x l IH]; [done|].
  rewrite filter_cons. destruct (decide (positionIndex x ≠ p)) as [Hx|Hx].
  - simpl. destruct (decide (positionIndex x = q)); [done|].
    destruct (list_find _ (filter _ l)) as [[i y]|],
             (list_find _ l) as [[j z]|]; simpl in *; congruence.
  - simpl. destruct (decide (positionIndex x = q)); [lia|].
    rewrite IH. by destruct (list_find _ l) as [[j z]|].
Qed.

(** Adding a slot at a position in use only logs an error. Adding one at a
    free position inserts a default slot at that position, keeps the other
    slots and the core, selects the new slot, hands the new configuration to
    the debounced save, and keeps the dream slots in ascending order of
    position. *)
Theorem handleAddSlot_inserts (p : Z) (st : AppState) :
  let st' := handleAddSlot p st in
  (p ∈ usedPositions (config st) ->
     st' = console_error "Position already in use:" st) /\
  (p ∉ usedPositions (config st) ->
     dreams (config st') ≡ₚ createSlotConfig p :: dreams (config st) /\
     core (config st') = core (config st) /\
     getSlotByPosition st' p = Some (createSlotConfig p) /\
     selectedSlot st' = Some (dream_id p) /\
     saves st' = saves st ++ [config st'] /\
     console st' = console st /\
     (ascending (dreams (config st)) -> ascending (dreams (config st')))).
Proof.
  intros st'. unfold st', handleAddSlot. split; intros Hused.
  { by rewrite decide_True. }
  rewrite decide_False by done. simpl.
  assert (sort_by_position (dreams (config st) ++ [createSlotConfig p])
            ≡ₚ createSlotConfig p :: dreams (config st)) as Hperm.
  { rewrite sort_by_position_perm. by rewrite Permutation_app_comm. }
  split; [done|]. split; [done|]. split; [|split; [done|split; [done|split; [done|]]]].
  - change (find_position (Some p)
              (sort_by_position (dreams (config st) ++ [createSlotConfig p]))
            = Some (createSlotConfig p)).
    destruct (find_position (Some p)
                (sort_by_position (dreams (config st) ++ [createSlotConfig p])))
      as [d|] eqn:Hf.
    + apply find_position_Some in Hf as [Hin Hp]. f_equal.
      rewrite Hperm in Hin. apply elem_of_cons in Hin as [->|Hin]; [done|].
      destruct Hused. rewrite <- Hp. by apply list_elem_of_fmap_2.
    + apply find_position_None in Hf. destruct Hf.
      rewrite Hperm. simpl. by left.
  - intros Hasc. apply sorted_NoDup_ascending.
    + apply sort_by_position_sorted.
    + rewrite Hperm. simpl. apply NoDup_cons. split; [done|].
      by apply ascending_NoDup.
Qed.

Lemma handleAddSlot_inserts_witness :
  getSlotByPosition (handleAddSlot 3 initial_state) 3 = Some (createSlotConfig 3).
Proof.
  apply (handleAddSlot_inserts 3 initial_state).
  unfold usedPositions, initial_state. simpl. apply not_elem_of_nil.
Defined.

(** Removing a slot at a position that no slot has only logs an error.
    Otherwise the slots at that position are removed and nothing else
    changes: every other position still finds its slot, the core is kept,
    the new configuration is handed to the debounced save, the selection is
    cleared when it was the removed slot, and ascending order is kept. *)
Theorem handleRemoveSlot_removes (p : Z) (st : AppState) :
  let st' := handleRemoveSlot p st in
  (getSlotByPosition st p = None ->
     st' = console_error "Slot not found:" st) /\
  (getSlotByPosition st p ≠ None ->
     getSlotByPosition st' p = None /\
     (forall q, q ≠ p ->
        getSlotByPosition st' q = getSlotByPosition st q) /\
     length (dreams (config st')) < length (dreams (config st)) /\
     core (config st') = core (config st) /\
     saves st' = saves st ++ [config st'] /\
     selectedSlot st' =
       (if decide (selectedSlot st = Some (dream_id p))
        then None else selectedSlot st) /\
     (ascending (dreams (config st)) -> ascending (dreams (config st')))).
Proof.
  intros st'. unfold st', handleRemoveSlot, getDreamIndexByPosition,
    getSlotByPosition, find_position.
  destruct (list_find _ (dreams (config st))) as [[i d]|] eqn:Hfind; simpl.
  2:{ split; [done|]. intros Hne. by destruct Hne. }
  split; [done|]. intros _.
  set (rest := filter (fun d => positionIndex d ≠ p)
                 (dreams (config st))).
  assert (list_find (fun d => positionIndex d = p) rest ≫= Some ∘ snd = None)
    as Hgone.
  { change (find_position (Some p) rest = None).
    apply find_position_None. intros Hin.
    apply list_elem_of_fmap in Hin as (y & Hy & Hin).
    apply list_elem_of_filter in Hin as [Hne _]. done. }
  assert (length rest < length (dreams (config st))) as Hlen.
  { apply list_find_Some in Hfind as (Hi & Hp & _).
    apply (list_elem_of_lookup_2 _ i) in Hi.
    apply list_elem_of_split in Hi as (l1 & l2 & Heq).
    unfold rest. rewrite Heq, filter_app, filter_cons.
    rewrite decide_False by (intros Hne; done).
    rewrite !length_app. simpl.
    pose proof (length_filter (fun d => positionIndex d ≠ p) l1).
    pose proof (length_filter (fun d => positionIndex d ≠ p) l2).
    lia. }
  destruct (decide (selectedSlot st = Some (dream_id p))); simpl.
  all: split; [exact Hgone|].
  all: split; [intros q Hq; apply (find_position_filter p q); done|].
  all: repeat (split; [done|]).
  all: intros Hasc; by apply ascending_filter.
Qed.

Lemma handleRemoveSlot_removes_witness :
  getSlotByPosition (handleRemoveSlot 3 (handleAddSlot 3 initial_state)) 3 = None.
Proof.
  apply (handleRemoveSlot_removes 3 (handleAddSlot 3 initial_state)).
  by rewrite handleAddSlot_inserts_witness.
Defined.

(** Adding a slot at a free position and removing it again gives back the
    configuration, when the dream slots are in ascending order. *)
Theorem add_then_remove (p : Z) (st : AppState) :
  p ∉ usedPositions (config st) ->
  ascending (dreams (config st)) ->
  config (handleRemoveSlot p (handleAddSlot p st)) =
    config st.
Proof.
  intros Hfree Hasc.
  destruct (handleAddSlot_inserts p st) as [_ Hadd].
  destruct (Hadd Hfree) as (Hperm & Hcore & Hfound & _ & _ & _ & Hasc').
  specialize (Hasc' Hasc). clear Hadd.
  set (st1 := handleAddSlot p st) in *.
  unfold handleRemoveSlot, getDreamIndexByPosition.
  unfold getSlotByPosition, find_position in Hfound.
  destruct (list_find _ (dreams (config st1))) as [[i d]|]; [|done].
  simpl.
  assert (filter (fun d => positionIndex d ≠ p)
            (dreams (config st1)) = dreams (config st)) as Hrest.
  { apply ascending_unique; [by apply ascending_filter|done|].
    rewrite Hperm, filter_cons. rewrite decide_False by (intros Hne; done).
    by rewrite filter_other_positions. }
  destruct (decide (selectedSlot st1 = _)); simpl;
    rewrite Hrest, Hcore; by destruct (config st).
Qed.

Lemma add_then_remove_witness :
  config (handleRemoveSlot 3 (handleAddSlot 3 initial_state)) =
    config initial_state.
Proof.
  apply add_then_remove.
  - unfold usedPositions, initial_state. simpl. apply not_elem_of_nil.
  - constructor.
Defined.

(** *** Editing the slot an identifier names *)

(** What the handlers that edit one slot do to the configuration, for an
    edit [f] of a slot; [None] when the identifier names no slot. *)
Definition edit_slot (slotId : string) (f : SlotConfig -> SlotConfig)
    (cfg : Config) : option Config :=
  if decide (slotId = "core") then Some (mkConfig (f (core cfg)) (dreams cfg))
  else if startsWith "dream-" slotId then
    Some (mkConfig (core cfg)
            (updateDreamByPosition (dreams cfg) (parse_position slotId) f))
  else None.

Definition commit (c : option Config) (st : AppState) : AppState :=
  match c with
  | Some newConfig => debouncedSave newConfig (set_config newConfig st)
  | None => st
  end.

Lemma handleClearSlot_edit (slotId : string) (st : AppState) :
  handleClearSlot slotId st =
    commit (edit_slot slotId (with_image None) (config st)) st.
Proof.
  unfold handleClearSlot, edit_slot, commit.
  destruct (decide (slotId = "core")); [done|].
  by destruct (startsWith "dream-" slotId).
Qed.

Lemma handleResetEffects_edit (slotId : string) (st : AppState) :
  handleResetEffects slotId st =
    commit (edit_slot slotId resetEffects (config st)) st.
Proof.
  unfold handleResetEffects, edit_slot, commit.
  destruct (decide (slotId = "core")); [done|].
  by destruct (startsWith "dream-" slotId).
Qed.

Lemma handleApplyPreset_edit (slotId : string) (preset : EffectPreset)
    (st : AppState) :
  handleApplyPreset slotId preset st =
    commit (edit_slot slotId (fun d => applyPreset d preset) (config st)) st.
Proof.
  unfold handleApplyPreset, edit_slot, commit.
  destruct (decide (slotId = "core")); [done|].
  by destruct (startsWith "dream-" slotId).
Qed.

Lemma handlePasteEffects_edit (slotId : string) (st : AppState) :
  handlePasteEffects slotId st =
    match copiedEffects st with
    | Some copied =>
        commit (edit_slot slotId (fun d => spread_effects d copied) (config st)) st
    | None => st
    end.
Proof.
  unfold handlePasteEffects, edit_slot, commit.
  destruct (copiedEffects st); [|done].
  destruct (decide (slotId = "core")); [done|].
  by destruct (startsWith "dream-" slotId).
Qed.

Lemma handleImageDrop_edit (slotId filename : string) (st : AppState) :
  handleImageDrop slotId filename st =
    match edit_slot slotId (with_image (Some filename)) (config st) with
    | Some newConfig =>
        set_selectedSlot (Some slotId)
          (debouncedSave newConfig (set_config newConfig st))
    | None => st
    end.
Proof.
  unfold handleImageDrop, edit_slot.
  destruct (decide (slotId = "core")); [done|].
  by destruct (startsWith "dream-" slotId).
Qed.

Lemma handleImageSelect_edit (filename : string) (st : AppState) :
  handleImageSelect filename st =
    match selectedSlot st with
    | Some selected =>
        if decide (selected = "") then st
        else commit (edit_slot selected (with_image (Some filename)) (config st)) st
    | None => st
    end.
Proof.
  unfold handleImageSelect, edit_slot, commit.
  destruct (selectedSlot st) as [selected|]; [|done].
  destruct (decide (selected = "")); [done|].
  destruct (decide (selected = "core")); [done|].
  by destruct (startsWith "dream-" selected).
Qed.

Lemma handleSlotPropertyChange_edit (slotId : string) (pv : PropertyValue)
    (st : AppState) :
  handleSlotPropertyChange slotId pv st =
    let newConfig :=
      default (config st) (edit_slot slotId (with_property pv) (config st)) in
    debouncedSave newConfig (set_config newConfig st).
Proof.
  unfold handleSlotPropertyChange, edit_slot, updateDreamByPosition.
  destruct (decide (slotId = "core")); [done|].
  by destruct (startsWith "dream-" slotId).
Qed.

Lemma edit_slot_core (f : SlotConfig -> SlotConfig) (cfg : Config) :
  edit_slot "core" f cfg = Some (mkConfig (f (core cfg)) (dreams cfg)).
Proof. reflexivity. Qed.

Lemma edit_slot_dream (p : Z) (f : SlotConfig -> SlotConfig) (cfg : Config) :
  edit_slot (dream_id p) f cfg =
    Some (mkConfig (core cfg)
            ((fun d => if decide (positionIndex d = Z.max 0 p) then f d else d)
               <$> dreams cfg)).
Proof.
  assert (dream_id p ≠ "core") as Hcore by (unfold dream_id; simpl; discriminate).
  unfold edit_slot. rewrite decide_False, dream_id_prefix, dream_id_parsed by done.
  unfold updateDreamByPosition. do 2 f_equal.
  apply list_fmap_ext. intros i d _.
  destruct (decide (Some (positionIndex d) = Some (Z.max 0 p))) as [Heq|Hne],
           (decide (positionIndex d = Z.max 0 p)) as [Heq'|Hne'];
    try done; congruence.
Qed.

Lemma edit_slot_positions (slotId : string) (f : SlotConfig -> SlotConfig)
    (cfg cfg' : Config) :
  (forall d, positionIndex (f d) = positionIndex d) ->
  edit_slot slotId f cfg = Some cfg' ->
  positionIndex <$> dreams cfg' = positionIndex <$> dreams cfg /\
  positionIndex (core cfg') = positionIndex (core cfg) /\
  length (dreams cfg') = length (dreams cfg).
Proof.
  intros Hf. unfold edit_slot.
  destruct (decide (slotId = "core")).
  { intros [= <-]. simpl. by rewrite Hf. }
  destruct (startsWith "dream-" slotId); [|done].
  intros [= <-]. simpl. unfold updateDreamByPosition.
  rewrite length_fmap. split; [|done].
  rewrite <- list_fmap_compose. apply list_fmap_ext. intros i d _. simpl.
  by destruct (decide _).
Qed.

(** A state with one dream slot, at position 3, that shows an image and
    has a blur of its own. *)
Definition state_with_dream : AppState :=
  handleSlotPropertyChange "dream-3" (pv_blur 3)
    (handleImageDrop "dream-3" "a.png" (handleAddSlot 3 initial_state)).

(** A handler called with the identifier built for a position, a safe
    integer, edits the dream slots at that position and no other
    slot; the identifier of a negative position addresses position 0. With
    ["core"] it edits the core slot only, and with any other identifier it
    changes nothing. Shown for clearing and dropping an image and for
    resetting the effects. *)
Theorem handlers_edit_addressed_slot (p : Z) (filename other : string)
    (st : AppState) :
  safe_integer p ->
  let at_p (f : SlotConfig -> SlotConfig) :=
    (fun d => if decide (positionIndex d = Z.max 0 p) then f d else d)
      <$> dreams (config st) in
  config (handleClearSlot (dream_id p) st) =
    mkConfig (core (config st)) (at_p (with_image None)) /\
  config (handleImageDrop (dream_id p) filename st) =
    mkConfig (core (config st)) (at_p (with_image (Some filename))) /\
  config (handleResetEffects (dream_id p) st) =
    mkConfig (core (config st)) (at_p resetEffects) /\
  config (handleClearSlot "core" st) =
    mkConfig (with_image None (core (config st))) (dreams (config st)) /\
  config (handleImageDrop "core" filename st) =
    mkConfig (with_image (Some filename) (core (config st)))
      (dreams (config st)) /\
  config (handleResetEffects "core" st) =
    mkConfig (resetEffects (core (config st))) (dreams (config st)) /\
  (other ≠ "core" -> startsWith "dream-" other = false ->
     handleClearSlot other st = st /\
     handleImageDrop other filename st = st /\
     handleResetEffects other st = st).
Proof.
  intros _ at_p.
  rewrite !handleClearSlot_edit, !handleResetEffects_edit, !handleImageDrop_edit.
  rewrite !edit_slot_dream, !edit_slot_core. simpl.
  do 6 (split; [reflexivity|]).
  intros Hcore Hdream.
  unfold edit_slot. rewrite !decide_False by done. rewrite Hdream. done.
Qed.

Lemma handlers_edit_addressed_slot_witness :
  image <$> dreams (config state_with_dream) = [Some "a.png"] /\
  image <$> dreams (config (handleClearSlot "dream-3" state_with_dream)) = [None] /\
  blur <$> dreams (config (handleResetEffects "dream-3" state_with_dream)) =
    [0%R] /\
  image <$> dreams (config (handleClearSlot "dream-4" state_with_dream)) =
    [Some "a.png"].
Proof.
  assert (safe_integer 3) as H3 by (unfold safe_integer; lia).
  assert (safe_integer 4) as H4 by (unfold safe_integer; lia).
  destruct (handlers_edit_addressed_slot 3 "b.png" "stars" state_with_dream H3)
    as (Hclear & _ & Hreset & _).
  destruct (handlers_edit_addressed_slot 4 "b.png" "stars" state_with_dream H4)
    as (Hother & _).
  change "dream-3" with (dream_id 3). change "dream-4" with (dream_id 4).
  rewrite Hclear, Hreset, Hother. repeat split; reflexivity.
Defined.

(** *** Copying and pasting effects *)



(** *** Deleting an image *)

(** When the store deletes the image, no slot shows it afterwards and it is
    gone from the image list; a slot that showed another image, or none, is
    unchanged, and every slot keeps its position. When the store throws,
    only an error is logged. *)
Theorem handleImageDelete_clears (imageId : string) (st : AppState) :
  let st' := handleImageDelete false imageId st in
  (imageId ∉ images st') /\
  (forall img, img ≠ imageId -> img ∈ images st -> img ∈ images st') /\
  (forall d, d = core (config st') \/ d ∈ dreams (config st') ->
     image d ≠ Some imageId) /\
  (image (core (config st)) ≠ Some imageId ->
     core (config st') = core (config st)) /\
  (forall i d, dreams (config st) !! i = Some d ->
     dreams (config st') !! i =
       Some (if decide (image d = Some imageId) then with_image None d else d)) /\
  positionIndex <$> dreams (config st') = positionIndex <$> dreams (config st) /\
  saves st' = saves st ++ [config st'] /\
  handleImageDelete true imageId st = console_error "Delete error:" st.
Proof.
  intros st'. unfold st', handleImageDelete. simpl.
  split; [|split; [|split; [|split; [|split; [|split; [|split]]]]]]; try done.
  - intros Hin. by apply list_elem_of_filter in Hin as [Hne _].
  - intros img Hne Hin. by apply list_elem_of_filter.
  - intros d [->|Hin].
    + by destruct (decide (image (core (config st)) = Some imageId)).
    + apply list_elem_of_fmap in Hin as (d0 & -> & _).
      by destruct (decide (image d0 = Some imageId)).
  - intros Hne. by rewrite decide_False.
  - intros i d Hi. by rewrite list_lookup_fmap, Hi.
  - rewrite <- list_fmap_compose. apply list_fmap_ext. intros i d _. simpl.
    by destruct (decide _).
Qed.

(** *** The editor as a state machine *)

(** One call of a handler, as the sidebar and the board make them. *)
Inductive Action :=
  | SlotClick (slotId : string)
  | AddSlot (p : Z)
  | RemoveSlot (p : Z)
  | ClearSlot (slotId : string)
  | ResetEffects (slotId : string)
  | CopyEffects (slotId : string)
  | PasteEffects (slotId : string)
  | ApplyPreset (slotId : string) (preset : EffectPreset)
  | ImageSelect (filename : string)
  | ImageDrop (slotId filename : string)
  | ImageDelete (delete_throws : bool) (imageId : string)
  | SlotPropertyChange (slotId : string) (pv : PropertyValue).

Definition step (st : AppState) (a : Action) : AppState :=
  match a with
  | SlotClick slotId => handleSlotClick slotId st
  | AddSlot p => handleAddSlot p st
  | RemoveSlot p => handleRemoveSlot p st
  | ClearSlot slotId => handleClearSlot slotId st
  | ResetEffects slotId => handleResetEffects slotId st
  | CopyEffects slotId => handleCopyEffects slotId st
  | PasteEffects slotId => handlePasteEffects slotId st
  | ApplyPreset slotId preset => handleApplyPreset slotId preset st
  | ImageSelect filename => handleImageSelect filename st
  | ImageDrop slotId filename => handleImageDrop slotId filename st
  | ImageDelete throws imageId => handleImageDelete throws imageId st
  | SlotPropertyChange slotId pv => handleSlotPropertyChange slotId pv st
  end.

(** The calls that do not write a position: a preset that names none, and
    a property change of another property. *)
Definition keeps_position (a : Action) : Prop :=
  match a with
  | ApplyPreset _ preset => p_positionIndex (effects preset) = None
  | SlotPropertyChange _ (pv_positionIndex _) => False
  | _ => True
  end.

Definition invariant (st : AppState) : Prop :=
  ascending (dreams (config st)) /\
  (forall e, copiedEffects st = Some e -> p_positionIndex e = None).

Lemma commit_invariant (slotId : string) (f : SlotConfig -> SlotConfig)
    (st : AppState) :
  (forall d, positionIndex (f d) = positionIndex d) ->
  invariant st -> invariant (commit (edit_slot slotId f (config st)) st).
Proof.
  intros Hf [Hasc Hcopied]. unfold commit.
  destruct (edit_slot slotId f (config st)) as [cfg'|] eqn:Hedit; [|done].
  apply (edit_slot_positions _ _ _ _ Hf) in Hedit as (Hpos & _ & _).
  split; [|done]. simpl. by apply (ascending_same_positions (dreams (config st))).
Qed.

Lemma with_property_position (pv : PropertyValue) (d : SlotConfig) :
  match pv with pv_positionIndex _ => False | _ => True end ->
  positionIndex (with_property pv d) = positionIndex d.
Proof. by destruct pv. Qed.

Lemma step_invariant (st : AppState) (a : Action) :
  keeps_position a -> invariant st -> invariant (step st a).
Proof.
  intros Hkeep Hinv.
  destruct a as [slotId|p|p|slotId|slotId|slotId|slotId|slotId preset|filename|slotId filename|delete_throws imageId|slotId pv];
    simpl in *.
  - done.
  - destruct (handleAddSlot_inserts p st) as [Hused Hfree].
    destruct (decide (p ∈ usedPositions (config st))) as [Hin|Hnot].
    + by rewrite (Hused Hin).
    + destruct (Hfree Hnot) as (_ & _ & _ & _ & _ & _ & Hasc).
      destruct Hinv as [Hasc0 Hcopied]. split; [by apply Hasc|].
      unfold handleAddSlot. by rewrite decide_False.
  - destruct (handleRemoveSlot_removes p st) as [Hnone Hsome].
    destruct (getSlotByPosition st p) eqn:Hget.
    + destruct Hsome as (_ & _ & _ & _ & _ & _ & Hasc); [done|].
      destruct Hinv as [Hasc0 Hcopied]. split; [by apply Hasc|].
      unfold handleRemoveSlot.
      destruct (getDreamIndexByPosition st p); [|done].
      by destruct (decide _).
    + by rewrite Hnone.
  - rewrite handleClearSlot_edit. by apply commit_invariant.
  - rewrite handleResetEffects_edit. by apply commit_invariant.
  - unfold handleCopyEffects.
    destruct (getSlotConfigById st slotId) as [slotConfig|]; [|done].
    destruct Hinv as [Hasc Hcopied]. split; [done|].
    simpl. by intros e [= <-].
  - rewrite handlePasteEffects_edit.
    destruct (copiedEffects st) as [copied|] eqn:Hc; [|done].
    apply commit_invariant; [|done].
    intros d. simpl. destruct Hinv as [_ Hcopied].
    by rewrite (Hcopied copied Hc).
  - rewrite handleApplyPreset_edit. apply commit_invariant; [|done].
    intros d. simpl. by rewrite Hkeep.
  - rewrite handleImageSelect_edit.
    destruct (selectedSlot st) as [selected|]; [|done].
    destruct (decide (selected = "")); [done|]. by apply commit_invariant.
  - rewrite handleImageDrop_edit.
    pose proof (commit_invariant slotId (with_image (Some filename)) st) as Hc.
    unfold commit in Hc.
    destruct (edit_slot slotId (with_image (Some filename)) (config st));
      [|done].
    by apply Hc.
  - destruct delete_throws; [done|].
    destruct (handleImageDelete_clears imageId st)
      as (_ & _ & _ & _ & _ & Hpos & _).
    destruct Hinv as [Hasc Hcopied]. split; [|done].
    by apply (ascending_same_positions (dreams (config st))).
  - rewrite handleSlotPropertyChange_edit. simpl.
    pose proof (commit_invariant slotId (with_property pv) st) as Hc.
    unfold commit in Hc.
    destruct (edit_slot slotId (with_property pv) (config st)); simpl.
    + apply Hc; [|done]. intros d. apply with_property_position.
      by destruct pv.
    + done.
Qed.

(** From the state in which the component mounts, after any sequence of
    handler calls that write no position (every call except a preset that
    names a position and a change of the property [positionIndex]), the
    dream slots are in strictly ascending order of position: no two of them
    share a position. *)
Theorem editor_keeps_positions_distinct (actions : list Action) :
  Forall keeps_position actions ->
  let st := foldl step initial_state actions in
  ascending (dreams (config st)) /\
  NoDup (usedPositions (config st)).
Proof.
  intros Hall st.
  assert (invariant st) as [Hasc _].
  { unfold st. clear st.
    assert (invariant initial_state) as Hinit.
    { split; [constructor|done]. }
    revert Hinit. generalize initial_state as st0.
    induction Hall as [|a actions Ha _ IH]; intros st0 Hinv; [done|].
    simpl. apply IH. by apply step_invariant. }
  split; [done|]. by apply ascending_NoDup.
Qed.

Lemma editor_keeps_positions_distinct_witness :
  NoDup (usedPositions
           (config (foldl step initial_state
                      [AddSlot 5; AddSlot 2; ImageDrop "dream-2" "a.png";
                       AddSlot 5; RemoveSlot 9]))).
Proof.
  apply (editor_keeps_positions_distinct
           [AddSlot 5; AddSlot 2; ImageDrop "dream-2" "a.png";
            AddSlot 5; RemoveSlot 9]).
  repeat constructor.
Defined.

(** Every handler call that changes the configuration hands the new
    configuration to the debounced save, as the last of its requests. *)
Theorem config_changes_are_saved (st : AppState) (a : Action) :
  config (step st a) = config st \/
  last (saves (step st a)) = Some (config (step st a)).
Proof.
  assert (forall c, let st' := commit c st in
                    config st' = config st \/
                    last (saves st') = Some (config st')) as Hcommit.
  { intros [c|]; simpl; [right|by left]. by rewrite last_snoc. }
  destruct a as [slotId|p|p|slotId|slotId|slotId|slotId|slotId preset|filename|slotId filename|delete_throws imageId|slotId pv];
    simpl.
  - by left.
  - unfold handleAddSlot. destruct (decide _); [by left|right].
    simpl. by rewrite last_snoc.
  - unfold handleRemoveSlot.
    destruct (getDreamIndexByPosition st p); [right|by left].
    destruct (decide _); simpl; by rewrite last_snoc.
  - rewrite handleClearSlot_edit. apply Hcommit.
  - rewrite handleResetEffects_edit. apply Hcommit.
  - unfold handleCopyEffects. left. by destruct (getSlotConfigById st slotId).
  - rewrite handlePasteEffects_edit.
    destruct (copiedEffects st); [apply Hcommit|by left].
  - rewrite handleApplyPreset_edit. apply Hcommit.
  - rewrite handleImageSelect_edit.
    destruct (selectedSlot st) as [selected|]; [|by left].
    destruct (decide (selected = "")); [by left|apply Hcommit].
  - rewrite handleImageDrop_edit.
    destruct (edit_slot _ _ _); [right|by left]. simpl. by rewrite last_snoc.
  - destruct delete_throws; [by left|right].
    unfold handleImageDelete. simpl. by rewrite last_snoc.
  - right. unfold handleSlotPropertyChange. simpl. by rewrite last_snoc.
Qed.

End Editor.

(** ** [vision-board/index.tsx]: fitting the poster into the window *)

#[local] Open Scope R_scope.

Module Viewport.
Import JsMath Constants.




End Viewport.

(** ** [vision-board/StarsBackground.tsx] *)

Module StarsBackground.
Import JsMath Constants SlotComponents.

Record Star := mkStar { star_x : R; star_y : R; star_radius : R; star_alpha : R }.

Record Nebula :=
  mkNebula { nebula_x : R; nebula_y : R; nebula_radius : R; nebula_color : Z }.

Definition starCount : nat := 500.

(** The body of the loop that fills [stars], for the index [i]. *)
Definition star (i : nat) : Star := {|
  star_x := seededRandom (INR i * 3) * POSTER_WIDTH;
  star_y := seededRandom (INR i * 5) * POSTER_HEIGHT;
  star_radius := seededRandom (INR i * 7) * 1.5 + 0.5;
  star_alpha := seededRandom (INR i * 11) * 0.6 + 0.2;
|}.

Definition starsData : list Star := star <$> seq 0 starCount.

Definition colors : list Z := [0x0f0520; 0x081020; 0x0a0a1a; 0x100820; 0x0a1020]%Z.

(** [colors[i % colors.length]!] *)
Definition nebula (i : nat) : Nebula := {|
  nebula_x := seededRandom (INR i * 17 + 100) * POSTER_WIDTH;
  nebula_y := seededRandom (INR i * 19 + 100) * POSTER_HEIGHT;
  nebula_radius := seededRandom (INR i * 23 + 100) * MIN_DIM * 0.25 + MIN_DIM * 0.12;
  nebula_color := default 0%Z (colors !! (i mod length colors)%nat);
|}.

Definition nebulaeData : list Nebula := nebula <$> seq 0 6.

Definition drawStars : list DrawCmd :=
  g_clear ::
  (starsData ≫= fun star =>
     [ g_circle (star_x star) (star_y star) (star_radius star);
       g_fill 0xffffff (Some (star_alpha star)) ]).

Definition drawNebulae : list DrawCmd :=
  g_clear ::
  (nebulaeData ≫= fun nebula =>
     [ g_circle (nebula_x nebula) (nebula_y nebula) (nebula_radius nebula);
       g_fill (nebula_color nebula) (Some 0.4) ]).

(** The background has 500 stars, each inside the poster, with a radius in
    [[0.5, 2)] and an opacity in [[0.2, 0.8)], and 6 nebulae, each centred
    inside the poster, with a radius in [[216, 666)] and a colour of the
    palette. *)
Theorem background_within_poster :
  length starsData = 500%nat /\
  Forall (fun s =>
            0 <= star_x s < POSTER_WIDTH /\ 0 <= star_y s < POSTER_HEIGHT /\
            0.5 <= star_radius s < 2 /\ 0.2 <= star_alpha s < 0.8) starsData /\
  length nebulaeData = 6%nat /\
  Forall (fun n =>
            0 <= nebula_x n < POSTER_WIDTH /\ 0 <= nebula_y n < POSTER_HEIGHT /\
            216 <= nebula_radius n < 666 /\ nebula_color n ∈ colors) nebulaeData.
Proof.
  split; [reflexivity|]. split; [|split; [reflexivity|]].
  - unfold starsData. apply Forall_fmap, Forall_forall. intros i _. simpl.
    unfold POSTER_WIDTH, POSTER_HEIGHT.
    pose proof (seededRandom_range (INR i * 3)).
    pose proof (seededRandom_range (INR i * 5)).
    pose proof (seededRandom_range (INR i * 7)).
    pose proof (seededRandom_range (INR i * 11)).
    repeat split; nra.
  - unfold nebulaeData. apply Forall_fmap, Forall_forall. intros i Hi. simpl.
    rewrite MIN_DIM_eq. unfold POSTER_WIDTH, POSTER_HEIGHT.
    pose proof (seededRandom_range (INR i * 17 + 100)).
    pose proof (seededRandom_range (INR i * 19 + 100)).
    pose proof (seededRandom_range (INR i * 23 + 100)).
    repeat split; try nra.
    assert (i mod 5 < 5)%nat as Hmod by (apply Nat.mod_upper_bound; lia).
    destruct (lookup_lt_is_Some_2 colors (i mod 5)) as [c Hc]; [done|].
    change (default 0%Z (colors !! (i mod 5)%nat) ∈ colors).
    rewrite Hc. simpl. apply list_elem_of_lookup. eauto.
Qed.

End StarsBackground.

(** ** [vision-board/SlotComponents.tsx]: placement, stacking and filters *)

Module SlotLayout.
Import JsMath Constants Types Effects SlotComponents.

Definition element_zIndex (e : Element) : option Z :=
  match e with
  | pixiContainer _ _ _ z _ => Some z
  | pixiGraphics z _ => z
  | ImageSlot _ _ _ _ => None
  end.

(** A dream slot is rendered exactly when its index is one of the fourteen
    presets; any other index renders nothing. *)
Theorem DreamSlot_renders_iff (index : Z) (config : SlotConfig)
    (isSelected : bool) :
  DreamSlot index config isSelected = None <-> (index < 0 \/ 14 <= index)%Z.
Proof.
  unfold DreamSlot. split.
  - intros Hnone.
    destruct (decide (0 <= index < 14)%Z) as [Hin|Hout]; [|lia].
    destruct (array_get_in_range DREAM_POSITIONS index) as (pos & Hget & _).
    { rewrite DREAM_POSITIONS_length. lia. }
    by rewrite Hget in Hnone.
  - intros Hout. rewrite array_get_out_of_range; [done|].
    rewrite DREAM_POSITIONS_length. lia.
Qed.

(** The seeded jitter is bounded: the base position of a dream slot is
    within 2% of the poster width and height of its preset position (36 and
    48 pixels), its base rotation is within 0.45 radians, and its size
    multiplier is between 0.8 and 1.2 times the preset size when that size
    is not negative. *)
Theorem jitter_bounds (pos : Preset) (index : Z) :
  -36 <= baseX pos index - pos_x pos * POSTER_WIDTH < 36 /\
  -48 <= baseY pos index - pos_y pos * POSTER_HEIGHT < 48 /\
  -0.45 <= baseRotation index < 0.45 /\
  (0 <= pos_size pos ->
     0.8 * pos_size pos <= posMultiplier pos index <= 1.2 * pos_size pos /\
     DREAM_BASE_SIZE * 0.8 * pos_size pos <= baseSlotSize pos index
       <= DREAM_BASE_SIZE * 1.2 * pos_size pos).
Proof.
  unfold baseX, baseY, baseRotation, baseSlotSize, posMultiplier,
    DREAM_BASE_SIZE, POSTER_WIDTH, POSTER_HEIGHT.
  rewrite MIN_DIM_eq.
  pose proof (seededRandom_range (IZR index * 7)).
  pose proof (seededRandom_range (IZR index * 13)).
  pose proof (seededRandom_range (IZR index * 17)).
  pose proof (seededRandom_range (IZR index * 23)).
  split; [lra|]. split; [lra|]. split; [lra|].
  intros Hsize. split; nra.
Qed.

Lemma jitter_bounds_witness :
  0.8 * 1.15 <= posMultiplier (mkPreset (-0.32) (-0.38) 1.15) 0 <= 1.2 * 1.15.
Proof.
  apply (jitter_bounds (mkPreset (-0.32) (-0.38) 1.15) 0). simpl. lra.
Defined.

(** Stacking: every dream slot that is rendered lies below the core slot,
    a selected dream slot lies above every dream slot that is not selected,
    and both lie below the z-index 1000 of the selection rings. *)
Theorem stacking_order (i j : Z) (ci cj core : SlotConfig) (selected : bool)
    (ei ej : Element) :
  DreamSlot i ci true = Some ei -> DreamSlot j cj false = Some ej ->
  exists zi zj zc : Z,
    element_zIndex ei = Some zi /\ element_zIndex ej = Some zj /\
    element_zIndex (CoreSlot core selected) = Some zc /\
    (50 <= zj < zi)%Z /\ (zi < zc)%Z /\ (zc < 1000)%Z.
Proof.
  intros Hi Hj.
  assert (0 <= i < 14)%Z as Hri.
  { destruct (decide (0 <= i < 14)%Z) as [|Hout]; [done|].
    assert (DreamSlot i ci true = None) as Hn
      by (apply DreamSlot_renders_iff; lia).
    congruence. }
  assert (0 <= j < 14)%Z as Hrj.
  { destruct (decide (0 <= j < 14)%Z) as [|Hout]; [done|].
    assert (DreamSlot j cj false = None) as Hn
      by (apply DreamSlot_renders_iff; lia).
    congruence. }
  unfold DreamSlot in Hi, Hj.
  destruct (array_get DREAM_POSITIONS i); [|done].
  destruct (array_get DREAM_POSITIONS j); [|done].
  inversion Hi; inversion Hj; subst.
  exists (200 + i)%Z, (50 + j)%Z, 500%Z. simpl. repeat split; lia.
Qed.

Lemma stacking_order_witness :
  exists zi zj zc : Z,
    element_zIndex (pixiContainer 0 0 0 (200 + 13) []) = Some zi /\
    (50 <= zj < zi)%Z /\ (zi < zc)%Z /\ (zc < 1000)%Z.
Proof.
  destruct (DreamSlot 13 DEFAULT_SLOT_CONFIG true) as [ei|] eqn:Hi;
    [|by apply DreamSlot_renders_iff in Hi; lia].
  destruct (DreamSlot 0 DEFAULT_SLOT_CONFIG false) as [ej|] eqn:Hj;
    [|by apply DreamSlot_renders_iff in Hj; lia].
  destruct (stacking_order 13 0 DEFAULT_SLOT_CONFIG DEFAULT_SLOT_CONFIG
              DEFAULT_SLOT_CONFIG false ei ej Hi Hj)
    as (zi & zj & zc & Hzi & _ & _ & H1 & H2 & H3).
  exists zi, zj, zc. split; [|done].
  unfold DreamSlot in Hi.
  destruct (array_get DREAM_POSITIONS 13); [|done].
  inversion Hi; subst ei. exact Hzi.
Defined.

(** *** The image slot *)

Inductive ColorOp :=
  | saturate (amount : R)
  | brightness_op (b : R)
  | contrast_op (amount : R).

Inductive Filter :=
  | BlurFilter (strength : R) (quality : Z)
  | ColorMatrixFilter (ops : list ColorOp).

(** What [ImageSlot] returns once its two textures are there: the container
    with its scale and opacity, the glow sprite with its opacity and blur,
    and the filters of the main sprite ([None] for [undefined]). *)
Record ImageLayers := mkImageLayers {
  layers_scale : R;
  layers_alpha : R;
  glow_alpha : R;
  glow_filter : Filter;
  main_filters : option (list Filter);
}.

Inductive ImageSlotView :=
  | view_placeholder (e : Element)
  | view_layers (l : ImageLayers).

(** The sizes passed to [useFadedTexture] for the main and the glow
    texture. *)
Definition texture_sizes (baseSize : R) (slotConfig : SlotConfig)
    (isCore : bool) : R * R :=
  let sizeMultiplier := or_default (size slotConfig) 1 in
  let size := baseSize * sizeMultiplier in
  (Math_floor (size * (if isCore then 1.2 else 1.1)),
   Math_floor (size * (if isCore then 1.8 else 1.5))).

Definition colorFilter (saturation brightness contrast : R) : Filter :=
  ColorMatrixFilter
    ((if neqb saturation 1 then [saturate (saturation - 1)] else []) ++
     (if neqb brightness 1 then [brightness_op brightness] else []) ++
     (if neqb contrast 1 then [contrast_op contrast] else [])).

(** [textures_loaded] tells whether both textures are defined. *)
Definition render_ImageSlot (baseSize : R) (slotConfig : SlotConfig)
    (isCore : bool) (textures_loaded : bool) : ImageSlotView :=
  let sizeMultiplier := or_default (size slotConfig) 1 in
  let glowFilter :=
    BlurFilter (if isCore then 30 else 18) (if isCore then 6 else 5) in
  let blurAmount := or_default (blur slotConfig) 0 in
  let imageBlurFilter := BlurFilter blurAmount 4 in
  let saturation := saturation slotConfig in
  let brightness := brightness slotConfig in
  let contrast := contrast slotConfig in
  let needsBlur := gtb blurAmount 0 in
  let needsColor :=
    neqb saturation 1 || neqb brightness 1 || neqb contrast 1 in
  let mainFilters :=
    if negb needsBlur && negb needsColor then None
    else Some ((if needsBlur then [imageBlurFilter] else []) ++
               (if needsColor
                then [colorFilter saturation brightness contrast] else [])) in
  if negb textures_loaded
  then view_placeholder (EmptySlotPlaceholder (baseSize / 2) isCore)
  else
    let baseGlowAlpha := if isCore then 0.35 else 0.25 in
    let glowAlpha := baseGlowAlpha * (glowIntensity slotConfig / 0.25) in
    view_layers
      (mkImageLayers sizeMultiplier (opacity slotConfig) glowAlpha glowFilter
         mainFilters).

(** Until its textures are loaded an image slot shows the placeholder of an
    empty slot. Once they are, a slot without custom effects is drawn at
    scale 1, fully opaque, with the base opacity of its glow and without any
    filter on the image; in general the image has no filter exactly when
    the blur is not positive and saturation, brightness and contrast are
    all 1, and a blur filter exactly when the blur is positive. *)
Theorem ImageSlot_filters (baseSize : R) (slotConfig : SlotConfig)
    (isCore : bool) :
  render_ImageSlot baseSize slotConfig isCore false =
    view_placeholder (EmptySlotPlaceholder (baseSize / 2) isCore) /\
  exists l : ImageLayers,
    render_ImageSlot baseSize slotConfig isCore true = view_layers l /\
    (hasCustomEffects slotConfig = false ->
       layers_scale l = 1 /\ layers_alpha l = 1 /\
       glow_alpha l = (if isCore then 0.35 else 0.25) /\
       main_filters l = None) /\
    (main_filters l = None <->
       blur slotConfig <= 0 /\ saturation slotConfig = 1 /\
       brightness slotConfig = 1 /\ contrast slotConfig = 1) /\
    ((exists fs, main_filters l = Some fs /\
                 BlurFilter (blur slotConfig) 4 ∈ fs) <->
       0 < blur slotConfig).
Proof.
  split; [reflexivity|]. eexists. split; [reflexivity|]. simpl.
  rewrite !(or_default_0 (blur slotConfig)).
  split; [|split].
  - intros Hno. apply hasCustomEffects_false in Hno
      as (Hs & _ & Ho & Hb & Hg & _ & _ & _ & Hsat & Hbr & Hc).
    rewrite Hs, Ho, Hg, Hb, Hsat, Hbr, Hc.
    assert (or_default 1.0 1 = 1) as -> by (rewrite or_default_ne; lra).
    assert (gtb 0 0 = false) as -> by (apply gtb_false; lra).
    assert (neqb 1.0 1 = false) as -> by (apply neqb_false; lra).
    simpl. repeat split; try done; destruct isCore; lra.
  - destruct (gtb (blur slotConfig) 0) eqn:Hb; simpl.
    + apply gtb_true in Hb. split; [done|]. intros [Hle _]. lra.
    + apply gtb_false in Hb.
      destruct (neqb (saturation slotConfig) 1) eqn:Hs; simpl.
      { split; [done|]. intros (_ & Heq & _). apply neqb_true in Hs. done. }
      destruct (neqb (brightness slotConfig) 1) eqn:Hbr; simpl.
      { split; [done|]. intros (_ & _ & Heq & _). apply neqb_true in Hbr. done. }
      destruct (neqb (contrast slotConfig) 1) eqn:Hc; simpl.
      { split; [done|]. intros (_ & _ & _ & Heq). apply neqb_true in Hc. done. }
      apply neqb_false in Hs, Hbr, Hc. done.
  - destruct (gtb (blur slotConfig) 0) eqn:Hb; simpl.
    + apply gtb_true in Hb. split; [done|]. intros _. eexists. split; [done|].
      by left.
    + apply gtb_false in Hb. split; [|intros Hpos; lra].
      intros (fs & Hfs & Hin). exfalso.
      destruct (neqb (saturation slotConfig) 1
                || neqb (brightness slotConfig) 1
                || neqb (contrast slotConfig) 1); simpl in Hfs; [|done].
      inversion Hfs; subst fs.
      apply list_elem_of_singleton in Hin. discriminate.
Qed.

(** The sizes of the two faded textures of an image slot are whole numbers,
    as the canvas of [createFadedTexture] needs them, and when the scaled
    size of the slot is not negative the glow texture is at least as large
    as the main one. *)
Theorem texture_sizes_whole (baseSize : R) (slotConfig : SlotConfig)
    (isCore : bool) :
  exists m g : Z,
    texture_sizes baseSize slotConfig isCore = (IZR m, IZR g) /\
    (0 <= baseSize * or_default (size slotConfig) 1 -> (0 <= m <= g)%Z).
Proof.
  unfold texture_sizes, Math_floor.
  set (s := baseSize * or_default (size slotConfig) 1).
  exists (Int_part (s * (if isCore then 1.2 else 1.1))),
         (Int_part (s * (if isCore then 1.8 else 1.5))).
  split; [done|]. intros Hs.
  pose proof (Math_floor_mono 0 (s * (if isCore then 1.2 else 1.1))) as Hlo.
  pose proof (Math_floor_mono (s * (if isCore then 1.2 else 1.1))
                (s * (if isCore then 1.8 else 1.5))) as Hhi.
  rewrite (Math_floor_IZR 0) in Hlo. unfold Math_floor in Hlo, Hhi.
  split; apply le_IZR; [apply Hlo|apply Hhi]; destruct isCore; nra.
Qed.

End SlotLayout.

(** ** [vision-board/utils/canvas-export.ts]: more on the walk and the export *)

Module ExportFacts.
Import JsMath Constants CanvasExport.

Lemma hide_deep_idem (c : Container) : hide_deep (hide_deep c) = hide_deep c.
Proof.
  induction c as [z v cs IH] using Container_nested_ind. simpl. f_equal.
  - by destruct v, (1000 <=? z)%Z.
  - rewrite <- list_fmap_compose. apply list_fmap_ext.
    intros i child Hi. simpl. rewrite Forall_forall in IH. apply IH.
    apply list_elem_of_lookup. eauto.
Qed.

Lemma hide_children_NoDup (i : nat) (cs : list Container) :
  Forall (fun c => NoDup (hideHudElements c).2) cs ->
  NoDup (hide_children hideHudElements i cs).2.
Proof.
  intros Hcs. revert i. induction Hcs as [|child rest Hchild Hrest IH]; intros i.
  { constructor. }
  rewrite hide_children_unfold. simpl.
  set (below := match children child with
                | [] => (child, [])
                | _ :: _ => hideHudElements child
                end).
  assert (NoDup below.2) as Hnd.
  { unfold below. destruct (children child); [constructor|done]. }
  assert (forall r, r ∈ below.2 -> r ≠ []) as Hne.
  { unfold below. destruct (children child) eqn:Hch.
    - intros r Hin. by apply elem_of_nil in Hin.
    - intros r Hin. by apply hideHudElements_refs in Hin as [? _]. }
  assert (forall r, r ∈ (hide_children hideHudElements (S i) rest).2 ->
                    exists j r', r = (S i + j)%nat :: r') as Hlater.
  { intros r Hin. apply hide_children_refs in Hin as (j & r' & ch & -> & _).
    - eauto.
    - apply Forall_forall. intros c _ r0. apply hideHudElements_refs. }
  apply NoDup_app. split; [|split].
  - destruct (is_hud child); [apply NoDup_singleton|constructor].
  - intros r Hr Hin. destruct (is_hud child); [|by apply elem_of_nil in Hr].
    apply list_elem_of_singleton in Hr as ->.
    apply elem_of_app in Hin as [Hin|Hin].
    + apply list_elem_of_fmap in Hin as (r' & Heq & Hr').
      inversion Heq; subst. by apply (Hne []).
    + apply Hlater in Hin as (j & r' & Heq). inversion Heq. lia.
  - apply NoDup_app. split; [|split].
    + apply NoDup_fmap_2; [|done]. intros ? ? Heq. by inversion Heq.
    + intros r Hr Hin. apply list_elem_of_fmap in Hr as (r0 & -> & _).
      apply Hlater in Hin as (j & r' & Heq). inversion Heq. lia.
    + apply IH.
Qed.

Lemma hideHudElements_NoDup (c : Container) : NoDup (hideHudElements c).2.
Proof.
  induction c as [z v cs IH] using Container_nested_ind.
  rewrite hideHudElements_unfold. simpl. by apply hide_children_NoDup.
Qed.

(** The walk reports no node twice, and a second walk over the scene it
    has hidden finds nothing to hide and changes nothing. *)
Theorem hideHudElements_once (c : Container) :
  NoDup (hideHudElements c).2 /\
  hideHudElements (hideHudElements c).1 = ((hideHudElements c).1, []).
Proof.
  split; [apply hideHudElements_NoDup|].
  destruct (hideHudElements (hideHudElements c).1) as [c2 hidden2] eqn:Hh.
  assert (c2 = (hideHudElements c).1) as ->.
  { change c2 with (c2, hidden2).1. rewrite <- Hh.
    rewrite !hideHudElements_state. destruct c as [z v cs].
    unfold hide_below. simpl. f_equal.
    rewrite <- list_fmap_compose. apply list_fmap_ext.
    intros i child _. apply hide_deep_idem. }
  f_equal. destruct hidden2 as [|r hidden2]; [done|]. exfalso.
  assert (r ∈ (hideHudElements (hideHudElements c).1).2) as Hin
    by (rewrite Hh; by left).
  apply hideHudElements_refs in Hin as [Hne (n & Hn & Hhud)].
  apply andb_prop in Hhud as [Hz Hv]. apply Z.leb_le in Hz.
  pose proof (hideHudElements_invisible c r n Hne Hn Hz). congruence.
Qed.

(** The stages the renderer has drawn, in order: one per completed call of
    [renderer.render]. *)
Definition renders (evs : list Event) : list Stage :=
  omap (fun e => match e with rendered s => Some s | _ => None end) evs.

(** An export draws the stage at most once: exactly once when neither the
    creation of the render texture nor the render throws, and not at all
    otherwise. The stage drawn is the scene with its rings hidden, scaled by
    3 in both directions (5400 by 7200 pixels for the poster of 1800 by
    2400) and with its position at the origin. The render texture is
    released exactly when the promise resolves: after a failure of any
    later call it is not released. *)
Theorem export_renders_at_print_size (env : Env) (filename : option string)
    (s : Stage) :
  let run := exportCanvasAsImage env (Some tt) filename (fresh s) in
  renders (events run.2) =
    (if create_throws env || render_throws env then []
     else [mkStage (3, 3) (0, 0) (hideHudElements (container s)).1]) /\
  length (children (hideHudElements (container s)).1) =
    length (children (container s)) /\
  (texture_destroyed ∈ events run.2 <-> run.1 = Resolved) /\
  (extracted ∈ events run.2 ->
     create_throws env = false /\ render_throws env = false /\
     extract_throws env = false /\ stage run.2 = s).
Proof.
  intros run.
  assert (render_stage s =
          mkStage (3, 3) (0, 0) (hideHudElements (container s)).1) as Hstage.
  { unfold render_stage. do 2 f_equal;
      unfold EXPORT_WIDTH, POSTER_WIDTH, EXPORT_HEIGHT, POSTER_HEIGHT; lra. }
  split; [|split; [|split]].
  - unfold run, exportCanvasAsImage.
    destruct (create_throws env) eqn:Hc.
    { by rewrite export_body_create_throws. }
    destruct (render_throws env) eqn:Hr.
    { by rewrite export_body_render_throws. }
    rewrite export_body_rendered by done. rewrite <- Hstage.
    by destruct (extract_throws env), (toBlob_throws env), (destroy_throws env).
  - rewrite hideHudElements_state. unfold hide_below. simpl.
    by rewrite length_fmap.
  - unfold run, exportCanvasAsImage.
    destruct (create_throws env) eqn:Hc.
    { rewrite export_body_create_throws by done. simpl.
      rewrite list_elem_of_singleton. split; discriminate. }
    destruct (render_throws env) eqn:Hr.
    { rewrite export_body_render_throws by done. simpl.
      rewrite list_elem_of_singleton. split; discriminate. }
    rewrite export_body_rendered by done.
    destruct (extract_throws env), (toBlob_throws env), (destroy_throws env);
      simpl; rewrite !elem_of_cons, elem_of_nil;
      (split; [intros Hin|intros Heq]; try discriminate;
       try (repeat (destruct Hin as [Hin|Hin]; try discriminate); done);
       auto 10).
  - unfold run, exportCanvasAsImage.
    destruct (create_throws env) eqn:Hc.
    { rewrite export_body_create_throws by done. simpl.
      rewrite list_elem_of_singleton. discriminate. }
    destruct (render_throws env) eqn:Hr.
    { rewrite export_body_render_throws by done. simpl.
      rewrite list_elem_of_singleton. discriminate. }
    rewrite export_body_rendered by done.
    destruct (extract_throws env), (toBlob_throws env), (destroy_throws env);
      simpl; rewrite ?elem_of_cons, ?elem_of_nil;
      intros Hin; try done;
      repeat (destruct Hin as [Hin|Hin]; try discriminate); done.
Qed.

(** *** The [download] handle of the board *)

(** [download]: [appRef] is [None] while the application is not
    initialised. *)
Definition download (env : Env) (appRef : option unit) (w : World)
    : Outcome * World :=
  match appRef with
  | Some app => exportCanvasAsImage env (Some app) None w
  | None =>
      (Resolved,
       mkWorld (stage w)
         (events w ++ [console_error "App reference is null - canvas not initialized"])
         (tasks w))
  end.

(** A download before the application is initialised resolves after logging
    an error of its own, and starts nothing: nothing is rendered, no task is
    queued and the stage is not touched. With an application, the file is
    saved under the default name once the callback of the conversion runs,
    provided no call throws and a blob is produced. *)
Theorem download_uses_default_name (env : Env) (s : Stage) :
  download env None (fresh s) =
    (Resolved,
     mkWorld s [console_error "App reference is null - canvas not initialized"] []) /\
  (first_throw env = None -> blob env ≠ None ->
     (download env (Some tt) (fresh s)).1 = Resolved /\
     anchor_clicked "vision-board.png"
       ∈ events (drain env (download env (Some tt) (fresh s)).2)).
Proof.
  split; [reflexivity|]. intros Hthrow Hblob.
  change (download env (Some tt) (fresh s))
    with (exportCanvasAsImage env (Some tt) None (fresh s)).
  split; [by rewrite export_outcome, Hthrow|].
  unfold first_throw in Hthrow.
  destruct (create_throws env) eqn:Hc; [done|].
  destruct (render_throws env) eqn:Hr; [done|].
  destruct (extract_throws env) eqn:He; [done|].
  destruct (toBlob_throws env) eqn:Ht; [done|].
  destruct (destroy_throws env) eqn:Hd; [done|].
  unfold drain, exportCanvasAsImage.
  rewrite export_body_rendered by done. rewrite He, Ht, Hd. simpl.
  unfold run_task. destruct (blob env); [|done]. simpl.
  rewrite !elem_of_cons. auto 10.
Qed.

Lemma download_uses_default_name_witness :
  anchor_clicked "vision-board.png"
    ∈ events (drain env_ok (download env_ok (Some tt) (fresh selected_stage)).2).
Proof.
  apply (download_uses_default_name env_ok selected_stage); done.
Defined.

End ExportFacts.

(** ** [vision-board/texture-utils.ts]: the whole buffer, and an image that
    covers the canvas *)

Module TextureFacts.
Import JsMath TypedArray TextureUtils.


(** The loop touches alpha bytes only: the buffer keeps its length, the
    three colour channels of every pixel are left as they were, and a buffer
    of bytes of the size of the canvas stays a buffer of bytes. *)
Theorem mask_touches_alpha_only (img_width img_height : R) (size : nat)
    (zoom : R) (data : list Z) :
  let out := mask_pixels img_width img_height size zoom data in
  length out = length data /\
  (forall i c : nat, (c < 3)%nat ->
     out !! (i * 4 + c)%nat = data !! (i * 4 + c)%nat) /\
  (length data = (size * size * 4)%nat -> Forall is_byte data ->
     Forall is_byte out).
Proof.
  intros out. split; [apply mask_pixels_length|].
  split; [intros i c Hc; by apply mask_pixels_colour|].
  intros Hlen Hbytes. apply Forall_lookup. intros j b Hj.
  assert (j < size * size * 4)%nat as Hlt.
  { rewrite <- Hlen, <- (mask_pixels_length img_width img_height size zoom).
    by apply lookup_lt_Some in Hj. }
  assert (0 < size)%nat as Hsize by nia.
  pose proof (Nat.div_mod_eq j 4) as Hdiv.
  pose proof (Nat.mod_upper_bound j 4 ltac:(lia)) as Hmod.
  destruct (decide (j mod 4 < 3)%nat) as [Hc|Hc].
  - assert (j = (j / 4 * 4 + j mod 4)%nat) as Hjeq by lia.
    rewrite Hjeq in Hj. unfold out in Hj.
    rewrite mask_pixels_colour in Hj by done.
    rewrite Forall_forall in Hbytes. apply Hbytes.
    apply list_elem_of_lookup. eauto.
  - set (i := (j / 4)%nat) in *.
    assert (i < size * size)%nat as Hi by lia.
    pose proof (Nat.div_mod_eq i size) as Hdivi.
    pose proof (Nat.mod_upper_bound i size ltac:(lia)) as Hmodi.
    assert (i / size < size)%nat as Hpy by (apply Nat.Div0.div_lt_upper_bound; lia).
    destruct (mask_pixels_alpha_byte img_width img_height size zoom data
                (i mod size) (i / size) Hmodi Hpy Hlen Hbytes)
      as (src & _ & Hb & Hprod & Hout).
    assert (idx size (i mod size) (i / size) + 3 = j)%nat as Hidx
      by (unfold idx; lia).
    rewrite Hidx in Hout. unfold out in Hj. rewrite Hout in Hj.
    inversion Hj; subst b.
    pose proof (Int_part_between _ src Hprod) as Hip.
    destruct Hb. unfold is_byte. lia.
Qed.

Section cover.

Variables (img_width img_height : R) (size : nat) (zoom : R).
Hypotheses (Hwidth : 0 < img_width) (Hheight : 0 < img_height)
  (Hzoom : 1 <= zoom).




End cover.



End TextureFacts.

(** ** [App.tsx]: migrating a configuration that was migrated before *)

Module Migration.
Import Types App.

(** A configuration read back as a stored document: [core] is there and
    every entry of [dreams] is an object. *)
Definition as_stored (c : Config) : StoredDoc :=
  mkStoredDoc (Some (core c)) (Some (Some <$> dreams c)).

Lemma nullish_not_null (o : option JsVal) (d : JsVal) :
  d ≠ JNull -> nullish o d ≠ JNull.
Proof. intros Hd. destruct o as [[]|]; done. Qed.

Lemma migrateSlot_is_complete (slot : gmap string JsVal) (d : JsVal) :
  d ≠ JNull -> complete_slot (migrateSlot slot d).
Proof.
  intros Hd. split.
  - intros k Hk. by apply migrateSlot_fields.
  - exists (nullish (slot !! "positionIndex") d). split.
    + unfold migrateSlot. by rewrite lookup_insert_eq.
    + by apply nullish_not_null.
Qed.

Lemma migrated_complete (data : StoredDoc) :
  complete_slot (core (migrateConfigWithDefaults data)) /\
  Forall complete_slot (dreams (migrateConfigWithDefaults data)).
Proof.
  split; [by apply migrateSlot_is_complete|].
  apply Forall_lookup. intros i m Hm.
  rewrite migrated_dream_lookup in Hm.
  destruct (stored_dream_slots data !! i) as [s|]; [|done].
  inversion Hm; subst m. apply migrateSlot_is_complete.
  by apply nullish_not_null.
Qed.

Lemma migrate_complete (c : Config) :
  complete_slot (core c) -> Forall complete_slot (dreams c) ->
  migrateConfigWithDefaults (as_stored c) = c.
Proof.
  intros Hcore Hdreams. destruct c as [co ds].
  unfold migrateConfigWithDefaults, as_stored. simpl in *. f_equal.
  - by apply migrateSlot_complete.
  - apply list_eq. intros i. rewrite list_lookup_imap, list_lookup_fmap.
    destruct (ds !! i) as [s|] eqn:Hs; simpl; [|done].
    f_equal. apply migrateSlot_complete.
    rewrite Forall_forall in Hdreams. apply Hdreams.
    apply list_elem_of_lookup. eauto.
Qed.

(** Migration only fills gaps. A configuration whose slots all have every
    field and a [positionIndex] that is not [null] comes back unchanged,
    whatever the position of a dream in the array; the result of a
    migration is such a configuration, so migrating what was migrated
    changes nothing. *)
Theorem migrateConfigWithDefaults_fixpoint :
  (forall c : Config,
     complete_slot (core c) -> Forall complete_slot (dreams c) ->
     migrateConfigWithDefaults (as_stored c) = c) /\
  (forall data : StoredDoc,
     let c := migrateConfigWithDefaults data in
     complete_slot (core c) /\ Forall complete_slot (dreams c) /\
     migrateConfigWithDefaults (as_stored c) = c).
Proof.
  split; [apply migrate_complete|].
  intros data c. destruct (migrated_complete data) as [Hcore Hdreams].
  split; [done|]. split; [done|]. by apply migrate_complete.
Qed.

End Migration.

(** ** [vision-board/VisionBoardScene.tsx]: the slots of the scene *)

Module Scene.
Import JsMath Constants Types Effects SlotIds SlotComponents.

(** The container of the slots, centred on the poster, with its children:
    the core slot, then one dream slot per entry of [config.dreams] under
    the key [dream-<positionIndex>]. A child that renders nothing is
    [None]. *)
Record SlotsView := mkSlotsView {
  view_x : R;
  view_y : R;
  sortableChildren : bool;
  core_child : Element;
  dream_children : list (string * option Element);
}.

Definition VisionBoardScene (config : Config) (selectedSlot : option string)
    : SlotsView := {|
  view_x := POSTER_WIDTH / 2;
  view_y := POSTER_HEIGHT / 2;
  sortableChildren := true;
  core_child :=
    CoreSlot (core config) (bool_decide (selectedSlot = Some "core"));
  dream_children :=
    (fun dreamConfig =>
       (dream_id (positionIndex dreamConfig),
        DreamSlot (positionIndex dreamConfig) dreamConfig
          (bool_decide
             (selectedSlot = Some (dream_id (positionIndex dreamConfig))))))
      <$> dreams config;
|}.

(** A slot is highlighted when it is rendered with a selection ring. *)
Definition highlighted (child : option Element) : bool :=
  match child with
  | Some slot => match overlays slot with [] => false | _ :: _ => true end
  | None => false
  end.

(** The identifiers of the highlighted slots of a view. *)
Definition highlighted_slots (view : SlotsView) : list string :=
  (if highlighted (Some (core_child view)) then ["core"] else []) ++
  (filter (fun child => highlighted child.2 = true) (dream_children view)).*1.

Lemma number_to_string_inj (a b : Z) :
  number_to_string a = number_to_string b -> a = b.
Proof.
  unfold number_to_string. intros Heq.
  assert (forall n : Z,
            DecimalString.NilZero.int_of_string
              (DecimalString.NilZero.string_of_int (Z.to_int n)) =
              Some (Z.to_int n)) as Hisi.
  { intros n. apply DecimalString.NilZero.isi.
    - destruct n as [|p|p]; simpl; try done.
      intros Hp. inversion Hp as [Hnil]. by apply to_uint_not_Nil in Hnil.
    - destruct n as [|p|p]; simpl; try done.
      intros Hp. inversion Hp as [Hnil]. by apply to_uint_not_Nil in Hnil. }
  pose proof (Hisi a) as Ha. rewrite Heq, Hisi in Ha.
  apply DecimalZ.to_int_inj. congruence.
Qed.

Lemma dream_id_inj (a b : Z) : dream_id a = dream_id b -> a = b.
Proof.
  unfold dream_id. intros Heq. apply number_to_string_inj.
  simpl in Heq. by inversion Heq.
Qed.

Lemma dream_id_not_core (n : Z) : dream_id n ≠ "core".
Proof. unfold dream_id. simpl. discriminate. Qed.

Lemma CoreSlot_highlighted (config : SlotConfig) (isSelected : bool) :
  highlighted (Some (CoreSlot config isSelected)) = isSelected.
Proof.
  unfold highlighted, CoreSlot. destruct isSelected.
  - rewrite overlays_selected; [done|]. apply slot_content_no_zIndex.
  - simpl. pose proof (slot_content_no_zIndex config CORE_BASE_SIZE true) as Hc.
    destruct (slot_content config CORE_BASE_SIZE true) as [[zi|] draw| |];
      try done. by destruct (Hc zi draw).
Qed.

Lemma DreamSlot_highlighted (index : Z) (config : SlotConfig)
    (isSelected : bool) :
  highlighted (DreamSlot index config isSelected) =
    isSelected && bool_decide (0 <= index < 14)%Z.
Proof.
  unfold highlighted, DreamSlot.
  destruct (decide (0 <= index < 14)%Z) as [Hin|Hout].
  - rewrite bool_decide_eq_true_2, andb_true_r by done.
    destruct (array_get_in_range DREAM_POSITIONS index) as (pos & -> & _).
    { rewrite DREAM_POSITIONS_length. lia. }
    destruct isSelected.
    + rewrite overlays_selected; [done|]. apply slot_content_no_zIndex.
    + simpl.
      pose proof (slot_content_no_zIndex config (baseSlotSize pos index) false)
        as Hc.
      destruct (slot_content config (baseSlotSize pos index) false)
        as [[zi|] draw| |]; try done. by destruct (Hc zi draw).
  - rewrite bool_decide_eq_false_2, andb_false_r by done.
    rewrite array_get_out_of_range; [done|].
    rewrite DREAM_POSITIONS_length. lia.
Qed.

Lemma highlighted_dreams (selectedSlot : option string)
    (dreams : list SlotConfig) :
  (filter (fun child : string * option Element => highlighted child.2 = true)
     ((fun dreamConfig =>
         (dream_id (positionIndex dreamConfig),
          DreamSlot (positionIndex dreamConfig) dreamConfig
            (bool_decide
               (selectedSlot = Some (dream_id (positionIndex dreamConfig))))))
        <$> dreams)).*1 =
  dream_id <$>
    filter (fun p => selectedSlot = Some (dream_id p) /\ (0 <= p < 14)%Z)
      (positionIndex <$> dreams).
Proof.
  induction dreams as [|d ds IH]; [done|].
  rewrite !fmap_cons, !filter_cons. simpl.
  rewrite DreamSlot_highlighted.
  repeat case_bool_decide; repeat case_decide; simpl in *;
    try tauto; try done; first [exact IH | f_equal; exact IH].
Qed.

Lemma filter_NoDup_one (p : Z) (l : list Z) (P : Z -> Prop)
    `{!forall x, Decision (P x)} :
  NoDup l -> (forall x, P x -> x = p) -> (length (filter P l) <= 1)%nat.
Proof.
  intros Hnd Hp. induction Hnd as [|x l Hx Hnd IH]; [simpl; lia|].
  rewrite filter_cons. destruct (decide (P x)) as [HP|HP]; [|done].
  apply Hp in HP as ->.
  assert (filter P l = []) as ->; [|simpl; lia].
  destruct (filter P l) as [|y rest] eqn:Hf; [done|].
  assert (y ∈ filter P l) as Hy by (rewrite Hf; by left).
  apply list_elem_of_filter in Hy as [HPy Hyl].
  apply Hp in HPy as ->. done.
Qed.

(** The selection shown by the scene. A highlighted slot is the selected
    one, and a dream slot that is selected is highlighted exactly when its
    position is one of the fourteen presets. When the positions of the
    dreams are pairwise distinct, as the editor keeps them, the keys of the
    dream slots are pairwise distinct and at most one slot of the scene is
    highlighted. *)
Theorem scene_highlights_selection (config : Config)
    (selectedSlot : option string) :
  let view := VisionBoardScene config selectedSlot in
  (forall slotId, slotId ∈ highlighted_slots view ->
     selectedSlot = Some slotId) /\
  ("core" ∈ highlighted_slots view <-> selectedSlot = Some "core") /\
  (forall p : Z,
     dream_id p ∈ highlighted_slots view <->
     selectedSlot = Some (dream_id p) /\ (0 <= p < 14)%Z /\
     p ∈ positionIndex <$> dreams config) /\
  (NoDup (positionIndex <$> dreams config) ->
     NoDup (dream_children view).*1 /\
     (length (highlighted_slots view) <= 1)%nat).
Proof.
  intros view.
  assert (highlighted_slots view =
          (if bool_decide (selectedSlot = Some "core") then ["core"] else []) ++
          (dream_id <$>
             filter (fun p => selectedSlot = Some (dream_id p) /\ (0 <= p < 14)%Z)
               (positionIndex <$> dreams config))) as Hview.
  { unfold highlighted_slots, view, VisionBoardScene. simpl core_child.
    rewrite CoreSlot_highlighted. f_equal. apply highlighted_dreams. }
  assert (forall p : Z,
            dream_id p ∈ highlighted_slots view <->
            selectedSlot = Some (dream_id p) /\ (0 <= p < 14)%Z /\
            p ∈ positionIndex <$> dreams config) as Hdream.
  { intros p. rewrite Hview, elem_of_app. split.
    - intros [Hcore|Hin].
      + destruct (bool_decide (selectedSlot = Some "core"));
          [|by apply elem_of_nil in Hcore].
        apply list_elem_of_singleton in Hcore. by apply dream_id_not_core in Hcore.
      + apply list_elem_of_fmap in Hin as (q & Heq & Hq).
        apply dream_id_inj in Heq as <-.
        apply list_elem_of_filter in Hq as [[Hsel Hr] Hq]. done.
    - intros (Hsel & Hr & Hp). right. apply list_elem_of_fmap. exists p.
      split; [done|]. by apply list_elem_of_filter. }
  split; [|split; [|split]].
  - intros slotId. rewrite Hview, elem_of_app. intros [Hcore|Hin].
    + destruct (bool_decide (selectedSlot = Some "core")) eqn:Hsel;
        [|by apply elem_of_nil in Hcore].
      apply list_elem_of_singleton in Hcore as ->.
      by apply bool_decide_eq_true in Hsel.
    + apply list_elem_of_fmap in Hin as (q & -> & Hq).
      by apply list_elem_of_filter in Hq as [[Hsel _] _].
  - rewrite Hview, elem_of_app. split.
    + intros [Hcore|Hin].
      * destruct (bool_decide (selectedSlot = Some "core")) eqn:Hsel;
          [|by apply elem_of_nil in Hcore].
        by apply bool_decide_eq_true in Hsel.
      * apply list_elem_of_fmap in Hin as (q & Heq & _).
        symmetry in Heq. by apply dream_id_not_core in Heq.
    + intros Hsel. left. rewrite bool_decide_eq_true_2 by done. by left.
  - exact Hdream.
  - intros Hnd. split.
    + unfold view, VisionBoardScene. simpl dream_children.
      rewrite <- list_fmap_compose.
      replace (fst ∘ _) with (dream_id ∘ positionIndex) by done.
      rewrite list_fmap_compose. apply NoDup_fmap_2; [|done].
      intros a b. apply dream_id_inj.
    + rewrite Hview, length_app, length_fmap.
      destruct (bool_decide (selectedSlot = Some "core")) eqn:Hsel.
      * apply bool_decide_eq_true in Hsel.
        assert (filter
                  (fun p => selectedSlot = Some (dream_id p) /\ (0 <= p < 14)%Z)
                  (positionIndex <$> dreams config) = []) as ->; [|simpl; lia].
        destruct (filter _ _) as [|q rest] eqn:Hf; [done|].
        assert (q ∈ filter
                  (fun p => selectedSlot = Some (dream_id p) /\ (0 <= p < 14)%Z)
                  (positionIndex <$> dreams config)) as Hq
          by (rewrite Hf; by left).
        apply list_elem_of_filter in Hq as [[Hq _] _].
        rewrite Hsel in Hq. exfalso. apply (dream_id_not_core q). congruence.
      * simpl. destruct (filter _ _) as [|q rest] eqn:Hf; [simpl; lia|].
        assert (q ∈ filter
                  (fun p => selectedSlot = Some (dream_id p) /\ (0 <= p < 14)%Z)
                  (positionIndex <$> dreams config)) as Hq
          by (rewrite Hf; by left).
        apply list_elem_of_filter in Hq as [[Hq _] _].
        rewrite <- Hf. apply (filter_NoDup_one q); [done|].
        intros r [Hr _]. apply dream_id_inj. congruence.
Qed.

End Scene.
